(** * Distance-vector routing simulator: shallow embedding and properties

    This development embeds the routing engine of [src/src/distancevector.cpp]
    (routing tables, routers, topology seeding, change application, the
    Bellman-Ford sweep with split horizon, and message forwarding) as
    executable Rocq definitions, and proves properties of that code.

    Conventions of the embedding:
    - a C++ [int] is a [Z]; the only arithmetic of the program, the sum of two
      path costs, is wrapped to 32 bits two's complement ([int_add]); signed
      overflow is undefined in C++, so the statements that need the exact
      sum bound the link costs by [costMax], below which no sum overflows;
    - [std::map<int, std::pair<int,int>>] is a [gmap Z (Z * Z)];
    - [std::set<int>] is a [gset Z], iterated in ascending order ([in_order]);
    - [std::vector<Router>] is a [list Router], updated in place by index;
    - a thrown [std::runtime_error] is [None] (or [Thrown] where a loop is
      bounded by fuel);
    - the two [while] loops of the program take a fuel argument. *)

From stdpp Require Import base numbers option list sorting gmap sets strings pretty.

Local Open Scope Z_scope.

(** ** Machine integers *)

Definition int_min : Z := -2147483648.
Definition int_max : Z := 2147483647.

Definition wrap (z : Z) : Z := (z + 2147483648) `mod` 4294967296 - 2147483648.

(** [a + b] on two C++ [int]s. *)
Definition int_add (a b : Z) : Z := wrap (a + b).

(** ** Data model *)

Record Link := mkLink { node1 : Z; node2 : Z; pathCost : Z }.

Record Message := mkMessage { sourceID : Z; destinationID : Z; message : string }.

Global Instance Link_eq_dec : EqDecision Link.
Proof. solve_decision. Defined.

(** Ascending iteration over a [std::set<int>]. *)
Definition in_order (nodes : gset Z) : list Z := merge_sort Z.le (elements nodes).

(** *** RoutingTable *)

Module RoutingTable.

(** The private member [table], destination_ID : (next_hop_ID, cost), is the
    [gmap Z (Z * Z)] itself. *)

(** Constructor [RoutingTable(int myID, const std::set<int> &nodes)]. *)
Definition make (myID : Z) (nodes : gset Z) : gmap Z (Z * Z) :=
  foldl (fun (table : gmap Z (Z * Z)) id =>
           if decide (id = myID) then <[id := (id, 0)]> table
           else <[id := (-1, 9999)]> table)
        ∅ (in_order nodes).

(** This function can also be used to update the existing entry. *)
Definition addRoute (table : gmap Z (Z * Z)) (destinationID nextHopID pathCost : Z)
  : gmap Z (Z * Z) :=
  <[destinationID := (nextHopID, pathCost)]> table.

Definition contains (table : gmap Z (Z * Z)) (destinationID : Z) : bool :=
  bool_decide (is_Some (table !! destinationID)).

(** [contains(destinationID) ? table.at(destinationID).first : -1]. *)
Definition getNextHop (table : gmap Z (Z * Z)) (destinationID : Z) : Z :=
  match table !! destinationID with
  | Some entry => entry.1
  | None => -1
  end.

(** [contains(destinationID) ? table.at(destinationID).second : -1]. *)
Definition getPathCost (table : gmap Z (Z * Z)) (destinationID : Z) : Z :=
  match table !! destinationID with
  | Some entry => entry.2
  | None => -1
  end.

End RoutingTable.

(** *** Router *)

Record Router := mkRouter { ID : Z; RT : gmap Z (Z * Z) }.

Definition newRouter (id : Z) (nodes : gset Z) : Router :=
  {| ID := id; RT := RoutingTable.make id nodes |}.

Definition addRoute (r : Router) (destinationID nextHopID pathCost : Z) : Router :=
  {| ID := ID r; RT := RoutingTable.addRoute (RT r) destinationID nextHopID pathCost |}.

Definition getNextHop (r : Router) (destinationID : Z) : Z :=
  RoutingTable.getNextHop (RT r) destinationID.

Definition getPathCost (r : Router) (destinationID : Z) : Z :=
  RoutingTable.getPathCost (RT r) destinationID.

Definition getRoutingTable (r : Router) : gmap Z (Z * Z) := RT r.

Definition getID (r : Router) : Z := ID r.

(** ** Router lookup

    [getRouterByID] returns a reference into the vector: the position of the
    first router with the requested id together with the router stored
    there.  [None] is the thrown [std::runtime_error]. *)

Definition getRouterByID (routers : list Router) (id : Z) : option (nat * Router) :=
  list_find (fun router => getID router = id) routers.

(** [getRouterByID(routers, id).addRoute(d, h, c)]. *)
Definition addRouteByID (routers : list Router) (id d h c : Z) : option (list Router) :=
  match getRouterByID routers id with
  | Some (i, router) => Some (<[i := addRoute router d h c]> routers)
  | None => None
  end.

(** ** Topology *)

Definition sameEnds (linkToRemove link : Link) : Prop :=
  (node1 link = node1 linkToRemove ∧ node2 link = node2 linkToRemove) ∨
  (node1 link = node2 linkToRemove ∧ node2 link = node1 linkToRemove).

Global Instance sameEnds_dec a b : Decision (sameEnds a b).
Proof. unfold sameEnds. apply _. Defined.

(** [std::remove_if] followed by [erase]: the links that do not match are
    kept, in their order. *)
Definition removeLink (links : list Link) (linkToRemove : Link) : list Link :=
  filter (fun link => ¬ sameEnds linkToRemove link) links.

(** The loop [for (const int &id : nodes) routers.emplace_back(id, nodes)]. *)
Definition emplaceRouters (routers : list Router) (nodes : gset Z) : list Router :=
  foldl (fun rs id => rs ++ [newRouter id nodes]) routers (in_order nodes).

(** One iteration of the loop that adds the direct link(s) to the routers
    involved. *)
Definition addDirect (routers : list Router) (link : Link) : option (list Router) :=
  match addRouteByID routers (node1 link) (node2 link) (node2 link) (pathCost link) with
  | Some routers' =>
      addRouteByID routers' (node2 link) (node1 link) (node1 link) (pathCost link)
  | None => None
  end.

(** Left fold of a step that may throw. *)
Fixpoint foldM {A B : Type} (f : A → B → option A) (a : A) (l : list B) : option A :=
  match l with
  | [] => Some a
  | x :: l' => match f a x with Some a' => foldM f a' l' | None => None end
  end.

Definition addDirectLinks (routers : list Router) (links : list Link)
  : option (list Router) :=
  foldM addDirect routers links.

(** [initTopology], after the topology file has been read into [records]
    (one record per line [node1 node2 pathCost]).  The three containers are
    the caller's, passed by reference. *)
Definition initTopology (records : list Link)
    (links : list Link) (nodes : gset Z) (routers : list Router)
  : option (list Link * gset Z * list Router) :=
  let links' := links ++ records in
  let nodes' := foldl (fun ns l => {[node2 l]} ∪ ({[node1 l]} ∪ ns)) nodes records in
  let routers' := emplaceRouters routers nodes' in
  match addDirectLinks routers' links' with
  | Some routers'' => Some (links', nodes', routers'')
  | None => None
  end.

(** [routers.clear()]. *)
Definition clear (routers : list Router) : list Router := [].

Definition applyChange (change : Link)
    (routers : list Router) (nodes : gset Z) (links : list Link)
  : option (list Router * gset Z * list Link) :=
  let nodes' := {[node2 change]} ∪ ({[node1 change]} ∪ nodes) in
  let links' :=
    if decide (pathCost change = -999) then removeLink links change
    else links ++ [mkLink (node1 change) (node2 change) (pathCost change)] in
  let routers' := emplaceRouters (clear routers) nodes' in
  match addDirectLinks routers' links' with
  | Some routers'' => Some (routers'', nodes', links')
  | None => None
  end.

(** ** Bellman-Ford with split horizon *)

(** The locals of the scan over [links] for one router and one destination,
    together with the router vector and the [updated] flag of the sweep. *)
Record Scan := mkScan {
  scanRouters : list Router;
  curPathCost : Z;
  newNextHop : Z;
  updated : bool
}.

(** [(link.node1 == router.getID()) ? link.node2
      : (link.node2 == router.getID()) ? link.node1 : -1]. *)
Definition neighbourOf (link : Link) (routerID : Z) : Z :=
  if decide (node1 link = routerID) then node2 link
  else if decide (node2 link = routerID) then node1 link
  else -1.

(** Body of [for (const auto &link : links)]; [i] is the position of
    [router] in the vector (the reference stays valid: the vector is never
    resized inside the loops). *)
Definition relaxLink (i : nat) (destinationID : Z) (s : Scan) (link : Link)
  : option Scan :=
  match scanRouters s !! i with
  | None => Some s
  | Some router =>
      let neighbourID := neighbourOf link (getID router) in
      if decide (neighbourID = -1 ∨ neighbourID = destinationID) then Some s
      else
        '(_, nb) ← getRouterByID (scanRouters s) neighbourID;
        if decide (getNextHop nb destinationID = getID router) then Some s
        else
          let NeighbourPathCost := getPathCost router neighbourID in
          '(_, nb') ← getRouterByID (scanRouters s) neighbourID;
          let NeighbourToDestPathCost := getPathCost nb' destinationID in
          if decide (int_add NeighbourPathCost NeighbourToDestPathCost < curPathCost s ∨
                     (int_add NeighbourPathCost NeighbourToDestPathCost = curPathCost s ∧
                      neighbourID < newNextHop s))
          then
            let curPathCost' := int_add NeighbourPathCost NeighbourToDestPathCost in
            Some {| scanRouters :=
                      <[i := addRoute router destinationID neighbourID curPathCost']>
                        (scanRouters s);
                    curPathCost := curPathCost';
                    newNextHop := neighbourID;
                    updated := true |}
          else Some s
  end.

(** Body of [for (const int &destinationID : nodes)]. *)
Definition scanDestination (i : nat) (links : list Link)
    (st : list Router * bool) (destinationID : Z) : option (list Router * bool) :=
  match st.1 !! i with
  | None => Some st
  | Some router =>
      s ← foldM (relaxLink i destinationID)
                (mkScan st.1 (getPathCost router destinationID) (-1) st.2) links;
      Some (scanRouters s, updated s)
  end.

(** Body of [for (auto &router : routers)]. *)
Definition scanRouter (nodes : gset Z) (links : list Link)
    (st : list Router * bool) (i : nat) : option (list Router * bool) :=
  foldM (scanDestination i links) st (in_order nodes).

(** One pass of the [while (updated)] loop, entered with [updated = false]. *)
Definition sweep (routers : list Router) (nodes : gset Z) (links : list Link)
  : option (list Router * bool) :=
  foldM (scanRouter nodes links) (routers, false) (seq 0 (length routers)).

(** Outcome of a loop run with fuel: it returned [a], it threw, or the fuel
    ran out first. *)
Inductive result (A : Type) : Type :=
| Done (a : A)
| Thrown
| OutOfFuel.
Arguments Done {A} a.
Arguments Thrown {A}.
Arguments OutOfFuel {A}.

(** [fuel] bounds the number of passes of [while (updated)]. *)
Fixpoint doBellmanFordAlg (fuel : nat)
    (routers : list Router) (nodes : gset Z) (links : list Link)
  : result (list Router) :=
  match fuel with
  | O => OutOfFuel
  | S fuel' =>
      match sweep routers nodes links with
      | None => Thrown
      | Some (routers', true) => doBellmanFordAlg fuel' routers' nodes links
      | Some (routers', false) => Done routers'
      end
  end.

(** ** Message forwarding *)

Definition nl : string := String (Ascii.ascii_of_nat 10) EmptyString.

(** [std::to_string] on an [int]. *)
Definition to_string (z : Z) : string := pretty z.

(** The loop [while (currentID != message.destinationID)]; [fuel] bounds the
    number of evaluations of its condition. *)
Fixpoint hopWalk (fuel : nat) (routers : list Router)
    (currentID destinationID : Z) (outMessage : string) : result string :=
  match fuel with
  | O => OutOfFuel
  | S fuel' =>
      if decide (currentID ≠ destinationID) then
        let outMessage' := outMessage +:+ to_string currentID +:+ " " in
        match getRouterByID routers currentID with
        | None => Thrown
        | Some (_, router) =>
            hopWalk fuel' routers (getNextHop router destinationID) destinationID
                    outMessage'
        end
      else Done outMessage
  end.

(** Body of [for (const auto &message : messages)]: the text appended to the
    output file for one message. *)
Definition sendMessage (fuel : nat) (routers : list Router) (msg : Message)
  : result string :=
  match getRouterByID routers (sourceID msg) with
  | None => Thrown
  | Some (_, src) =>
      let pathCost := getPathCost src (destinationID msg) in
      if decide (pathCost = 9999) then
        let outMessage :=
          "from " +:+ to_string (sourceID msg) +:+ " to " +:+
          to_string (destinationID msg) +:+
          " cost infinite hops unreachable message " +:+ message msg in
        Done (outMessage +:+ nl +:+ nl)
      else
        let outMessage :=
          "from " +:+ to_string (sourceID msg) +:+ " to " +:+
          to_string (destinationID msg) +:+
          " cost " +:+ to_string pathCost +:+ " hops " in
        match hopWalk fuel routers (sourceID msg) (destinationID msg) outMessage with
        | Done outMessage' => Done (outMessage' +:+ "message " +:+ message msg +:+ nl +:+ nl)
        | Thrown => Thrown
        | OutOfFuel => OutOfFuel
        end
  end.

(** [sendMessages]: the contents of the output file after the call, and
    whether the call returned. *)
Fixpoint sendMessages (fuel : nat) (outFile : string) (routers : list Router)
    (messages : list Message) : string * result unit :=
  match messages with
  | [] => (outFile, Done ())
  | msg :: messages' =>
      match sendMessage fuel routers msg with
      | Done text => sendMessages fuel (outFile +:+ text) routers messages'
      | Thrown => (outFile, Thrown)
      | OutOfFuel => (outFile, OutOfFuel)
      end
  end.

(** ** Invariants and measures used by the statements below *)

(** The entry the constructor of [RoutingTable] stores for destination [d]. *)
Definition seedEntry (myID d : Z) : Z * Z :=
  if decide (d = myID) then (d, 0) else (-1, 9999).

(** The scan state after [router] (at position [i]) adopts neighbour [N]
    with cost [c] for [destinationID]. *)
Definition adopt (i : nat) (destinationID : Z) (s : Scan) (router : Router) (N c : Z) : Scan :=
  {| scanRouters := <[i := addRoute router destinationID N c]> (scanRouters s);
     curPathCost := c; newNextHop := N; updated := true |}.

(** Largest link cost for which the sum of two path costs cannot overflow an
    [int]. *)
Definition costMax : Z := 1073741823.

(** Every link joins two known nodes. *)
Definition linkEndsIn (nodes : gset Z) (links : list Link) : Prop :=
  ∀ link, link ∈ links → node1 link ∈ nodes ∧ node2 link ∈ nodes.

Definition linkCostsIn (lo hi : Z) (links : list Link) : Prop :=
  ∀ link, link ∈ links → lo ≤ pathCost link ≤ hi.

(** The link costs for which no sum of two path costs overflows. *)
Definition costsWithin (links : list Link) : Prop := linkCostsIn 0 costMax links.

(** The link costs are [int]s. *)
Definition costsAreInts (links : list Link) : Prop := linkCostsIn int_min int_max links.

(** One router per node id, in ascending order of id, each with a table
    over exactly the node ids. *)
Definition wellFormed (nodes : gset Z) (routers : list Router) : Prop :=
  ID <$> routers = in_order nodes ∧
  Forall (fun r => dom (RT r) = nodes) routers.

(** Every path cost held by a router lies between [lo] and [hi]. *)
Definition costsIn (lo hi : Z) (routers : list Router) : Prop :=
  Forall (fun r => ∀ d e, RT r !! d = Some e → lo ≤ e.2 ≤ hi) routers.

Definition boundedCosts (routers : list Router) : Prop := costsIn 0 costMax routers.

Definition intRange (routers : list Router) : Prop := costsIn int_min int_max routers.

(** The router collection built for a node set and a link list by the two
    seeding loops shared by [initTopology] and [applyChange]. *)
Definition seeded (nodes : gset Z) (links : list Link) (routers : list Router) : Prop :=
  addDirectLinks (emplaceRouters [] nodes) links = Some routers.

(** What every scan over [links] maintains: the collection stays well
    formed with costs in range, and [curPathCost] is the cost the scanning
    router's table holds for the destination. *)
Definition scanBase (nodes : gset Z) (i : nat) (d : Z) (s : Scan) : Prop :=
  wellFormed nodes (scanRouters s) ∧ boundedCosts (scanRouters s) ∧
  ∀ router, scanRouters s !! i = Some router → curPathCost s = getPathCost router d.

(** The same with the path costs only known to be [int]s. *)
Definition scanRange (nodes : gset Z) (i : nat) (d : Z) (s : Scan) : Prop :=
  wellFormed nodes (scanRouters s) ∧ intRange (scanRouters s) ∧
  ∀ router, scanRouters s !! i = Some router → curPathCost s = getPathCost router d.

(** Sum of the path costs a router holds for the destinations [ds]. *)
Definition tableCost (ds : list Z) (r : Router) : Z :=
  foldr (fun d acc => getPathCost r d + acc) 0 ds.

(** Sum of all path costs held by all routers: the quantity every strict
    improvement of a route decreases. *)
Definition totalCost (nodes : gset Z) (routers : list Router) : Z :=
  foldr (fun r acc => tableCost (in_order nodes) r + acc) 0 routers.

(** The least value the total cost can take: every one of the n * n path
    costs at [int_min]. *)
Definition floorCost (nodes : gset Z) : Z :=
  Z.of_nat (length (in_order nodes)) * (Z.of_nat (length (in_order nodes)) * int_min).

(** State of a sweep that started with total cost at most [m0]: whenever
    [updated] has been raised, the total cost has dropped below [m0]. *)
Definition sweepMeasure (nodes : gset Z) (m0 : Z) (st : list Router * bool) : Prop :=
  wellFormed nodes st.1 ∧ intRange st.1 ∧
  totalCost nodes st.1 ≤ m0 ∧ (st.2 = true → totalCost nodes st.1 < m0).

Definition scanMeasure (nodes : gset Z) (m0 : Z) (i : nat) (d : Z) (s : Scan) : Prop :=
  scanRange nodes i d s ∧
  totalCost nodes (scanRouters s) ≤ m0 ∧
  (updated s = true → totalCost nodes (scanRouters s) < m0) ∧
  (newNextHop s ≠ -1 → totalCost nodes (scanRouters s) < m0).

(** The route a router holds to itself is either the one its constructor
    stored, or an equal-cost route through a neighbour [h] whose id is below
    -1 and whose own route back has cost 0 and does not come back directly:
    such a route is re-adopted by the tie-break of every later sweep. *)
Definition selfRouteOK (links : list Link) (routers : list Router) (r : Router) : Prop :=
  RT r !! ID r = Some (ID r, 0) ∨
  ∃ h link j nb,
    RT r !! ID r = Some (h, 0) ∧ h < -1 ∧ h ≠ ID r ∧
    link ∈ links ∧ neighbourOf link (ID r) = h ∧
    getRouterByID routers h = Some (j, nb) ∧
    getNextHop nb (ID r) ≠ ID r ∧
    getPathCost r h = 0 ∧ getPathCost nb (ID r) = 0.

Definition selfRoutes (links : list Link) (routers : list Router) : Prop :=
  ∀ i r, routers !! i = Some r → selfRouteOK links routers r.

Definition sweepSelf (nodes : gset Z) (links : list Link) (st : list Router * bool) : Prop :=
  wellFormed nodes st.1 ∧ boundedCosts st.1 ∧ selfRoutes links st.1.

Definition scanSelf (nodes : gset Z) (links : list Link) (i : nat) (d : Z) (s : Scan) : Prop :=
  scanBase nodes i d s ∧ selfRoutes links (scanRouters s) ∧
  ∀ router, scanRouters s !! i = Some router → d = ID router → newNextHop s ≤ -1.

(** No link joins a node to itself. *)
Definition noSelfLinks (links : list Link) : Prop :=
  ∀ link, link ∈ links → node1 link ≠ node2 link.

(** The candidate cost as the specification words it: the cost of the
    link between the router and its neighbour, plus the neighbour's current
    cost to the destination. *)
Definition specCandidate (link : Link) (nb : Router) (d : Z) : Z :=
  int_add (pathCost link) (getPathCost nb d).

(** The routers seeded for a node set and a link list ([[]] if seeding
    throws). *)
Definition seedRouters (nodes : gset Z) (links : list Link) : list Router :=
  default [] (addDirectLinks (emplaceRouters [] nodes) links).

(** ** Example topologies *)

(** The triangle of the specification's example scenario, and the chain
    1 - 2 - 3 over the same nodes. *)
Definition triangleTopology : list Link := [mkLink 1 2 1; mkLink 2 3 1; mkLink 1 3 5].
Definition triangleNodes : gset Z := {[1; 2; 3]}.
Definition lineTopology : list Link := [mkLink 1 2 1; mkLink 2 3 1].

(** The triangle with a fourth node behind node 3. *)
Definition fourNodeTopology : list Link :=
  [mkLink 1 2 1; mkLink 2 3 1; mkLink 1 3 5; mkLink 3 4 1].

(** Topologies with a node id below the no-hop sentinel -1. *)
Definition negIdTopology : list Link := [mkLink 1 (-5) 1; mkLink (-5) 2 1].
Definition tieTopology : list Link :=
  [mkLink (-7) 3 1; mkLink 3 2 1; mkLink (-7) (-5) 1; mkLink (-5) 4 0; mkLink 4 2 1].

(** A link from a node to itself; a link of negative cost; a node whose id
    is the sentinel -1 itself. *)
Definition selfLinkTopology : list Link := [mkLink 1 1 5].
Definition negCostTopology : list Link := [mkLink 0 4 0; mkLink 0 (-1) (-1); mkLink (-1) 4 2].
Definition withSentinelNode : list Link := [mkLink 1 (-1) 1].

(** A link cost close to the largest [int]. *)
Definition overflowTopology : list Link := [mkLink 4 0 1; mkLink 5 4 2147483646].

(** The conditions on a topology are decidable, so that they can be checked
    by computation on a concrete one. *)
Global Instance linkEndsIn_dec nodes links : Decision (linkEndsIn nodes links).
Proof.
  refine (cast_if (decide (Forall (fun link => node1 link ∈ nodes ∧ node2 link ∈ nodes) links)));
    unfold linkEndsIn; by rewrite Forall_forall in *.
Defined.

Global Instance linkCostsIn_dec lo hi links : Decision (linkCostsIn lo hi links).
Proof.
  refine (cast_if (decide (Forall (fun link => lo ≤ pathCost link ≤ hi) links)));
    unfold linkCostsIn; by rewrite Forall_forall in *.
Defined.

Global Instance costsWithin_dec links : Decision (costsWithin links).
Proof. unfold costsWithin. apply _. Defined.

Global Instance costsAreInts_dec links : Decision (costsAreInts links).
Proof. unfold costsAreInts. apply _. Defined.

Global Instance noSelfLinks_dec links : Decision (noSelfLinks links).
Proof.
  refine (cast_if (decide (Forall (fun link => node1 link ≠ node2 link) links)));
    unfold noSelfLinks; by rewrite Forall_forall in *.
Defined.

(** ** The forwarding-table report *)

(** The entries of a [std::map] in ascending order of key: what the
    range-for over [router.getRoutingTable()] visits. *)
Definition tableEntries (table : gmap Z (Z * Z)) : list (Z * (Z * Z)) :=
  omap (fun destination => (fun entry => (destination, entry)) <$> table !! destination)
       (in_order (dom table)).

(** [outFile << destination << " " << nextHop << " " << pathCost << "\n"]. *)
Definition writeEntry (outFile : string) (entry : Z * (Z * Z)) : string :=
  let destination := entry.1 in
  let nextHop := entry.2.1 in
  let pathCost := entry.2.2 in
  outFile +:+ to_string destination +:+ " " +:+ to_string nextHop +:+ " " +:+
  to_string pathCost +:+ nl.

(** Body of [for (const auto &router : routers)] in [writeFT]. *)
Definition writeRouter (outFile : string) (router : Router) : string :=
  foldl writeEntry outFile (tableEntries (getRoutingTable router)) +:+ nl.

(** [writeFT]: the contents of the output file, opened for appending, after
    the call. *)
Definition writeFT (outFile : string) (routers : list Router) : string :=
  foldl writeRouter outFile routers.

(** Concatenation of a list of texts. *)
Definition concatStrings (texts : list string) : string :=
  foldr String.append EmptyString texts.

(** The line [writeFT] prints for destination [d] of router [r]. *)
Definition tableLine (r : Router) (d : Z) : string :=
  to_string d +:+ " " +:+ to_string (getNextHop r d) +:+ " " +:+
  to_string (getPathCost r d) +:+ nl.

(** ** The text of a message line *)

(** [original.find_first_not_of(" ")]: the position of the first character
    that is not a space; [None] is [std::string::npos]. *)
Fixpoint find_first_not_of_space (original : string) : option nat :=
  match original with
  | EmptyString => None
  | String c rest =>
      if decide (c = Ascii.Space) then S <$> find_first_not_of_space rest else Some 0%nat
  end.

(** [s] without its first [pos] characters. *)
Fixpoint dropChars (pos : nat) (s : string) : string :=
  match pos, s with
  | S pos', String _ rest => dropChars pos' rest
  | _, _ => s
  end.

(** [original.substr(pos)]: the characters from position [pos] on; it
    throws [std::out_of_range] when [pos] exceeds the length, as [npos]
    does. *)
Definition substr (original : string) (pos : option nat) : option string :=
  match pos with
  | Some p =>
      if decide (p ≤ String.length original)%nat then Some (dropChars p original) else None
  | None => None
  end.

(** [message = original.substr(original.find_first_not_of(" "))] in
    [readMessagesFile], where [original] is the rest of the line after the
    two ids. *)
Definition messageText (original : string) : option string :=
  substr original (find_first_not_of_space original).

(** [n] spaces. *)
Fixpoint spaces (n : nat) : string :=
  match n with
  | O => EmptyString
  | S n' => String Ascii.Space (spaces n')
  end.

(** ** The driver *)

(** Body of [for (const auto &change : changes)] in [dvr].  The state is
    made of the locals [links], [nodes] and [routers] of [dvr] and of the
    contents of the output file. *)
Definition dvrChange (fuel : nat) (messages : list Message)
    (st : list Link * gset Z * list Router * string) (change : Link)
  : result (list Link * gset Z * list Router * string) :=
  let '(links, nodes, routers, outFile) := st in
  match applyChange change routers nodes links with
  | None => Thrown
  | Some (routers, nodes, links) =>
      match doBellmanFordAlg fuel routers nodes links with
      | Done routers =>
          match sendMessages fuel (writeFT outFile routers) routers messages with
          | (outFile, Done _) => Done (links, nodes, routers, outFile)
          | (_, Thrown) => Thrown
          | (_, OutOfFuel) => OutOfFuel
          end
      | Thrown => Thrown
      | OutOfFuel => OutOfFuel
      end
  end.

Fixpoint dvrChanges (fuel : nat) (messages : list Message)
    (st : list Link * gset Z * list Router * string) (changes : list Link)
  : result (list Link * gset Z * list Router * string) :=
  match changes with
  | [] => Done st
  | change :: changes' =>
      match dvrChange fuel messages st change with
      | Done st' => dvrChanges fuel messages st' changes'
      | Thrown => Thrown
      | OutOfFuel => OutOfFuel
      end
  end.

(** [dvr], once the three input files have been opened and read: [records]
    are the lines of the topology file, [messages] what [readMessagesFile]
    returns and [changes] what [readChangesFile] returns.  The output file
    is truncated first; the result is the state [dvr] returns in: its locals
    and the contents of the output file.  [fuel] bounds each run of the two
    [while] loops. *)
Definition dvr (fuel : nat) (records : list Link) (messages : list Message)
    (changes : list Link)
  : result (list Link * gset Z * list Router * string) :=
  match initTopology records [] ∅ [] with
  | None => Thrown
  | Some (links, nodes, routers) =>
      match doBellmanFordAlg fuel routers nodes links with
      | Done routers =>
          match sendMessages fuel (writeFT EmptyString routers) routers messages with
          | (outFile, Done _) =>
              dvrChanges fuel messages (links, nodes, routers, outFile) changes
          | (_, Thrown) => Thrown
          | (_, OutOfFuel) => OutOfFuel
          end
      | Thrown => Thrown
      | OutOfFuel => OutOfFuel
      end
  end.

(** ** Further invariants of the routing state *)

(** No two distinct routers name each other as next hop for the same
    destination. *)
Definition noTwoLoop (routers : list Router) : Prop :=
  ∀ r n d, r ∈ routers → n ∈ routers → ID r ≠ ID n →
    ¬ (getNextHop r d = ID n ∧ getNextHop n d = ID r).

(** The cost of the last link of the list that joins [a] and [b], in
    either orientation. *)
Definition lastLinkCost (links : list Link) (a b : Z) : option Z :=
  pathCost <$> last (filter (sameEnds (mkLink a b 0)) links).

(** The routers a message for [d] visits from [current] on, the
    destination excluded: each one hands the message to the next hop its
    table holds for [d]. *)
Inductive hopPath (routers : list Router) (d : Z) : Z → list Z → Prop :=
| hopPath_arrived : hopPath routers d d []
| hopPath_forward current j router hops :
    current ≠ d →
    getRouterByID routers current = Some (j, router) →
    hopPath routers d (getNextHop router d) hops →
    hopPath routers d current (current :: hops).

(** Every path cost lies between 0 and the marker 9999 and is at least 1
    for another node; and a route of cost below 9999 to another node leads
    either straight to the destination or to a router that holds a strictly
    cheaper route to it. *)
Definition routesDescend (routers : list Router) : Prop :=
  ∀ r d h c, r ∈ routers → RT r !! d = Some (h, c) →
    0 ≤ c ≤ 9999 ∧
    (ID r ≠ d → 1 ≤ c) ∧
    (ID r ≠ d → c < 9999 →
       h = d ∨ ∃ j nb, getRouterByID routers h = Some (j, nb) ∧ getPathCost nb d < c).

(** [walk links a d t]: a walk from node [a] to node [d] along links of the
    list, of total cost [t]; between two nodes joined by several links, the
    cost counted is that of the last one in the list, the one seeding
    keeps. *)
Inductive walk (links : list Link) : Z → Z → Z → Prop :=
| walk_here a : walk links a a 0
| walk_hop a b d w t :
    lastLinkCost links a b = Some w → walk links b d t → walk links a d (w + t).

(** Every path cost below the marker 9999 is the cost of a walk. *)
Definition costsRealised (links : list Link) (routers : list Router) : Prop :=
  ∀ r d h c, r ∈ routers → RT r !! d = Some (h, c) → c < 9999 → walk links (ID r) d c.

(** ** Inputs of the driver *)

(** Inputs on which [dvr] is shown to return: node ids not below -1, in
    the topology links between two distinct nodes at a cost between 1 and
    9998, changes that remove a link or add such a link, and messages between
    nodes of the topology file. *)
Definition idsFrom (lo : Z) (links : list Link) : Prop :=
  ∀ link, link ∈ links → lo ≤ node1 link ∧ lo ≤ node2 link.

Definition plainChange (change : Link) : Prop :=
  -1 ≤ node1 change ∧ -1 ≤ node2 change ∧
  (pathCost change = -999 ∨
   (node1 change ≠ node2 change ∧ 1 ≤ pathCost change ≤ 9998)).

Definition knownNode (records : list Link) (n : Z) : Prop :=
  Exists (fun link => n = node1 link ∨ n = node2 link) records.

Definition plainState (nodes : gset Z) (links : list Link) (messages : list Message) : Prop :=
  linkEndsIn nodes links ∧ linkCostsIn 1 9998 links ∧ noSelfLinks links ∧
  set_Forall (fun n => -1 ≤ n) nodes ∧
  Forall (fun msg => sourceID msg ∈ nodes ∧ destinationID msg ∈ nodes) messages.

Global Instance idsFrom_dec lo links : Decision (idsFrom lo links).
Proof.
  refine (cast_if (decide (Forall (fun link => lo ≤ node1 link ∧ lo ≤ node2 link) links)));
    unfold idsFrom; by rewrite Forall_forall in *.
Defined.

Global Instance plainChange_dec change : Decision (plainChange change).
Proof. unfold plainChange. apply _. Defined.

Global Instance knownNode_dec records n : Decision (knownNode records n).
Proof. unfold knownNode. apply _. Defined.

(** A link so costly that a route through a neighbour without any route
    looks cheaper. *)
Definition costlyLinkTopology : list Link := [mkLink 1 2 20000; mkLink 1 3 1].

(** * Properties *)

(** ** Machine integers *)

Lemma wrap_range z : int_min ≤ wrap z ≤ int_max.
Proof.
  unfold int_min, int_max, wrap.
  pose proof (Z.mod_pos_bound (z + 2147483648) 4294967296). lia.
Qed.

Lemma wrap_id z : int_min ≤ z ≤ int_max → wrap z = z.
Proof.
  unfold int_min, int_max, wrap. intros Hz.
  rewrite Z.mod_small by lia. lia.
Qed.

Lemma int_add_exact a b : int_min ≤ a + b ≤ int_max → int_add a b = a + b.
Proof. apply wrap_id. Qed.

(** ** Ordered iteration over the node set *)

Lemma in_order_perm nodes : in_order nodes ≡ₚ elements nodes.
Proof. apply merge_sort_Permutation. Qed.

Lemma elem_of_in_order nodes x : x ∈ in_order nodes ↔ x ∈ nodes.
Proof. rewrite in_order_perm. apply elem_of_elements. Qed.

Lemma NoDup_in_order nodes : NoDup (in_order nodes).
Proof. rewrite in_order_perm. apply NoDup_elements. Qed.

Lemma in_order_sorted nodes : Sorted Z.le (in_order nodes).
Proof. apply (Sorted_merge_sort Z.le). Qed.

(** ** Folds that may throw *)

Lemma foldM_app {A B} (f : A → B → option A) a l1 l2 :
  foldM f a (l1 ++ l2) = foldM f a l1 ≫= fun a' => foldM f a' l2.
Proof.
  revert a. induction l1 as [|x l1 IH]; intros a; simpl; [done|].
  destruct (f a x); simpl; [apply IH|done].
Qed.

(** Invariant rule: a property kept by every step that returns is kept by
    the fold. *)
Lemma foldM_inv {A B} (P : A → Prop) (f : A → B → option A) l :
  (∀ a x a', x ∈ l → P a → f a x = Some a' → P a') →
  ∀ a a', P a → foldM f a l = Some a' → P a'.
Proof.
  induction l as [|x l IH]; intros Hstep a a' Ha; simpl.
  - by intros [= <-].
  - destruct (f a x) as [a1|] eqn:Hf; [|done].
    apply IH; [|by eapply Hstep; [apply list_elem_of_here| |]].
    intros ??? Hin. apply Hstep. by apply list_elem_of_further.
Qed.

(** Progress rule: if every step returns on states satisfying the
    invariant, so does the fold. *)
Lemma foldM_total {A B} (P : A → Prop) (f : A → B → option A) l :
  (∀ a x, x ∈ l → P a → ∃ a', f a x = Some a' ∧ P a') →
  ∀ a, P a → ∃ a', foldM f a l = Some a' ∧ P a'.
Proof.
  induction l as [|x l IH]; intros Hstep a Ha; simpl; [by eauto|].
  destruct (Hstep a x) as (a1 & -> & Ha1); [apply list_elem_of_here|done|].
  apply IH; [|done]. intros ?? Hin. apply Hstep. by apply list_elem_of_further.
Qed.

(** ** Routing tables and routers *)

Lemma make_lookup myID nodes d :
  RoutingTable.make myID nodes !! d =
    if decide (d ∈ nodes) then Some (seedEntry myID d) else None.
Proof.
  unfold RoutingTable.make.
  assert (∀ l (t : gmap Z (Z * Z)),
    foldl (fun (table : gmap Z (Z * Z)) id =>
             if decide (id = myID) then <[id := (id, 0)]> table
             else <[id := (-1, 9999)]> table) t l !! d =
    if decide (d ∈ l) then Some (seedEntry myID d) else t !! d) as Hgen.
  { induction l as [|a l IH]; intros t; simpl.
    - destruct (decide (d ∈ [])) as [Hin|]; [by apply elem_of_nil in Hin|done].
    - rewrite IH. destruct (decide (d ∈ a :: l)) as [Hc|Hc];
        destruct (decide (d ∈ l)) as [Hl|Hl]; try done.
      + apply elem_of_cons in Hc as [->|?]; [|done].
        unfold seedEntry. destruct (decide (a = myID)); by rewrite lookup_insert_eq.
      + destruct Hc. by apply list_elem_of_further.
      + assert (a ≠ d) by (intros ->; apply Hc, list_elem_of_here).
        destruct (decide (a = myID)); by rewrite lookup_insert_ne. }
  rewrite Hgen, lookup_empty.
  destruct (decide (d ∈ in_order nodes)) as [Hin|Hin];
    rewrite elem_of_in_order in Hin;
    destruct (decide (d ∈ nodes)); done.
Qed.

Lemma make_dom myID nodes : dom (RoutingTable.make myID nodes) = nodes.
Proof.
  apply set_eq. intros d. rewrite elem_of_dom, make_lookup.
  case_decide; [|by split; [intros []|]]. split; [done|by eauto].
Qed.

Lemma emplaceRouters_eq routers nodes :
  emplaceRouters routers nodes =
    routers ++ ((fun id => newRouter id nodes) <$> in_order nodes).
Proof.
  unfold emplaceRouters. generalize (in_order nodes) as l. intros l.
  revert routers. induction l as [|a l IH]; intros routers; simpl.
  - by rewrite app_nil_r.
  - rewrite IH. by rewrite <- app_assoc.
Qed.

Lemma getRouterByID_Some routers id i r :
  getRouterByID routers id = Some (i, r) ↔
    routers !! i = Some r ∧ getID r = id ∧
    ∀ j r', routers !! j = Some r' → (j < i)%nat → getID r' ≠ id.
Proof. unfold getRouterByID. by rewrite list_find_Some. Qed.

Lemma getRouterByID_None routers id :
  getRouterByID routers id = None ↔ ∀ r, r ∈ routers → getID r ≠ id.
Proof.
  unfold getRouterByID. rewrite list_find_None, Forall_forall. done.
Qed.

Lemma getRouterByID_is_Some routers id :
  is_Some (getRouterByID routers id) ↔ id ∈ (ID <$> routers).
Proof.
  rewrite list_elem_of_fmap. split.
  - intros [[i r] H]. apply getRouterByID_Some in H as (Hi & Hid & _).
    exists r. split; [done|]. by eapply list_elem_of_lookup_2.
  - intros (r & -> & Hr).
    destruct (getRouterByID routers (ID r)) as [p|] eqn:E; [by eauto|].
    rewrite getRouterByID_None in E. by destruct (E r Hr).
Qed.

(** ** The effect of one link on the scan *)

Lemma relaxLink_cases i d s link s' :
  relaxLink i d s link = Some s' →
  s' = s ∨
  ∃ router j nb,
    scanRouters s !! i = Some router ∧
    neighbourOf link (getID router) ≠ -1 ∧
    neighbourOf link (getID router) ≠ d ∧
    getRouterByID (scanRouters s) (neighbourOf link (getID router)) = Some (j, nb) ∧
    getNextHop nb d ≠ getID router ∧
    (int_add (getPathCost router (neighbourOf link (getID router))) (getPathCost nb d)
       < curPathCost s ∨
     (int_add (getPathCost router (neighbourOf link (getID router))) (getPathCost nb d)
        = curPathCost s ∧
      neighbourOf link (getID router) < newNextHop s)) ∧
    s' = adopt i d s router (neighbourOf link (getID router))
           (int_add (getPathCost router (neighbourOf link (getID router)))
                    (getPathCost nb d)).
Proof.
  unfold relaxLink. intros H.
  destruct (scanRouters s !! i) as [router|] eqn:Hi; [|left; congruence].
  cbv zeta in H.
  destruct (decide (neighbourOf link (getID router) = -1 ∨
                    neighbourOf link (getID router) = d)) as [Hn|Hn];
    [left; congruence|].
  destruct (getRouterByID (scanRouters s) (neighbourOf link (getID router)))
    as [[j nb]|] eqn:Hnb; simpl in H; [|done].
  destruct (decide (getNextHop nb d = getID router)); [left; congruence|].
  simpl in H.
  case_decide as Hc; [|left; congruence].
  right. exists router, j, nb. injection H as <-.
  repeat split; try done; tauto.
Qed.

(** ** Sweeps that update nothing *)

(** A fold whose steps either raise a flag or leave the state alone: if the
    flag is down at the end, the state never moved. *)
Lemma foldM_quiet {A B} (flag : A → bool) (f : A → B → option A) l :
  (∀ a x a', f a x = Some a' → flag a' = false → a' = a) →
  ∀ a a', foldM f a l = Some a' → flag a' = false → a' = a.
Proof.
  intros Hstep. induction l as [|x l IH]; intros a a'; simpl.
  - by intros [= <-].
  - destruct (f a x) as [a1|] eqn:Hf; [|done]. intros Hfold Hflag.
    pose proof (IH _ _ Hfold Hflag) as ->. eauto.
Qed.

Lemma foldM_quiet_steps {A B} (flag : A → bool) (f : A → B → option A) l :
  (∀ a x a', f a x = Some a' → flag a' = false → a' = a) →
  ∀ a a', foldM f a l = Some a' → flag a' = false →
  ∀ x, x ∈ l → f a x = Some a.
Proof.
  intros Hstep. induction l as [|y l IH]; intros a a' Hfold Hflag x Hx.
  - by apply elem_of_nil in Hx.
  - simpl in Hfold. destruct (f a y) as [a1|] eqn:Hf; [|done].
    pose proof (foldM_quiet flag f l Hstep _ _ Hfold Hflag) as ->.
    pose proof (Hstep _ _ _ Hf Hflag) as ->.
    apply elem_of_cons in Hx as [->|Hx]; [done|]. by eapply IH.
Qed.

Lemma relaxLink_quiet i d s link s' :
  relaxLink i d s link = Some s' → updated s' = false → s' = s.
Proof.
  intros H Hu. apply relaxLink_cases in H as [->|H]; [done|].
  destruct H as (router & j & nb & _ & _ & _ & _ & _ & _ & ->). done.
Qed.

Lemma scanDestination_quiet i links st d st' :
  scanDestination i links st d = Some st' → st'.2 = false → st' = st.
Proof.
  unfold scanDestination. destruct st as [rs u]; simpl.
  destruct (rs !! i) as [router|]; [|by intros [= <-]].
  destruct (foldM _ _ links) as [s|] eqn:Hfold; simpl; [|done].
  intros [= <-]; simpl. intros Hu.
  apply (foldM_quiet updated) in Hfold as ->; [done| |done].
  intros ???. apply relaxLink_quiet.
Qed.

Lemma scanRouter_quiet nodes links st i st' :
  scanRouter nodes links st i = Some st' → st'.2 = false → st' = st.
Proof.
  unfold scanRouter. apply (foldM_quiet snd).
  intros ???. apply scanDestination_quiet.
Qed.

Lemma sweep_quiet routers nodes links routers' :
  sweep routers nodes links = Some (routers', false) → routers' = routers.
Proof.
  unfold sweep. intros H.
  apply (foldM_quiet snd) in H; [congruence| |done].
  intros ???. apply scanRouter_quiet.
Qed.

(** The state returned by [doBellmanFordAlg] is a fixed point of the sweep. *)
Lemma doBellmanFordAlg_fixpoint fuel routers nodes links routers' :
  doBellmanFordAlg fuel routers nodes links = Done routers' →
  sweep routers' nodes links = Some (routers', false).
Proof.
  revert routers. induction fuel as [|fuel IH]; intros routers; simpl; [done|].
  destruct (sweep routers nodes links) as [[rs [|]]|] eqn:Hs; [by apply IH| |done].
  intros [= <-]. by rewrite (sweep_quiet _ _ _ _ Hs) in Hs |- *.
Qed.

(** C6 — Idempotence of convergence: when [doBellmanFordAlg] has returned
    the router collection [routers'], running it again on [routers'] with
    the same node set and link list returns [routers'] itself after a single
    sweep, so no routing-table entry of any router changes. *)
Theorem doBellmanFordAlg_idempotent fuel routers nodes links routers' fuel' :
  doBellmanFordAlg fuel routers nodes links = Done routers' →
  doBellmanFordAlg (S fuel') routers' nodes links = Done routers'.
Proof.
  intros H. apply doBellmanFordAlg_fixpoint in H. simpl. by rewrite H.
Qed.

(** ** Router lookup under in-place updates *)

Lemma getRouterByID_insert routers i r r' id :
  routers !! i = Some r → ID r' = ID r →
  getRouterByID (<[i := r']> routers) id =
    (fun p : nat * Router => (p.1, if decide (p.1 = i) then r' else p.2))
      <$> getRouterByID routers id.
Proof.
  unfold getRouterByID, getID.
  revert i. induction routers as [|x rs IH]; intros i Hi Hid; [done|].
  destruct i as [|i]; simpl in *.
  - injection Hi as ->. rewrite Hid.
    destruct (decide (ID r = id)); simpl; [done|].
    destruct (list_find _ rs) as [[j y]|]; simpl; done.
  - destruct (decide (ID x = id)); simpl; [done|].
    rewrite (IH i Hi Hid).
    destruct (list_find _ rs) as [[j y]|]; simpl; [|done].
    destruct (decide (j = i)); destruct (decide (S j = S i)); (done || lia).
Qed.

Lemma addRoute_ID r d h c : ID (addRoute r d h c) = ID r.
Proof. done. Qed.

Lemma getPathCost_addRoute r d h c d' :
  getPathCost (addRoute r d h c) d' = if decide (d' = d) then c else getPathCost r d'.
Proof.
  unfold getPathCost, addRoute, RoutingTable.getPathCost, RoutingTable.addRoute; simpl.
  destruct (decide (d' = d)) as [->|Hne].
  - by rewrite lookup_insert_eq.
  - by rewrite lookup_insert_ne.
Qed.

Lemma getNextHop_addRoute r d h c d' :
  getNextHop (addRoute r d h c) d' = if decide (d' = d) then h else getNextHop r d'.
Proof.
  unfold getNextHop, addRoute, RoutingTable.getNextHop, RoutingTable.addRoute; simpl.
  destruct (decide (d' = d)) as [->|Hne].
  - by rewrite lookup_insert_eq.
  - by rewrite lookup_insert_ne.
Qed.

(** ** Well-formed router collections *)

Section WellFormed.
Context (nodes : gset Z).

Lemma wellFormed_NoDup routers : wellFormed nodes routers → NoDup (ID <$> routers).
Proof. intros [-> _]. apply NoDup_in_order. Qed.

Lemma wellFormed_getRouterByID routers j x :
  wellFormed nodes routers → routers !! j = Some x →
  getRouterByID routers (ID x) = Some (j, x).
Proof.
  intros Hwf Hj. apply getRouterByID_Some. repeat split; [done|].
  intros k y Hk Hlt Hid. unfold getID in Hid.
  assert (k = j); [|lia].
  eapply NoDup_lookup; [by apply wellFormed_NoDup| |].
  - rewrite list_lookup_fmap, Hk. done.
  - rewrite list_lookup_fmap, Hj. simpl. by rewrite Hid.
Qed.

Lemma wellFormed_router_of_node routers n :
  wellFormed nodes routers → n ∈ nodes →
  ∃ j x, getRouterByID routers n = Some (j, x) ∧ routers !! j = Some x ∧ ID x = n.
Proof.
  intros Hwf Hn.
  destruct (getRouterByID routers n) as [[j x]|] eqn:E.
  - apply getRouterByID_Some in E as (? & ? & _). by exists j, x.
  - assert (is_Some (getRouterByID routers n)) as [? ?]; [|congruence].
    apply getRouterByID_is_Some. destruct Hwf as [-> _].
    by apply elem_of_in_order.
Qed.

Lemma wellFormed_ID_in routers j x :
  wellFormed nodes routers → routers !! j = Some x → ID x ∈ nodes.
Proof.
  intros [Hids _] Hj. apply elem_of_in_order. rewrite <- Hids.
  apply list_elem_of_fmap. exists x. split; [done|]. by eapply list_elem_of_lookup_2.
Qed.

Lemma wellFormed_entry routers j x d :
  wellFormed nodes routers → routers !! j = Some x → d ∈ nodes →
  ∃ e, RT x !! d = Some e.
Proof.
  intros [_ Hdom] Hj Hd.
  pose proof (Forall_lookup_1 _ _ _ _ Hdom Hj) as Hx. simpl in Hx.
  apply elem_of_dom. by rewrite Hx.
Qed.

Lemma wellFormed_insert routers i r d h c :
  wellFormed nodes routers → routers !! i = Some r → d ∈ nodes →
  wellFormed nodes (<[i := addRoute r d h c]> routers).
Proof.
  intros [Hids Hdom] Hi Hd. split.
  - rewrite list_fmap_insert, addRoute_ID. rewrite list_insert_id; [done|].
    by rewrite list_lookup_fmap, Hi.
  - apply Forall_insert; [done|]. simpl.
    pose proof (Forall_lookup_1 _ _ _ _ Hdom Hi) as Hx. simpl in Hx.
    unfold RoutingTable.addRoute. rewrite dom_insert_L, Hx.
    apply subseteq_union_1_L. by apply singleton_subseteq_l.
Qed.

Lemma costsIn_insert lo hi routers i r d h c :
  costsIn lo hi routers → routers !! i = Some r → lo ≤ c ≤ hi →
  costsIn lo hi (<[i := addRoute r d h c]> routers).
Proof.
  intros Hb Hi Hc. apply Forall_insert; [done|]. simpl.
  pose proof (Forall_lookup_1 _ _ _ _ Hb Hi) as Hx. simpl in Hx.
  intros d' e. unfold RoutingTable.addRoute.
  destruct (decide (d' = d)) as [->|Hne].
  - rewrite lookup_insert_eq. by intros [= <-].
  - rewrite lookup_insert_ne by done. apply Hx.
Qed.

Lemma costsIn_getPathCost lo hi routers j x d :
  wellFormed nodes routers → costsIn lo hi routers →
  routers !! j = Some x → d ∈ nodes → lo ≤ getPathCost x d ≤ hi.
Proof.
  intros Hwf Hb Hj Hd.
  destruct (wellFormed_entry _ _ _ _ Hwf Hj Hd) as [e He].
  unfold getPathCost, RoutingTable.getPathCost. rewrite He.
  by apply (Forall_lookup_1 _ _ _ _ Hb Hj d).
Qed.

Lemma boundedCosts_insert routers i r d h c :
  boundedCosts routers → routers !! i = Some r → 0 ≤ c ≤ costMax →
  boundedCosts (<[i := addRoute r d h c]> routers).
Proof. apply costsIn_insert. Qed.

Lemma bounded_getPathCost routers j x d :
  wellFormed nodes routers → boundedCosts routers →
  routers !! j = Some x → d ∈ nodes → 0 ≤ getPathCost x d ≤ costMax.
Proof. apply costsIn_getPathCost. Qed.

Lemma boundedCosts_intRange routers : boundedCosts routers → intRange routers.
Proof.
  intros Hb. eapply Forall_impl; [exact Hb|].
  intros r Hr d e He. specialize (Hr d e He).
  unfold int_min, int_max, costMax in *. lia.
Qed.

End WellFormed.

(** ** Seeding *)

Lemma emplaceRouters_wellFormed nodes : wellFormed nodes (emplaceRouters [] nodes).
Proof.
  rewrite emplaceRouters_eq; simpl. split.
  - rewrite <- list_fmap_compose. apply list_fmap_id.
  - apply Forall_fmap, Forall_forall. intros id _. simpl. apply make_dom.
Qed.

Section SeedingCosts.
Context (nodes : gset Z) (lo hi : Z).
Hypothesis Hlo : lo ≤ 0.
Hypothesis Hhi : 9999 ≤ hi.

Lemma emplaceRouters_costsIn : costsIn lo hi (emplaceRouters [] nodes).
Proof.
rewrite emplaceRouters_eq; simpl.
apply Forall_fmap, Forall_forall. intros id _ d e. simpl.
rewrite make_lookup. case_decide; [|done]. intros [= <-].
unfold seedEntry. case_decide; simpl; lia.
Qed.

Lemma addRouteByID_total routers id d c :
wellFormed nodes routers → costsIn lo hi routers →
id ∈ nodes → d ∈ nodes → lo ≤ c ≤ hi →
∃ routers', addRouteByID routers id d d c = Some routers' ∧
            wellFormed nodes routers' ∧ costsIn lo hi routers'.
Proof.
intros Hwf Hb Hid Hd Hc. unfold addRouteByID.
destruct (wellFormed_router_of_node _ _ _ Hwf Hid) as (j & x & -> & Hj & _).
eexists. split; [done|]. split.
- by apply wellFormed_insert.
- by apply costsIn_insert.
Qed.

Lemma addDirect_total routers link :
wellFormed nodes routers → costsIn lo hi routers →
node1 link ∈ nodes → node2 link ∈ nodes → lo ≤ pathCost link ≤ hi →
∃ routers', addDirect routers link = Some routers' ∧
            wellFormed nodes routers' ∧ costsIn lo hi routers'.
Proof.
intros Hwf Hb H1 H2 Hc. unfold addDirect.
destruct (addRouteByID_total routers (node1 link) (node2 link) (pathCost link))
  as (rs1 & -> & Hwf1 & Hb1); try done.
by apply addRouteByID_total.
Qed.

(** Seeding succeeds whenever the links join known nodes, and produces a
  well-formed collection. *)
Lemma seeding_total links :
linkEndsIn nodes links → linkCostsIn lo hi links →
∃ routers, seeded nodes links routers ∧
           wellFormed nodes routers ∧ costsIn lo hi routers.
Proof.
intros Hends Hcosts. unfold seeded, addDirectLinks.
apply (foldM_total (fun rs => wellFormed nodes rs ∧ costsIn lo hi rs)).
- intros rs link Hin [Hwf Hb].
  destruct (Hends link Hin) as [H1 H2].
  destruct (addDirect_total rs link) as (rs' & ? & ? & ?); eauto.
- split; [apply emplaceRouters_wellFormed|apply emplaceRouters_costsIn].
Qed.

Lemma seeded_costsIn links routers :
linkEndsIn nodes links → linkCostsIn lo hi links → seeded nodes links routers →
wellFormed nodes routers ∧ costsIn lo hi routers.
Proof.
intros Hends Hcosts Hs.
destruct (seeding_total links Hends Hcosts) as (rs & Hs' & ?).
unfold seeded in *. by simplify_eq.
Qed.

End SeedingCosts.

(** Seeding throws unless every link joins two known nodes. *)
Lemma addRouteByID_IDs routers id d h c routers' :
  addRouteByID routers id d h c = Some routers' →
  ID <$> routers' = ID <$> routers ∧ id ∈ (ID <$> routers).
Proof.
  unfold addRouteByID.
  destruct (getRouterByID routers id) as [[i x]|] eqn:Hg; [|done].
  intros [= <-]. split.
  - apply getRouterByID_Some in Hg as (Hi & _).
    rewrite list_fmap_insert, addRoute_ID. apply list_insert_id.
    by rewrite list_lookup_fmap, Hi.
  - apply getRouterByID_is_Some. by eauto.
Qed.

Lemma addDirect_IDs routers link routers' :
  addDirect routers link = Some routers' →
  ID <$> routers' = ID <$> routers ∧
  node1 link ∈ (ID <$> routers) ∧ node2 link ∈ (ID <$> routers).
Proof.
  unfold addDirect.
  destruct (addRouteByID routers _ _ _ _) as [rs1|] eqn:E1; [|done]. intros E2.
  apply addRouteByID_IDs in E1 as [Hids1 H1].
  apply addRouteByID_IDs in E2 as [Hids2 H2].
  rewrite Hids1 in Hids2, H2. done.
Qed.

Lemma seeded_linkEndsIn nodes links routers :
  seeded nodes links routers → linkEndsIn nodes links.
Proof.
  unfold seeded, addDirectLinks.
  assert (ID <$> emplaceRouters [] nodes = in_order nodes) as Hids
    by apply emplaceRouters_wellFormed.
  revert Hids. generalize (emplaceRouters [] nodes) as rs.
  induction links as [|link links IH]; intros rs Hids Hfold.
  - intros link Hin. by apply elem_of_nil in Hin.
  - simpl in Hfold. destruct (addDirect rs link) as [rs1|] eqn:E; [|done].
    apply addDirect_IDs in E as (Hids1 & H1 & H2).
    rewrite Hids in Hids1, H1, H2. apply elem_of_in_order in H1, H2.
    intros l Hin. apply elem_of_cons in Hin as [->|Hin]; [done|].
    by eapply (IH rs1).
Qed.

Lemma addDirect_wellFormed nodes routers link routers' :
  wellFormed nodes routers → addDirect routers link = Some routers' →
  wellFormed nodes routers'.
Proof.
  intros Hwf E. pose proof E as (_ & H1 & H2)%addDirect_IDs.
  destruct Hwf as [Hids Hdom]. rewrite Hids in H1, H2.
  apply elem_of_in_order in H1, H2.
  revert E. unfold addDirect, addRouteByID.
  destruct (getRouterByID routers _) as [[i x]|] eqn:Hg1; [|done].
  apply getRouterByID_Some in Hg1 as (Hi & _).
  pose proof (wellFormed_insert nodes routers i x (node2 link) (node2 link)
                (pathCost link) (conj Hids Hdom) Hi H2) as Hwf1.
  destruct (getRouterByID _ (node2 link)) as [[k y]|] eqn:Hg2; [|done].
  apply getRouterByID_Some in Hg2 as (Hk & _).
  intros [= <-]. by apply wellFormed_insert.
Qed.

Lemma seeded_shape nodes links routers :
  seeded nodes links routers → wellFormed nodes routers ∧ linkEndsIn nodes links.
Proof.
  intros Hs. split; [|by eapply seeded_linkEndsIn].
  revert Hs. unfold seeded, addDirectLinks.
  apply (foldM_inv (wellFormed nodes)); [|apply emplaceRouters_wellFormed].
  intros rs link rs' _. apply addDirect_wellFormed.
Qed.

(** The sweeps keep the collection well formed, whatever the link costs. *)
Lemma sweep_wellFormed nodes links routers st :
  wellFormed nodes routers → sweep routers nodes links = Some st →
  wellFormed nodes st.1.
Proof.
  intros Hwf. unfold sweep.
  apply (foldM_inv (fun st => wellFormed nodes st.1)); [|done].
  clear. intros st i st' _ Hst. unfold scanRouter.
  apply (foldM_inv (fun st => wellFormed nodes st.1)); [|done].
  clear. intros st d st' Hd Hst. apply elem_of_in_order in Hd.
  unfold scanDestination. destruct (st.1 !! i) as [router|]; [|by intros [= <-]].
  destruct (foldM _ _ links) as [s|] eqn:Hfold; simpl; [|done]. intros [= <-]. simpl.
  revert Hfold.
  apply (foldM_inv (fun s => wellFormed nodes (scanRouters s))); [|done].
  clear -Hd. intros s link s' _ Hs Hstep.
  apply relaxLink_cases in Hstep as [->|Hfire]; [done|].
  destruct Hfire as (router & j & nb & Hi & _ & _ & _ & _ & _ & ->).
  simpl. by apply wellFormed_insert.
Qed.

Lemma doBellmanFordAlg_wellFormed nodes links fuel routers routers' :
  wellFormed nodes routers →
  doBellmanFordAlg fuel routers nodes links = Done routers' →
  wellFormed nodes routers'.
Proof.
  revert routers. induction fuel as [|fuel IH]; intros routers Hwf; simpl; [done|].
  destruct (sweep routers nodes links) as [[rs u]|] eqn:Hs; [|done].
  pose proof (sweep_wellFormed _ _ _ _ Hwf Hs) as Hwf'. simpl in Hwf'.
  destruct u; [by apply IH|]. by intros [= <-].
Qed.

Lemma seeded_invariants nodes links routers :
  costsWithin links → seeded nodes links routers →
  linkEndsIn nodes links ∧ wellFormed nodes routers ∧ boundedCosts routers.
Proof.
  intros Hcosts Hs. pose proof (seeded_linkEndsIn _ _ _ Hs) as Hends.
  split; [done|].
  apply (seeded_costsIn nodes 0 costMax) with links;
    (done || (unfold costMax; lia)).
Qed.

Lemma seeded_range nodes links routers :
  costsAreInts links → seeded nodes links routers →
  linkEndsIn nodes links ∧ wellFormed nodes routers ∧ intRange routers.
Proof.
  intros Hcosts Hs. pose proof (seeded_linkEndsIn _ _ _ Hs) as Hends.
  split; [done|].
  apply (seeded_costsIn nodes int_min int_max) with links;
    (done || (unfold int_min, int_max; lia)).
Qed.

(** ** One link, on a well-formed collection *)

Lemma neighbourOf_cases link id :
  neighbourOf link id = -1 ∨ neighbourOf link id = node1 link ∨
  neighbourOf link id = node2 link.
Proof. unfold neighbourOf. repeat case_decide; auto. Qed.

Section Relax.
Context (nodes : gset Z) (links : list Link).
Hypothesis Hends : linkEndsIn nodes links.

Lemma relaxLink_base i d s link :
  link ∈ links → d ∈ nodes → scanBase nodes i d s →
  ∃ s', relaxLink i d s link = Some s' ∧ scanBase nodes i d s' ∧
    (s' = s ∨
     ∃ router j nb N c,
       scanRouters s !! i = Some router ∧
       N = neighbourOf link (ID router) ∧ N ∈ nodes ∧ N ≠ -1 ∧ N ≠ d ∧
       getRouterByID (scanRouters s) N = Some (j, nb) ∧
       scanRouters s !! j = Some nb ∧ ID nb = N ∧
       getNextHop nb d ≠ ID router ∧
       c = getPathCost router N + getPathCost nb d ∧
       0 ≤ getPathCost router N ∧ 0 ≤ getPathCost nb d ∧
       curPathCost s = getPathCost router d ∧
       (c < curPathCost s ∨ (c = curPathCost s ∧ N < newNextHop s)) ∧
       s' = adopt i d s router N c).
Proof.
  intros Hlink Hd Hbase. pose proof Hbase as (Hwf & Hb & Hcur). unfold relaxLink.
  destruct (scanRouters s !! i) as [router|] eqn:Hi;
    [|by exists s; split; [|split; [|left]]].
  cbv zeta. unfold getID.
  destruct (decide (neighbourOf link (ID router) = -1 ∨
                    neighbourOf link (ID router) = d)) as [Hn|Hn];
    [by exists s; split; [|split; [|left]]|].
  set (N := neighbourOf link (ID router)) in *.
  assert (N ∈ nodes) as HN.
  { destruct (Hends link Hlink) as [H1 H2].
    destruct (neighbourOf_cases link (ID router)) as [E|[E|E]];
      fold N in E; rewrite E; tauto. }
  destruct (wellFormed_router_of_node _ _ _ Hwf HN) as (j & nb & Hnb & Hj & Hidnb).
  rewrite Hnb. simpl.
  destruct (decide (getNextHop nb d = ID router)) as [Hsh|Hsh];
    [by exists s; split; [|split; [|left]]|].
  pose proof (bounded_getPathCost _ _ _ _ _ Hwf Hb Hi HN) as HcN.
  pose proof (bounded_getPathCost _ _ _ _ _ Hwf Hb Hj Hd) as Hcd.
  pose proof (bounded_getPathCost _ _ _ _ _ Hwf Hb Hi Hd) as Hcc.
  rewrite int_add_exact by (unfold int_min, int_max, costMax in *; lia).
  specialize (Hcur router eq_refl).
  case_decide as Hfire; [|by exists s; split; [|split; [|left]]].
  eexists. split; [done|]. split.
  - split; [|split]; simpl.
    + by apply wellFormed_insert.
    + apply boundedCosts_insert; [done..|]. lia.
    + intros r'. rewrite list_lookup_insert_eq by (by eapply lookup_lt_Some).
      intros [= <-]. rewrite getPathCost_addRoute. by rewrite decide_True.
  - right. exists router, j, nb, N, (getPathCost router N + getPathCost nb d).
    repeat split; try done; try tauto; try lia.
Qed.

(** The same step when the path costs are only known to be [int]s: the
  sum may wrap, but an adopted cost never exceeds the current one. *)
Lemma relaxLink_range i d s link :
  link ∈ links → d ∈ nodes → scanRange nodes i d s →
  ∃ s', relaxLink i d s link = Some s' ∧ scanRange nodes i d s' ∧
    (s' = s ∨
     ∃ router N c,
       scanRouters s !! i = Some router ∧ N ∈ nodes ∧ N ≠ -1 ∧
       curPathCost s = getPathCost router d ∧
       (c < curPathCost s ∨ (c = curPathCost s ∧ N < newNextHop s)) ∧
       s' = adopt i d s router N c).
Proof.
  intros Hlink Hd Hbase. pose proof Hbase as (Hwf & Hb & Hcur). unfold relaxLink.
  destruct (scanRouters s !! i) as [router|] eqn:Hi;
    [|by exists s; split; [|split; [|left]]].
  cbv zeta. unfold getID.
  destruct (decide (neighbourOf link (ID router) = -1 ∨
                    neighbourOf link (ID router) = d)) as [Hn|Hn];
    [by exists s; split; [|split; [|left]]|].
  set (N := neighbourOf link (ID router)) in *.
  assert (N ∈ nodes) as HN.
  { destruct (Hends link Hlink) as [H1 H2].
    destruct (neighbourOf_cases link (ID router)) as [E|[E|E]];
      fold N in E; rewrite E; tauto. }
  destruct (wellFormed_router_of_node _ _ _ Hwf HN) as (j & nb & Hnb & Hj & Hidnb).
  rewrite Hnb. simpl.
  destruct (decide (getNextHop nb d = ID router)) as [Hsh|Hsh];
    [by exists s; split; [|split; [|left]]|].
  pose proof (wrap_range (getPathCost router N + getPathCost nb d)) as Hc.
  fold (int_add (getPathCost router N) (getPathCost nb d)) in Hc.
  specialize (Hcur router eq_refl).
  case_decide as Hfire; [|by exists s; split; [|split; [|left]]].
  eexists. split; [done|]. split.
  - split; [|split]; simpl.
    + by apply wellFormed_insert.
    + by apply costsIn_insert.
    + intros r'. rewrite list_lookup_insert_eq by (by eapply lookup_lt_Some).
      intros [= <-]. rewrite getPathCost_addRoute. by rewrite decide_True.
  - right. exists router, N, (int_add (getPathCost router N) (getPathCost nb d)).
    repeat split; try done; tauto.
Qed.

End Relax.

(** ** Lifting a scan invariant to the whole sweep *)

Lemma sweep_lift (Q : list Router * bool → Prop) (J : nat → Z → Scan → Prop)
    nodes links :
  (∀ st i router d, Q st → st.1 !! i = Some router → d ∈ nodes →
     J i d (mkScan st.1 (getPathCost router d) (-1) st.2)) →
  (∀ i d s link, link ∈ links → d ∈ nodes → J i d s →
     ∃ s', relaxLink i d s link = Some s' ∧ J i d s') →
  (∀ i d s, d ∈ nodes → J i d s → Q (scanRouters s, updated s)) →
  ∀ routers, Q (routers, false) →
  ∃ st', sweep routers nodes links = Some st' ∧ Q st'.
Proof.
  intros Hinit Hstep Hexit routers HQ. unfold sweep.
  apply (foldM_total Q); [|done].
  intros st i _ Hst. unfold scanRouter.
  apply (foldM_total Q); [|done].
  clear routers HQ st Hst. intros st d Hd Hst.
  apply elem_of_in_order in Hd. unfold scanDestination.
  destruct (st.1 !! i) as [router|] eqn:Hi; [|by eauto].
  destruct (foldM_total (J i d) (relaxLink i d) links) with
    (a := mkScan st.1 (getPathCost router d) (-1) st.2) as (s & -> & Hs).
  - intros s link Hlink Hs. by apply Hstep.
  - by apply Hinit.
  - simpl. eexists. split; [done|]. by eapply Hexit.
Qed.

(** ** The total cost as a termination measure *)

Lemma tableCost_addRoute_notin ds r d h c :
  d ∉ ds → tableCost ds (addRoute r d h c) = tableCost ds r.
Proof.
  induction ds as [|a ds IH]; intros Hd; simpl; [done|].
  apply not_elem_of_cons in Hd as [Hne Hd].
  rewrite IH by done. rewrite getPathCost_addRoute.
  by rewrite decide_False by done.
Qed.

Lemma tableCost_addRoute ds r d h c :
  NoDup ds → d ∈ ds →
  tableCost ds (addRoute r d h c) = tableCost ds r - getPathCost r d + c.
Proof.
  induction ds as [|a ds IH]; intros Hnd Hd; simpl.
  - by apply elem_of_nil in Hd.
  - apply NoDup_cons in Hnd as [Ha Hnd]. rewrite getPathCost_addRoute.
    destruct (decide (a = d)) as [->|Hne].
    + rewrite tableCost_addRoute_notin by done. lia.
    + apply elem_of_cons in Hd as [->|Hd]; [done|]. rewrite IH by done. lia.
Qed.

Lemma totalCost_insert nodes routers i r r' :
  routers !! i = Some r →
  totalCost nodes (<[i := r']> routers) =
    totalCost nodes routers - tableCost (in_order nodes) r + tableCost (in_order nodes) r'.
Proof.
  unfold totalCost.
  revert i. induction routers as [|x rs IH]; intros [|i] Hi; simpl in *; try done.
  - injection Hi as ->. lia.
  - rewrite (IH i Hi). lia.
Qed.

Lemma totalCost_adopt nodes routers i r d h c :
  routers !! i = Some r → d ∈ nodes →
  totalCost nodes (<[i := addRoute r d h c]> routers) =
    totalCost nodes routers - getPathCost r d + c.
Proof.
  intros Hi Hd. rewrite (totalCost_insert _ _ _ _ _ Hi).
  rewrite tableCost_addRoute; [lia|apply NoDup_in_order|by apply elem_of_in_order].
Qed.

Lemma tableCost_floor nodes lo hi routers j r ds :
  wellFormed nodes routers → costsIn lo hi routers → routers !! j = Some r →
  (∀ d, d ∈ ds → d ∈ nodes) →
  Z.of_nat (length ds) * lo ≤ tableCost ds r.
Proof.
  intros Hwf Hb Hj. induction ds as [|a ds IH]; intros Hin; simpl length; simpl tableCost.
  - lia.
  - assert (a ∈ nodes) as Hain by apply Hin, list_elem_of_here.
    pose proof (costsIn_getPathCost nodes lo hi routers j r a Hwf Hb Hj Hain) as Ha.
    assert (Z.of_nat (length ds) * lo ≤ tableCost ds r).
    { apply IH. intros d' ?. apply Hin. by apply list_elem_of_further. }
    rewrite Nat2Z.inj_succ. lia.
Qed.

Lemma totalCost_floor nodes routers :
  wellFormed nodes routers → intRange routers →
  floorCost nodes ≤ totalCost nodes routers.
Proof.
  intros Hwf Hb. unfold floorCost.
  set (K := Z.of_nat (length (in_order nodes)) * int_min).
  assert (length (in_order nodes) = length routers) as Hlen.
  { destruct Hwf as [<- _]. by rewrite length_fmap. }
  rewrite Hlen. clear Hlen.
  assert (∀ r, r ∈ routers → K ≤ tableCost (in_order nodes) r) as Hrow.
  { intros r Hr. apply list_elem_of_lookup in Hr as [j Hj].
    apply (tableCost_floor nodes int_min int_max routers j); try done.
    intros d. apply elem_of_in_order. }
  clear Hwf Hb. induction routers as [|x rs IH]; simpl length; [simpl; lia|].
  assert (K ≤ tableCost (in_order nodes) x) by apply Hrow, list_elem_of_here.
  assert (Z.of_nat (length rs) * K ≤ totalCost nodes rs).
  { apply IH. intros r ?. by apply Hrow, list_elem_of_further. }
  rewrite Nat2Z.inj_succ. unfold totalCost in *. simpl. lia.
Qed.

Lemma totalCost_nonneg nodes routers :
  wellFormed nodes routers → boundedCosts routers → 0 ≤ totalCost nodes routers.
Proof.
  intros Hwf Hb. unfold totalCost.
  assert (∀ r, r ∈ routers → 0 ≤ tableCost (in_order nodes) r) as Hrow.
  { intros r Hr. apply list_elem_of_lookup in Hr as [j Hj].
    pose proof (tableCost_floor nodes 0 costMax routers j r (in_order nodes) Hwf Hb Hj) as H.
    rewrite Z.mul_0_r in H. apply H. intros d. apply elem_of_in_order. }
  clear Hwf Hb. induction routers as [|x rs IH]; simpl; [done|].
  assert (0 ≤ tableCost (in_order nodes) x) by apply Hrow, list_elem_of_here.
  assert (0 ≤ foldr (fun r acc => tableCost (in_order nodes) r + acc) 0 rs).
  { apply IH. intros r ?. by apply Hrow, list_elem_of_further. }
  lia.
Qed.

(** ** Termination of the sweep loop *)

Section Termination.
Context (nodes : gset Z) (links : list Link).
Hypothesis Hends : linkEndsIn nodes links.
Hypothesis Hids : set_Forall (fun n => -1 ≤ n) nodes.

(** With no node id below -1, the first adoption of a scan is a strict
  improvement: the equal-cost branch needs [neighbourID < newNextHop], and
  [newNextHop] is -1 until a neighbour has been adopted. *)
Lemma relaxLink_measure m0 i d s link :
link ∈ links → d ∈ nodes → scanMeasure nodes m0 i d s →
∃ s', relaxLink i d s link = Some s' ∧ scanMeasure nodes m0 i d s'.
Proof.
intros Hlink Hd (Hbase & Hle & Hupd & Hhop).
destruct (relaxLink_range nodes links Hends i d s link Hlink Hd Hbase)
  as (s' & Hs' & Hbase' & Hcases).
exists s'. split; [done|]. destruct Hcases as [->|Hfire]; [done|].
destruct Hfire as (router & N & c & Hi & HNn & HN1 & Hcur & Hcmp & ->).
split; [done|]. simpl.
rewrite (totalCost_adopt _ _ _ _ _ _ _ Hi Hd).
pose proof (Hids N HNn) as HNge. simpl in HNge.
assert (c - getPathCost router d < 0 ∨
        (c = getPathCost router d ∧ newNextHop s ≠ -1)) as Hdec by lia.
destruct Hdec as [Hlt|[Heq Hne]].
- split; [lia|split; intros; lia].
- pose proof (Hhop Hne). split; [lia|split; intros; lia].
Qed.

Lemma sweep_measure routers :
wellFormed nodes routers → intRange routers →
∃ routers' u, sweep routers nodes links = Some (routers', u) ∧
  wellFormed nodes routers' ∧ intRange routers' ∧
  totalCost nodes routers' ≤ totalCost nodes routers ∧
  (u = true → totalCost nodes routers' < totalCost nodes routers).
Proof.
intros Hwf Hb.
destruct (sweep_lift (sweepMeasure nodes (totalCost nodes routers))
            (scanMeasure nodes (totalCost nodes routers)) nodes links)
  with (routers := routers) as ([rs' u] & Hs & Hwf' & Hb' & Hle & Hlt).
- intros st i router d (Hw & Hbd & Hle & Hlt) Hi Hd.
  split; [split; [done|split; [done|]]|by split].
  simpl. intros r' Hr'. rewrite Hi in Hr'. by injection Hr' as <-.
- intros. by apply relaxLink_measure.
- intros i d s _ ((Hw & Hbd & _) & Hle & Hlt & _). by split; [|split; [|split]].
- split; [done|split; [done|split; [done|]]]. simpl. done.
- by exists rs', u.
Qed.

(** Every sweep that raises [updated] lowers the total cost, which cannot
  fall below [floorCost]. *)
Lemma doBellmanFordAlg_terminates_within (n : nat) routers :
wellFormed nodes routers → intRange routers →
totalCost nodes routers - floorCost nodes < Z.of_nat n →
∃ routers', doBellmanFordAlg n routers nodes links = Done routers' ∧
            wellFormed nodes routers' ∧ intRange routers'.
Proof.
revert routers. induction n as [|n IH]; intros routers Hwf Hb Hlt.
- pose proof (totalCost_floor _ _ Hwf Hb). lia.
- destruct (sweep_measure routers Hwf Hb) as (rs' & u & Hs & Hwf' & Hb' & Hle & Hdec).
  simpl. rewrite Hs. destruct u; [|by eauto].
  apply IH; try done. specialize (Hdec eq_refl). lia.
Qed.

End Termination.

(** ** Seeding by [initTopology] and [applyChange]; the termination theorem *)

(** [initTopology], called as in [dvr] on empty containers, returns the
    records as link list, a node set holding every link end, and the routers
    seeded for them. *)
Lemma initTopology_seeded records links nodes routers :
  initTopology records [] ∅ [] = Some (links, nodes, routers) →
  links = records ∧ linkEndsIn nodes links ∧ seeded nodes links routers.
Proof.
  unfold initTopology, seeded. simpl.
  destruct (addDirectLinks _ records) as [rs|] eqn:E; [|done].
  intros [= <- <- <-]. split; [done|]. split; [|done].
  assert (∀ l (ns : gset Z),
    (∀ n, n ∈ ns → n ∈ foldl (fun ns l => {[node2 l]} ∪ ({[node1 l]} ∪ ns)) ns l) ∧
    linkEndsIn (foldl (fun ns l => {[node2 l]} ∪ ({[node1 l]} ∪ ns)) ns l) l) as H.
  { induction l as [|a l IH]; intros ns; simpl.
    - split; [done|]. intros link Hin. by apply elem_of_nil in Hin.
    - destruct (IH ({[node2 a]} ∪ ({[node1 a]} ∪ ns))) as [Hmono Hl]. split.
      + intros n Hn. apply Hmono. rewrite !elem_of_union. auto.
      + intros link Hin. apply elem_of_cons in Hin as [->|Hin]; [|by apply Hl].
        split; apply Hmono; rewrite !elem_of_union, !elem_of_singleton; auto. }
  apply H.
Qed.

(** The routers [applyChange] returns are the ones seeded for the node set
    and the link list it returns. *)
Lemma applyChange_seeded change routers nodes links routers' nodes' links' :
  applyChange change routers nodes links = Some (routers', nodes', links') →
  seeded nodes' links' routers'.
Proof.
  unfold applyChange, seeded, clear.
  destruct (addDirectLinks _ _) as [rs|] eqn:E; [|done]. by intros [= <- <- <-].
Qed.

(** The fuel is no iteration cap: once it suffices, more of it changes
    nothing. *)
Lemma doBellmanFordAlg_fuel_mono n m routers nodes links routers' :
  doBellmanFordAlg n routers nodes links = Done routers' → (n ≤ m)%nat →
  doBellmanFordAlg m routers nodes links = Done routers'.
Proof.
  revert m routers. induction n as [|n IH]; intros m routers; simpl; [done|].
  intros H Hle. destruct m as [|m]; [lia|]. simpl.
  destruct (sweep routers nodes links) as [[rs [|]]|]; try done.
  apply IH; [done|lia].
Qed.

(** C4 (amended) — Termination of convergence: for every topology whose
    node ids are not below -1 (its link costs being [int]s) and for the
    router collection seeded for it, [doBellmanFordAlg] returns after
    finitely many sweeps, in a state that a further full sweep leaves without
    any update.  The number of sweeps is at most one more than the distance
    of the total of the seeded path costs from its floor; no cap on the
    number of sweeps is part of the code (the fuel is large enough never to
    run out). *)
Theorem doBellmanFordAlg_terminates nodes links routers :
  costsAreInts links →
  set_Forall (fun n => -1 ≤ n) nodes →
  seeded nodes links routers →
  ∃ routers',
    doBellmanFordAlg (S (Z.to_nat (totalCost nodes routers - floorCost nodes)))
                     routers nodes links = Done routers' ∧
    sweep routers' nodes links = Some (routers', false).
Proof.
  intros Hcosts Hids Hseed.
  destruct (seeded_range _ _ _ Hcosts Hseed) as (Hends & Hwf & Hb).
  pose proof (totalCost_floor _ _ Hwf Hb) as Hfloor.
  destruct (doBellmanFordAlg_terminates_within nodes links Hends Hids
              (S (Z.to_nat (totalCost nodes routers - floorCost nodes))) routers Hwf Hb)
    as (rs' & Hrun & _); [lia|].
  exists rs'. split; [done|]. by eapply doBellmanFordAlg_fixpoint.
Qed.

(** ** A topology on which the sweep loop never stops *)

Lemma doBellmanFordAlg_loops routers nodes links :
  sweep routers nodes links = Some (routers, true) →
  ∀ fuel, doBellmanFordAlg fuel routers nodes links = OutOfFuel.
Proof. intros H. induction fuel as [|fuel IH]; simpl; [done|]. by rewrite H. Qed.

Lemma doBellmanFordAlg_enters_loop routers routers1 nodes links :
  sweep routers nodes links = Some (routers1, true) →
  sweep routers1 nodes links = Some (routers1, true) →
  ∀ fuel, doBellmanFordAlg fuel routers nodes links = OutOfFuel.
Proof.
  intros H0 H1 [|fuel]; simpl; [done|]. rewrite H0.
  by apply doBellmanFordAlg_loops.
Qed.

(** C4 (counterexample) — the topology [1 -5 1; -5 2 1] has positive link
    costs only, yet on the router collection [initTopology] seeds for it
    [doBellmanFordAlg] never returns: from the second sweep on, every sweep
    re-adopts the equal-cost route of router 1 to node 2 through neighbour
    -5 (because -5 < -1) and raises [updated] again. *)
Lemma doBellmanFordAlg_diverges_on_negative_id :
  ∃ links nodes routers,
    initTopology negIdTopology [] ∅ [] = Some (links, nodes, routers) ∧
    ∀ fuel, doBellmanFordAlg fuel routers nodes links = OutOfFuel.
Proof.
  eexists _, _, _. split; [vm_compute; reflexivity|].
  eapply doBellmanFordAlg_enters_loop; [vm_compute; reflexivity|vm_compute; reflexivity].
Qed.

(** ** The route of a router to itself *)

Lemma getPathCost_entry r d h c : RT r !! d = Some (h, c) → getPathCost r d = c.
Proof. unfold getPathCost, RoutingTable.getPathCost. by intros ->. Qed.

Lemma getNextHop_entry r d h c : RT r !! d = Some (h, c) → getNextHop r d = h.
Proof. unfold getNextHop, RoutingTable.getNextHop. by intros ->. Qed.

Section SelfRoute.
Context (nodes : gset Z) (links : list Link).
Hypothesis Hends : linkEndsIn nodes links.

Lemma selfRoutes_cost routers i r :
  selfRoutes links routers → routers !! i = Some r → getPathCost r (ID r) = 0.
Proof.
  intros H Hi.
  destruct (H i r Hi) as [E|(h & ? & ? & ? & E & _)]; by rewrite (getPathCost_entry _ _ _ _ E).
Qed.

Lemma relaxLink_self i d s link :
  link ∈ links → d ∈ nodes → scanSelf nodes links i d s →
  ∃ s', relaxLink i d s link = Some s' ∧ scanSelf nodes links i d s'.
Proof.
  intros Hlink Hd (Hbase & Hself & Hhop).
  destruct (relaxLink_base nodes links Hends i d s link Hlink Hd Hbase)
    as (s' & Hs' & Hbase' & Hcases).
  exists s'. split; [done|]. destruct Hcases as [->|Hfire]; [done|].
  destruct Hfire as (router & j & nb & N & c & Hi & HN & HNn & HN1 & HNd & Hnb & Hj
                     & Hidnb & Hsh & Hc & HcN & Hcd & Hcur & Hcmp & ->).
  pose proof (lookup_lt_Some _ _ _ Hi) as Hlen.
  pose proof (selfRoutes_cost _ _ _ Hself Hi) as Hzero.
  (* when the destination is the router itself, only the tie-break can fire *)
  assert (d = ID router → c = 0 ∧ getPathCost router N = 0 ∧
                          getPathCost nb d = 0 ∧ N < -1) as Hown.
  { intros ->. specialize (Hhop router Hi eq_refl). lia. }
  (* whatever the destination, a cost that was 0 stays 0 *)
  assert (∀ d', getPathCost router d' = 0 →
                getPathCost (addRoute router d N c) d' = 0) as Hkeep.
  { intros d' H0. rewrite getPathCost_addRoute. case_decide; [subst d'; lia|done]. }
  split; [done|]. split; simpl.
  - intros k r' Hk. destruct (decide (k = i)) as [->|Hki].
    + rewrite list_lookup_insert_eq in Hk by done. injection Hk as <-.
      destruct (decide (d = ID router)) as [Hdid|Hdid].
      * destruct (Hown Hdid) as (-> & HcN0 & Hcd0 & HNlt).
        right. exists N, link, j, nb. simpl.
        assert (j ≠ i) as Hji.
        { intros ->. rewrite Hi in Hj. injection Hj as <-. congruence. }
        repeat split; try done.
        -- unfold RoutingTable.addRoute. rewrite Hdid. by rewrite lookup_insert_eq.
        -- congruence.
        -- rewrite (getRouterByID_insert _ _ _ _ _ Hi) by done.
           rewrite Hnb. simpl. by rewrite decide_False.
        -- congruence.
        -- by apply Hkeep.
        -- congruence.
      * destruct (Hself i router Hi)
          as [E|(h & l0 & j0 & nb0 & E & Hh & Hhne & Hl0 & Hnbr & Hg & Hnh & Hc1 & Hc2)].
        -- left. simpl. unfold RoutingTable.addRoute. by rewrite lookup_insert_ne.
        -- right. exists h, l0, j0, nb0. simpl.
           assert (j0 ≠ i) as Hji.
           { intros ->. apply getRouterByID_Some in Hg as (Hg & Hidh & _).
             rewrite Hi in Hg. injection Hg as <-. unfold getID in Hidh. congruence. }
           repeat split; try done.
           ++ unfold RoutingTable.addRoute. by rewrite lookup_insert_ne.
           ++ rewrite (getRouterByID_insert _ _ _ _ _ Hi) by done.
              rewrite Hg. simpl. by rewrite decide_False.
           ++ by apply Hkeep.
    + rewrite list_lookup_insert_ne in Hk by done.
      destruct (Hself k r' Hk)
        as [E|(h & l0 & j0 & nb0 & E & Hh & Hhne & Hl0 & Hnbr & Hg & Hnh & Hc1 & Hc2)];
        [by left|].
      right. exists h, l0, j0, (if decide (j0 = i) then addRoute router d N c else nb0).
      repeat split; try done.
      * rewrite (getRouterByID_insert _ _ _ _ _ Hi) by done. by rewrite Hg.
      * case_decide as Hj0; [|done]. subst j0.
        apply getRouterByID_Some in Hg as (Hg & _). rewrite Hi in Hg. injection Hg as <-.
        rewrite getNextHop_addRoute. case_decide; [congruence|done].
      * case_decide as Hj0; [|done]. subst j0.
        apply getRouterByID_Some in Hg as (Hg & _). rewrite Hi in Hg. injection Hg as <-.
        by apply Hkeep.
  - intros r'. rewrite list_lookup_insert_eq by done. intros [= <-] Hdid.
    simpl in Hdid. destruct (Hown Hdid) as (_ & _ & _ & ?). lia.
Qed.

End SelfRoute.

(** Seeding leaves the self routes of the constructor in place when no link
    joins a node to itself. *)
Lemma addRouteByID_self routers id d c routers' :
  id ≠ d →
  (∀ i r, routers !! i = Some r → RT r !! ID r = Some (ID r, 0)) →
  addRouteByID routers id d d c = Some routers' →
  ∀ i r, routers' !! i = Some r → RT r !! ID r = Some (ID r, 0).
Proof.
  intros Hne Hself. unfold addRouteByID.
  destruct (getRouterByID routers id) as [[j x]|] eqn:Hg; [|done].
  intros [= <-] i r Hi.
  apply getRouterByID_Some in Hg as (Hj & Hid & _). unfold getID in Hid.
  destruct (decide (i = j)) as [->|Hij].
  - rewrite list_lookup_insert_eq in Hi by (by eapply lookup_lt_Some).
    injection Hi as <-. simpl. unfold RoutingTable.addRoute.
    rewrite lookup_insert_ne by congruence. by eapply Hself.
  - rewrite list_lookup_insert_ne in Hi by done. by eapply Hself.
Qed.

Lemma seeded_self nodes links routers :
  noSelfLinks links → seeded nodes links routers →
  ∀ i r, routers !! i = Some r → RT r !! ID r = Some (ID r, 0).
Proof.
  intros Hns. unfold seeded, addDirectLinks.
  apply (foldM_inv (fun rs => ∀ i r, rs !! i = Some r → RT r !! ID r = Some (ID r, 0))).
  - intros rs link rs' Hin Hrs. unfold addDirect.
    destruct (addRouteByID rs _ _ _ _) as [rs1|] eqn:E1; [|done]. intros E2.
    pose proof (Hns link Hin) as Hne.
    eapply addRouteByID_self; [| |exact E2]; [congruence|].
    eapply addRouteByID_self; [| |exact E1]; done.
  - rewrite emplaceRouters_eq. simpl. intros i r Hi.
    rewrite list_lookup_fmap in Hi.
    destruct (in_order nodes !! i) as [id|] eqn:Hid; [|done].
    injection Hi as <-. simpl. rewrite make_lookup.
    rewrite decide_True.
    + unfold seedEntry. by rewrite decide_True.
    + apply elem_of_in_order. by eapply list_elem_of_lookup_2.
Qed.

(** In a sweep that updates nothing, every link is evaluated in the state
    the sweep started from, and leaves it alone. *)
Lemma sweep_quiet_steps routers nodes links routers' i router d link :
  sweep routers nodes links = Some (routers', false) →
  routers !! i = Some router → d ∈ nodes → link ∈ links →
  relaxLink i d (mkScan routers (getPathCost router d) (-1) false) link =
    Some (mkScan routers (getPathCost router d) (-1) false).
Proof.
  intros Hs Hi Hd Hlink.
  pose proof (sweep_quiet _ _ _ _ Hs) as ->. unfold sweep in Hs.
  apply (foldM_quiet_steps snd) with (x := i) in Hs; [|by intros ???; apply scanRouter_quiet|done|].
  2:{ apply elem_of_seq. split; [lia|]. simpl. by eapply lookup_lt_Some. }
  unfold scanRouter in Hs.
  apply (foldM_quiet_steps snd) with (x := d) in Hs;
    [|by intros ???; apply scanDestination_quiet|done|by apply elem_of_in_order].
  unfold scanDestination in Hs. simpl in Hs. rewrite Hi in Hs.
  destruct (foldM _ _ links) as [s|] eqn:Hfold; simpl in Hs; [|done].
  injection Hs as Hrs Hu.
  by apply (foldM_quiet_steps updated) with (x := link) in Hfold;
    [|by intros ???; apply relaxLink_quiet|..].
Qed.

Section SelfRouteConvergence.
Context (nodes : gset Z) (links : list Link).
Hypothesis Hends : linkEndsIn nodes links.

Lemma sweep_self routers :
  sweepSelf nodes links (routers, false) →
  ∃ st', sweep routers nodes links = Some st' ∧ sweepSelf nodes links st'.
Proof.
  apply (sweep_lift (sweepSelf nodes links) (scanSelf nodes links)).
  - intros st i router d (Hw & Hb & Hself) Hi Hd.
    split; [split; [done|split; [done|]]|split; [done|]]; simpl.
    + intros r' Hr'. rewrite Hi in Hr'. by injection Hr' as <-.
    + intros; lia.
  - intros. by apply relaxLink_self.
  - intros i d s _ ((Hw & Hb & _) & Hself & _). by split; [|split].
Qed.

Lemma doBellmanFordAlg_self fuel routers routers' :
  wellFormed nodes routers → boundedCosts routers → selfRoutes links routers →
  doBellmanFordAlg fuel routers nodes links = Done routers' →
  wellFormed nodes routers' ∧ boundedCosts routers' ∧ selfRoutes links routers'.
Proof.
  revert routers. induction fuel as [|fuel IH]; intros routers Hw Hb Hself; simpl; [done|].
  destruct (sweep_self routers) as ([rs u] & -> & Hw' & Hb' & Hself'); [by split|].
  simpl in *. destruct u; [by apply IH|]. by intros [= <-].
Qed.

(** A router whose self route has been diverted keeps the sweep loop
    going: the fixed point cannot contain one. *)
Lemma quiet_self routers i r :
  wellFormed nodes routers →
  sweep routers nodes links = Some (routers, false) →
  selfRoutes links routers → routers !! i = Some r →
  RT r !! ID r = Some (ID r, 0).
Proof.
  intros Hwf Hs Hself Hi.
  destruct (Hself i r Hi)
    as [E|(h & l0 & j0 & nb0 & E & Hh & Hhne & Hl0 & Hnbr & Hg & Hnh & Hc1 & Hc2)];
    [done|exfalso].
  pose proof (wellFormed_ID_in _ _ _ _ Hwf Hi) as Hid.
  pose proof (sweep_quiet_steps _ _ _ _ i r (ID r) l0 Hs Hi Hid Hl0) as Hq.
  unfold relaxLink in Hq. simpl in Hq. rewrite Hi in Hq. cbv zeta in Hq.
  unfold getID in Hq. rewrite Hnbr in Hq.
  rewrite decide_False in Hq by (intros [?|?]; [lia|done]).
  rewrite Hg in Hq. simpl in Hq.
  rewrite decide_False in Hq by done.
  rewrite Hc1, Hc2, (getPathCost_entry _ _ _ _ E) in Hq.
  change (int_add 0 0) with 0 in Hq.
  rewrite decide_True in Hq by (right; split; [done|lia]).
  by injection Hq.
Qed.

End SelfRouteConvergence.

(** C5 (amended) — for every topology whose links join two distinct
    nodes and have a cost between 0 and [costMax], whenever
    [doBellmanFordAlg] has run to completion on the router collection seeded
    for it, the entry of every router for its own id is (next hop = self,
    cost = 0); and when, in addition, no node id is below -1,
    [doBellmanFordAlg] does run to completion. *)
Theorem self_route_after_convergence nodes links routers :
  costsWithin links → noSelfLinks links →
  seeded nodes links routers →
  (∀ fuel routers',
     doBellmanFordAlg fuel routers nodes links = Done routers' →
     ∀ r, r ∈ routers' → RT r !! ID r = Some (ID r, 0)) ∧
  (set_Forall (fun n => -1 ≤ n) nodes →
   ∃ routers',
     doBellmanFordAlg (S (Z.to_nat (totalCost nodes routers - floorCost nodes)))
                      routers nodes links = Done routers' ∧
     ∀ r, r ∈ routers' → RT r !! ID r = Some (ID r, 0)).
Proof.
  intros Hcosts Hns Hseed.
  destruct (seeded_invariants _ _ _ Hcosts Hseed) as (Hends & Hwf & Hb).
  assert (selfRoutes links routers) as Hself.
  { intros i x Hi. left. by eapply seeded_self. }
  assert (∀ fuel routers',
    doBellmanFordAlg fuel routers nodes links = Done routers' →
    ∀ r, r ∈ routers' → RT r !! ID r = Some (ID r, 0)) as Hpartial.
  { intros fuel routers' Hrun r Hr.
    destruct (doBellmanFordAlg_self nodes links Hends fuel routers routers'
                Hwf Hb Hself Hrun) as (Hwf' & _ & Hself').
    apply list_elem_of_lookup in Hr as [i Hi].
    eapply quiet_self; try done. by eapply doBellmanFordAlg_fixpoint. }
  split; [done|]. intros Hids.
  pose proof (boundedCosts_intRange _ Hb) as Hr.
  pose proof (totalCost_floor _ _ Hwf Hr) as Hfloor.
  destruct (doBellmanFordAlg_terminates_within nodes links Hends Hids
              (S (Z.to_nat (totalCost nodes routers - floorCost nodes))) routers Hwf Hr)
    as (rs' & Hrun & _); [lia|].
  exists rs'. split; [done|]. by eapply Hpartial.
Qed.

(** ** The candidate cost of a link *)

(** Throughout a scan, [curPathCost] is the cost the table of the scanning
    router holds for the destination. *)
Lemma scan_tracks_table_cost i d links1 s0 s :
  (∀ router, scanRouters s0 !! i = Some router → curPathCost s0 = getPathCost router d) →
  foldM (relaxLink i d) s0 links1 = Some s →
  ∀ router, scanRouters s !! i = Some router → curPathCost s = getPathCost router d.
Proof.
  intros H0 Hfold.
  apply (foldM_inv
    (fun s => ∀ router, scanRouters s !! i = Some router → curPathCost s = getPathCost router d)
    (relaxLink i d) links1) with (a := s0) (a' := s); [|done..].
  clear. intros s link s' _ Hs Hstep.
  apply relaxLink_cases in Hstep as [->|Hfire]; [done|].
  destruct Hfire as (router & j & nb & Hi & _ & _ & _ & _ & _ & ->).
  simpl. intros r'. rewrite list_lookup_insert_eq by (by eapply lookup_lt_Some).
  intros [= <-]. rewrite getPathCost_addRoute. by rewrite decide_True.
Qed.

(** C1 — the candidate cost the code evaluates: in every scan of
    [doBellmanFordAlg] over the links, for router R (at position [i]),
    destination D and a link whose neighbour N survives the filters ([N] is
    not -1, is not D, and N's next hop to D is not R), the candidate cost is
    R's current table cost to N, [router.getPathCost(neighbourID)], plus N's
    current table cost to D; the cost of the link itself is not read.
    [curPathCost] is R's current table cost to D.  R adopts (N, candidate)
    as its route to D and raises [updated] when the candidate is strictly
    below that cost; it leaves the scan unchanged when the candidate is
    strictly above it; and when the two are equal it adopts exactly when N
    is below [newNextHop]. *)
Theorem relaxLink_candidate_cost routers updated0 i router0 d links1 s link router j nb :
  routers !! i = Some router0 →
  foldM (relaxLink i d) (mkScan routers (getPathCost router0 d) (-1) updated0) links1
    = Some s →
  scanRouters s !! i = Some router →
  neighbourOf link (getID router) ≠ -1 →
  neighbourOf link (getID router) ≠ d →
  getRouterByID (scanRouters s) (neighbourOf link (getID router)) = Some (j, nb) →
  getNextHop nb d ≠ getID router →
  let N := neighbourOf link (getID router) in
  let candidate := int_add (getPathCost router N) (getPathCost nb d) in
  curPathCost s = getPathCost router d ∧
  (candidate < getPathCost router d →
     relaxLink i d s link = Some (adopt i d s router N candidate)) ∧
  (getPathCost router d < candidate → relaxLink i d s link = Some s) ∧
  (candidate = getPathCost router d →
     relaxLink i d s link =
       Some (if decide (N < newNextHop s) then adopt i d s router N candidate else s)).
Proof.
  intros H0 Hfold Hi HN1 HNd Hnb Hsh. cbv zeta.
  assert (curPathCost s = getPathCost router d) as Hcur.
  { eapply scan_tracks_table_cost; [|exact Hfold|exact Hi].
    simpl. intros r'. rewrite H0. by intros [= <-]. }
  split; [done|].
  unfold relaxLink. rewrite Hi. cbv zeta.
  rewrite decide_False by tauto. rewrite Hnb. simpl.
  rewrite decide_False by done. rewrite Hcur.
  split; [|split]; intros Hc.
  - by rewrite decide_True by (by left).
  - by rewrite decide_False by lia.
  - destruct (decide (neighbourOf link (getID router) < newNextHop s)) as [Hlt|Hge].
    + by rewrite decide_True by (by right).
    + by rewrite decide_False by lia.
Qed.

(** C1 (failing input) — in the first sweep over the topology
    [1 2 1; 2 3 1; 1 3 5; 3 4 1], once router 1 has handled destinations 1,
    2 and 3, the link 1–3 of cost 5 is evaluated for destination 4:
    neighbour 3 passes the filters and holds cost 1 to node 4, so the
    candidate as the specification words it is 5 + 1 = 6, but router 1
    adopts (3, 3): the cost used for the neighbour is the cost 2 of router
    1's table entry for node 3, not the cost of the link. *)
Lemma relaxLink_uses_table_cost_not_link_cost :
  ∃ links nodes routers0 routers router j nb s' router',
    initTopology fourNodeTopology [] ∅ [] = Some (links, nodes, routers0) ∧
    foldM (scanDestination 0 links) (routers0, false) [1; 2; 3] = Some (routers, true) ∧
    routers !! 0%nat = Some router ∧ getID router = 1 ∧
    mkLink 1 3 5 ∈ links ∧
    neighbourOf (mkLink 1 3 5) (getID router) = 3 ∧
    getRouterByID routers 3 = Some (j, nb) ∧
    getNextHop nb 4 ≠ getID router ∧
    specCandidate (mkLink 1 3 5) nb 4 = 6 ∧
    relaxLink 0 4 (mkScan routers (getPathCost router 4) (-1) true) (mkLink 1 3 5)
      = Some s' ∧
    scanRouters s' !! 0%nat = Some router' ∧
    RT router' !! 4 = Some (3, 3) ∧
    curPathCost s' = 3 ∧
    curPathCost s' ≠ specCandidate (mkLink 1 3 5) nb 4.
Proof.
  eexists _, _, _, _, _, _, _, _, _.
  split; [vm_compute; reflexivity|].
  split; [vm_compute; reflexivity|].
  split; [vm_compute; reflexivity|].
  split; [vm_compute; reflexivity|].
  split; [rewrite !elem_of_cons; auto|].
  split; [vm_compute; reflexivity|].
  split; [vm_compute; reflexivity|].
  split; [by vm_compute|].
  split; [vm_compute; reflexivity|].
  split; [vm_compute; reflexivity|].
  split; [vm_compute; reflexivity|].
  split; [vm_compute; reflexivity|].
  split; [vm_compute; reflexivity|].
  by vm_compute.
Qed.

(** C5 (counterexample) — two topologies on which [doBellmanFordAlg] runs
    to completion and a router's entry for its own id is not (self, 0):
    with the link [1 1 5] from node 1 to itself, seeding overwrites the self
    route of router 1 with (1, 5) and no sweep touches it; with the links
    [0 4 0; 0 -1 -1; -1 4 2], one of which has a negative cost, router -1
    ends with the route (4, -2) to itself. *)
Lemma self_route_not_kept :
  (∃ links nodes routers routers' r,
     initTopology selfLinkTopology [] ∅ [] = Some (links, nodes, routers) ∧
     doBellmanFordAlg 1 routers nodes links = Done routers' ∧
     routers' !! 0%nat = Some r ∧ getID r = 1 ∧ RT r !! 1 = Some (1, 5)) ∧
  (∃ links nodes routers routers' r,
     initTopology negCostTopology [] ∅ [] = Some (links, nodes, routers) ∧
     doBellmanFordAlg 3 routers nodes links = Done routers' ∧
     routers' !! 0%nat = Some r ∧ getID r = -1 ∧ RT r !! (-1) = Some (4, -2)).
Proof.
  split; eexists _, _, _, _, _.
  - split; [vm_compute; reflexivity|].
    split; [vm_compute; reflexivity|].
    split; [vm_compute; reflexivity|].
    split; vm_compute; reflexivity.
  - split; [vm_compute; reflexivity|].
    split; [vm_compute; reflexivity|].
    split; [vm_compute; reflexivity|].
    split; vm_compute; reflexivity.
Qed.

(** The bound [costMax] matters: with a link cost close to the largest
    [int], the sum 9999 + 2147483646 overflows; when it wraps around, the
    candidate is negative and router 0 ends with the route (4, -2147473650)
    to itself. *)
Lemma self_route_lost_to_overflow :
  ∃ links nodes routers routers' r,
    initTopology overflowTopology [] ∅ [] = Some (links, nodes, routers) ∧
    doBellmanFordAlg 3 routers nodes links = Done routers' ∧
    routers' !! 0%nat = Some r ∧ getID r = 0 ∧ RT r !! 0 = Some (4, -2147473650).
Proof.
  eexists _, _, _, _, _.
  split; [vm_compute; reflexivity|].
  split; [vm_compute; reflexivity|].
  split; [vm_compute; reflexivity|].
  split; vm_compute; reflexivity.
Qed.

(** ** The equal-cost branch *)

(** While [newNextHop] still holds its initial -1, an equal-cost candidate
    is adopted exactly when the neighbour's id is below -1: the next hop the
    table holds for the destination is not consulted. *)
Lemma relaxLink_tie_at_start i d s link router j nb :
  scanRouters s !! i = Some router →
  neighbourOf link (getID router) ≠ -1 →
  neighbourOf link (getID router) ≠ d →
  getRouterByID (scanRouters s) (neighbourOf link (getID router)) = Some (j, nb) →
  getNextHop nb d ≠ getID router →
  newNextHop s = -1 →
  int_add (getPathCost router (neighbourOf link (getID router))) (getPathCost nb d)
    = curPathCost s →
  relaxLink i d s link =
    Some (if decide (neighbourOf link (getID router) < -1)
          then adopt i d s router (neighbourOf link (getID router)) (curPathCost s)
          else s).
Proof.
  intros Hi HN1 HNd Hnb Hsh Hhop Hc.
  unfold relaxLink. rewrite Hi. cbv zeta.
  rewrite decide_False by tauto. rewrite Hnb. simpl.
  rewrite decide_False by done. rewrite Hc, Hhop.
  destruct (decide (neighbourOf link (getID router) < -1)).
  - by rewrite decide_True by (by right).
  - by rewrite decide_False by lia.
Qed.

(** C7 — Equal-cost tie-break: on the topology
    [-7 3 1; 3 2 1; -7 -5 1; -5 4 0; 4 2 1], after the first sweep router -7
    holds the route (next hop 3, cost 2) to node 2.  In the second sweep its
    scan for destination 2 starts with [newNextHop = -1]; the links before
    [-7 -5 1] change nothing; on the link [-7 -5 1] the candidate through
    neighbour -5 costs 2, equal to the current cost, and the comparison
    [neighbourID < newNextHop] is made against the -1 the variable was
    initialised with (no neighbour has been assigned to it in this scan):
    -5 < -1 holds, so the entry (3, 2) that the table held at the start of
    the scan is replaced by (-5, 2). *)
Theorem tie_break_replaces_incumbent :
  ∃ links nodes routers0 routers1 router j nb s' router',
    initTopology tieTopology [] ∅ [] = Some (links, nodes, routers0) ∧
    sweep routers0 nodes links = Some (routers1, true) ∧
    routers1 !! 0%nat = Some router ∧ getID router = -7 ∧
    RT router !! 2 = Some (3, 2) ∧
    foldM (relaxLink 0 2) (mkScan routers1 (getPathCost router 2) (-1) false)
          [mkLink (-7) 3 1; mkLink 3 2 1]
      = Some (mkScan routers1 (getPathCost router 2) (-1) false) ∧
    neighbourOf (mkLink (-7) (-5) 1) (getID router) = -5 ∧
    getRouterByID routers1 (-5) = Some (j, nb) ∧
    getNextHop nb 2 ≠ getID router ∧
    int_add (getPathCost router (-5)) (getPathCost nb 2) = getPathCost router 2 ∧
    relaxLink 0 2 (mkScan routers1 (getPathCost router 2) (-1) false)
              (mkLink (-7) (-5) 1) = Some s' ∧
    newNextHop s' = -5 ∧ updated s' = true ∧
    scanRouters s' !! 0%nat = Some router' ∧
    RT router' !! 2 = Some (-5, 2).
Proof.
  eexists _, _, _, _, _, _, _, _, _.
  split; [vm_compute; reflexivity|].
  split; [vm_compute; reflexivity|].
  split; [vm_compute; reflexivity|].
  split; [vm_compute; reflexivity|].
  split; [vm_compute; reflexivity|].
  split; [vm_compute; reflexivity|].
  split; [vm_compute; reflexivity|].
  split; [vm_compute; reflexivity|].
  split; [by vm_compute|].
  split; [vm_compute; reflexivity|].
  split; [vm_compute; reflexivity|].
  split; [vm_compute; reflexivity|].
  split; [vm_compute; reflexivity|].
  split; vm_compute; reflexivity.
Qed.

(** ** Router lookup *)

(** C9 — [getRouterByID] returns a reference to the first router of the
    collection whose [getID()] equals the requested id (its position and
    the router stored there) when the collection has such a router, and
    throws exactly when no router of the collection has that id; it never
    returns a router that is not in the collection. *)
Theorem getRouterByID_spec (routers : list Router) (id : Z) :
  match getRouterByID routers id with
  | Some (i, r) =>
      routers !! i = Some r ∧ getID r = id ∧
      ∀ j r', routers !! j = Some r' → (j < i)%nat → getID r' ≠ id
  | None => ∀ r, r ∈ routers → getID r ≠ id
  end ∧
  ((∃ r, r ∈ routers ∧ getID r = id) ↔ is_Some (getRouterByID routers id)).
Proof.
  split.
  - destruct (getRouterByID routers id) as [[i r]|] eqn:E.
    + by apply getRouterByID_Some.
    + by apply getRouterByID_None.
  - rewrite getRouterByID_is_Some, list_elem_of_fmap. unfold getID.
    split; intros (r & ? & ?); exists r; done.
Qed.

(** ** Applying a change *)

Lemma removeLink_spec links change link :
  link ∈ removeLink links change ↔ link ∈ links ∧ ¬ sameEnds change link.
Proof. unfold removeLink. rewrite list_elem_of_filter. tauto. Qed.

Lemma removeLink_absent links change :
  (∀ link, link ∈ links → ¬ sameEnds change link) → removeLink links change = links.
Proof.
  unfold removeLink. induction links as [|a links IH]; intros H; [done|].
  rewrite filter_cons_True by apply H, list_elem_of_here.
  f_equal. apply IH. intros link ?. by apply H, list_elem_of_further.
Qed.

(** The routers at both ends of the last link seeded hold the direct route
    with the cost of that link. *)
Lemma addDirect_routes routers link routers' :
  addDirect routers link = Some routers' →
  (∃ i r, getRouterByID routers' (node1 link) = Some (i, r) ∧
          RT r !! node2 link = Some (node2 link, pathCost link)) ∧
  (∃ i r, getRouterByID routers' (node2 link) = Some (i, r) ∧
          RT r !! node1 link = Some (node1 link, pathCost link)).
Proof.
  unfold addDirect, addRouteByID.
  destruct (getRouterByID routers (node1 link)) as [[i x]|] eqn:H1; [|done].
  pose proof H1 as (Hi & Hidx & _)%getRouterByID_Some.
  destruct (getRouterByID (<[i:=_]> routers) (node2 link)) as [[k y]|] eqn:H2; [|done].
  intros [= <-].
  pose proof H2 as (Hk & Hidy & _)%getRouterByID_Some.
  assert (i < length routers)%nat as Hlen by (by eapply lookup_lt_Some).
  split.
  - exists i. rewrite (getRouterByID_insert _ _ _ _ _ Hk) by done.
    rewrite (getRouterByID_insert _ _ _ _ _ Hi) by done.
    rewrite H1. simpl. destruct (decide (i = i)) as [_|]; [|done].
    eexists. split; [done|]. destruct (decide (i = k)) as [Hik|Hik].
    + subst k. rewrite list_lookup_insert_eq in Hk by done. injection Hk as <-.
      unfold getID in *. simpl in Hidy. simpl. unfold RoutingTable.addRoute.
      rewrite <- Hidy, Hidx. by rewrite lookup_insert_eq.
    + simpl. unfold RoutingTable.addRoute. by rewrite lookup_insert_eq.
  - exists k. rewrite (getRouterByID_insert _ _ _ _ _ Hk) by done.
    rewrite H2. simpl. destruct (decide (k = k)) as [_|]; [|done].
    eexists. split; [done|]. simpl. unfold RoutingTable.addRoute.
    by rewrite lookup_insert_eq.
Qed.

(** C2 (amended) — [applyChange] on the topology: both endpoints of the
    change record are added to the node-id set; if the cost is the removal
    sentinel -999, every link between node1 and node2, in either
    orientation, is deleted from the link list and the other links are kept;
    for any other cost the record (node1, node2, cost) is appended to the
    link list, whether or not a link between node1 and node2 is already
    there (an earlier record for the pair is kept), and the rebuilt routers of
    node1 and node2 hold the direct route to each other with the new cost. *)
Theorem applyChange_topology change routers nodes links routers' nodes' links' :
  applyChange change routers nodes links = Some (routers', nodes', links') →
  nodes' = {[node2 change]} ∪ ({[node1 change]} ∪ nodes) ∧
  (pathCost change = -999 →
     links' = removeLink links change ∧
     ∀ link, link ∈ links' ↔ link ∈ links ∧ ¬ sameEnds change link) ∧
  (pathCost change ≠ -999 →
     links' = links ++ [mkLink (node1 change) (node2 change) (pathCost change)] ∧
     (∃ i r, getRouterByID routers' (node1 change) = Some (i, r) ∧
             RT r !! node2 change = Some (node2 change, pathCost change)) ∧
     (∃ i r, getRouterByID routers' (node2 change) = Some (i, r) ∧
             RT r !! node1 change = Some (node1 change, pathCost change))).
Proof.
  unfold applyChange.
  destruct (addDirectLinks _ _) as [rs|] eqn:E; [|done].
  intros [= <- <- <-]. split; [done|]. split; intros Hc.
  - rewrite decide_True by done. split; [done|]. intros link. apply removeLink_spec.
  - rewrite decide_False by done. split; [done|].
    rewrite decide_False in E by done. unfold addDirectLinks in E.
    rewrite foldM_app in E.
    destruct (foldM addDirect _ links) as [rs1|]; simpl in E; [|done].
    destruct (addDirect rs1 _) as [rs2|] eqn:E2; [|done]. injection E as <-.
    apply addDirect_routes in E2. done.
Qed.

(** C2 (counterexample) — changing the cost of the existing link 1–2 from
    1 to 7: the link list afterwards holds two links between 1 and 2, the
    old record with cost 1 and the new one with cost 7. *)
Lemma applyChange_keeps_old_link :
  ∃ routers' nodes' links',
    applyChange (mkLink 1 2 7) [] {[1; 2]} [mkLink 1 2 1]
      = Some (routers', nodes', links') ∧
    links' = [mkLink 1 2 1; mkLink 1 2 7] ∧
    length (filter (sameEnds (mkLink 1 2 7)) links') = 2%nat.
Proof.
  eexists _, _, _. split; [vm_compute; reflexivity|]. split; vm_compute; reflexivity.
Qed.

(** C3 — [applyChange] rebuilds rather than patches: two calls that differ
    only in the router collection passed in give the same result, and the
    routers returned are the ones the seeding loops build from the node-id
    set and the link list as they are after the mutation. *)
Theorem applyChange_forgets_routers change routers1 routers2 nodes links :
  applyChange change routers1 nodes links = applyChange change routers2 nodes links ∧
  ∀ routers' nodes' links',
    applyChange change routers1 nodes links = Some (routers', nodes', links') →
    addDirectLinks (emplaceRouters [] nodes') links' = Some routers'.
Proof.
  split; [done|]. intros routers' nodes' links'. apply applyChange_seeded.
Qed.

(** C8 — removing a link that is not there: for a change record with cost
    -999 whose endpoints are known nodes with no link between them, when
    [routers] is what [doBellmanFordAlg] returned for the current topology,
    [applyChange] succeeds and returns the node-id set and the link list
    unchanged, and [doBellmanFordAlg] on the rebuilt routers returns, after
    the same number of sweeps, the collection [routers] again: every routing
    table is what it was before the change. *)
Theorem removal_of_absent_link_is_noop change nodes links seed fuel routers :
  pathCost change = -999 →
  node1 change ∈ nodes → node2 change ∈ nodes →
  (∀ link, link ∈ links → ¬ sameEnds change link) →
  seeded nodes links seed →
  doBellmanFordAlg fuel seed nodes links = Done routers →
  ∃ rebuilt,
    applyChange change routers nodes links = Some (rebuilt, nodes, links) ∧
    doBellmanFordAlg fuel rebuilt nodes links = Done routers.
Proof.
  intros Hc H1 H2 Habs Hseed Hrun. exists seed. split; [|done].
  unfold applyChange, clear. rewrite decide_True by done.
  rewrite (removeLink_absent _ _ Habs).
  assert ({[node2 change]} ∪ ({[node1 change]} ∪ nodes) = nodes) as ->.
  { apply set_eq. intros x. rewrite !elem_of_union, !elem_of_singleton.
    split; [intros [->|[->|?]]; done|auto]. }
  unfold seeded in Hseed. by rewrite Hseed.
Qed.

(** ** Messages to a destination outside the node set *)

(** A router whose next hop for the destination is itself keeps the hop walk
    going for ever. *)
Lemma hopWalk_stuck routers current d j r :
  getRouterByID routers current = Some (j, r) →
  getNextHop r d = current → current ≠ d →
  ∀ fuel outMessage, hopWalk fuel routers current d outMessage = OutOfFuel.
Proof.
  intros Hg Hhop Hne. induction fuel as [|fuel IH]; intros outMessage; simpl; [done|].
  rewrite decide_True by done. rewrite Hg, Hhop. apply IH.
Qed.

Lemma sendMessage_walk_never_ends routers msg i src c j rc :
  getRouterByID routers (sourceID msg) = Some (i, src) →
  getPathCost src (destinationID msg) ≠ 9999 →
  sourceID msg ≠ destinationID msg →
  getNextHop src (destinationID msg) = c → c ≠ destinationID msg →
  getRouterByID routers c = Some (j, rc) →
  getNextHop rc (destinationID msg) = c →
  ∀ fuel, sendMessage fuel routers msg = OutOfFuel.
Proof.
  intros Hg Hcost Hne Hhop Hc Hgc Hself fuel. unfold sendMessage.
  rewrite Hg. cbv zeta. rewrite decide_False by done.
  destruct fuel as [|fuel]; [done|]. cbn [hopWalk].
  rewrite decide_True by done. rewrite Hg, Hhop.
  by erewrite hopWalk_stuck.
Qed.

(** On a well-formed collection, a message to a destination that is neither
    a node nor -1 makes the lookup of router -1 throw, when -1 is not a node
    either. *)
Lemma unknown_destination_throws nodes routers msg fuel :
  wellFormed nodes routers →
  sourceID msg ∈ nodes → destinationID msg ∉ nodes →
  destinationID msg ≠ -1 → (-1) ∉ nodes →
  (∃ i src, getRouterByID routers (sourceID msg) = Some (i, src) ∧
            getPathCost src (destinationID msg) = -1 ∧
            getNextHop src (destinationID msg) = -1) ∧
  getRouterByID routers (-1) = None ∧
  sendMessage (S (S fuel)) routers msg = Thrown ∧
  ∀ outFile rest,
    sendMessages (S (S fuel)) outFile routers (msg :: rest) = (outFile, Thrown).
Proof.
  intros Hwf Hsrc Hdst Hd1 Hn1.
  destruct (wellFormed_router_of_node _ _ _ Hwf Hsrc) as (i & src & Hg & Hi & Hid).
  assert (RT src !! destinationID msg = None) as Hnone.
  { destruct Hwf as [_ Hdom]. pose proof (Forall_lookup_1 _ _ _ _ Hdom Hi) as Hx.
    simpl in Hx. apply not_elem_of_dom. by rewrite Hx. }
  assert (getPathCost src (destinationID msg) = -1) as Hcost.
  { unfold getPathCost, RoutingTable.getPathCost. by rewrite Hnone. }
  assert (getNextHop src (destinationID msg) = -1) as Hhop.
  { unfold getNextHop, RoutingTable.getNextHop. by rewrite Hnone. }
  assert (getRouterByID routers (-1) = None) as Hno.
  { destruct (getRouterByID routers (-1)) as [p|] eqn:E; [|done].
    assert (is_Some (getRouterByID routers (-1))) as Hs by eauto.
    apply getRouterByID_is_Some in Hs. destruct Hwf as [Hids _].
    rewrite Hids in Hs. by apply elem_of_in_order in Hs. }
  assert (sendMessage (S (S fuel)) routers msg = Thrown) as Hsend.
  { unfold sendMessage. rewrite Hg. cbv zeta. rewrite Hcost.
    rewrite decide_False by done. simpl.
    rewrite decide_True by congruence. rewrite Hg, Hhop.
    rewrite decide_True by congruence. by rewrite Hno. }
  split; [by exists i, src|]. split; [done|]. split; [done|].
  intros outFile rest. cbn [sendMessages]. by rewrite Hsend.
Qed.

(** C10 (amended) — for every message whose destination id is neither in
    the node set nor -1, while its source id is in the node set and -1 is
    not a node id, on the routers [doBellmanFordAlg] returned for the seeded
    topology: the source router's [getPathCost] for the destination is
    -1, not 9999, so [sendMessages] does not take the unreachable-reporting
    branch; the hop walk starts, [getNextHop] returns -1, and the lookup of
    a router with id -1 throws.  Nothing is written for the message. *)
Theorem message_to_unknown_destination_throws nodes links seed fuel0 routers msg fuel :
  seeded nodes links seed →
  doBellmanFordAlg fuel0 seed nodes links = Done routers →
  sourceID msg ∈ nodes → destinationID msg ∉ nodes →
  destinationID msg ≠ -1 → (-1) ∉ nodes →
  (∃ i src, getRouterByID routers (sourceID msg) = Some (i, src) ∧
            getPathCost src (destinationID msg) = -1 ∧
            getNextHop src (destinationID msg) = -1) ∧
  getRouterByID routers (-1) = None ∧
  sendMessage (S (S fuel)) routers msg = Thrown ∧
  ∀ outFile rest,
    sendMessages (S (S fuel)) outFile routers (msg :: rest) = (outFile, Thrown).
Proof.
  intros Hseed Hrun. apply unknown_destination_throws.
  eapply doBellmanFordAlg_wellFormed; [|exact Hrun]. by eapply seeded_shape.
Qed.

(** C10 (counterexample) — two messages to a destination outside the node
    set, from a source inside it, for which no lookup throws.  On the
    converged triangle [1 2 1; 2 3 1; 1 3 5], a message from 1 to -1 is
    written out with cost -1 and the single hop 1: the -1 that [getNextHop]
    returns equals the destination and ends the walk.  On the topology
    [1 -1 1], whose node set contains -1, a message from 1 to 7 makes the walk
    reach router -1, whose next hop for 7 is again -1: the walk never ends. *)
Lemma message_to_unknown_destination_without_throw :
  (∃ links nodes routers0 routers,
     initTopology triangleTopology [] ∅ [] = Some (links, nodes, routers0) ∧
     doBellmanFordAlg 2 routers0 nodes links = Done routers ∧
     1 ∈ nodes ∧ ((-1) ∉ nodes) ∧
     sendMessage 2 routers (mkMessage 1 (-1) "x")
       = Done ("from 1 to -1 cost -1 hops 1 message x" +:+ nl +:+ nl)) ∧
  (∃ links nodes routers0 routers,
     initTopology withSentinelNode [] ∅ [] = Some (links, nodes, routers0) ∧
     doBellmanFordAlg 1 routers0 nodes links = Done routers ∧
     1 ∈ nodes ∧ (7 ∉ nodes) ∧
     ∀ fuel, sendMessage fuel routers (mkMessage 1 7 "x") = OutOfFuel).
Proof.
  split; eexists _, _, _, _.
  - split; [vm_compute; reflexivity|].
    split; [vm_compute; reflexivity|].
    split; [by vm_compute|]. split; [by vm_compute|].
    vm_compute; reflexivity.
  - split; [vm_compute; reflexivity|].
    split; [vm_compute; reflexivity|].
    split; [by vm_compute|]. split; [by vm_compute|].
    eapply sendMessage_walk_never_ends;
      [vm_compute; reflexivity|by vm_compute|done|vm_compute; reflexivity|done
      |vm_compute; reflexivity|vm_compute; reflexivity].
Qed.

(** ** The theorems at work on concrete topologies *)

Ltac by_computation := apply (bool_decide_unpack _); vm_compute; exact I.

Lemma relaxLink_candidate_cost_witness :
  ∃ router nb,
    seedRouters triangleNodes triangleTopology !! 0%nat = Some router ∧
    getRouterByID (seedRouters triangleNodes triangleTopology)
                  (neighbourOf (mkLink 1 2 1) (getID router)) = Some (1%nat, nb) ∧
    getPathCost router 3 = 5 ∧
    int_add (getPathCost router (neighbourOf (mkLink 1 2 1) (getID router)))
            (getPathCost nb 3) = 2 ∧
    let s := mkScan (seedRouters triangleNodes triangleTopology)
                    (getPathCost router 3) (-1) false in
    let N := neighbourOf (mkLink 1 2 1) (getID router) in
    let candidate := int_add (getPathCost router N) (getPathCost nb 3) in
    curPathCost s = getPathCost router 3 ∧
    (candidate < getPathCost router 3 →
     relaxLink 0 3 s (mkLink 1 2 1) = Some (adopt 0 3 s router N candidate)) ∧
    (getPathCost router 3 < candidate → relaxLink 0 3 s (mkLink 1 2 1) = Some s) ∧
    (candidate = getPathCost router 3 →
     relaxLink 0 3 s (mkLink 1 2 1) =
       Some (if decide (N < newNextHop s) then adopt 0 3 s router N candidate else s)).
Proof.
  eexists _, _.
  split; [vm_compute; reflexivity|].
  split; [vm_compute; reflexivity|].
  split; [vm_compute; reflexivity|].
  split; [vm_compute; reflexivity|].
  cbv zeta.
  lazymatch goal with
  | |- context [getPathCost ?router 3 < int_add _ (getPathCost ?nb 3)] =>
      apply (relaxLink_candidate_cost (seedRouters triangleNodes triangleTopology)
               false 0 router 3 [] _ (mkLink 1 2 1) router 1%nat nb)
  end.
  - vm_compute; reflexivity.
  - reflexivity.
  - vm_compute; reflexivity.
  - by vm_compute.
  - by vm_compute.
  - vm_compute; reflexivity.
  - by vm_compute.
Defined.

Lemma applyChange_topology_witness :
  ∃ routers' nodes' links',
    applyChange (mkLink 1 2 7) [] {[1; 2]} [mkLink 1 2 1] = Some (routers', nodes', links') ∧
    nodes' = {[2]} ∪ ({[1]} ∪ {[1; 2]}) ∧
    (7 = -999 →
       links' = removeLink [mkLink 1 2 1] (mkLink 1 2 7) ∧
       ∀ link, link ∈ links' ↔ link ∈ [mkLink 1 2 1] ∧ ¬ sameEnds (mkLink 1 2 7) link) ∧
    (7 ≠ -999 →
       links' = [mkLink 1 2 1] ++ [mkLink 1 2 7] ∧
       (∃ i r, getRouterByID routers' 1 = Some (i, r) ∧ RT r !! 2 = Some (2, 7)) ∧
       (∃ i r, getRouterByID routers' 2 = Some (i, r) ∧ RT r !! 1 = Some (1, 7))).
Proof.
  eexists _, _, _. split; [vm_compute; reflexivity|].
  apply (applyChange_topology (mkLink 1 2 7) [] {[1; 2]} [mkLink 1 2 1]).
  vm_compute; reflexivity.
Defined.

Lemma applyChange_forgets_routers_witness :
  applyChange (mkLink 1 3 2) [] triangleNodes triangleTopology
    = applyChange (mkLink 1 3 2) (seedRouters triangleNodes triangleTopology)
                  triangleNodes triangleTopology.
Proof.
  apply (applyChange_forgets_routers (mkLink 1 3 2) []
           (seedRouters triangleNodes triangleTopology) triangleNodes triangleTopology).
Defined.

Lemma doBellmanFordAlg_terminates_witness :
  ∃ routers',
    doBellmanFordAlg
      (S (Z.to_nat (totalCost triangleNodes (seedRouters triangleNodes triangleTopology)
                    - floorCost triangleNodes)))
      (seedRouters triangleNodes triangleTopology) triangleNodes triangleTopology
      = Done routers' ∧
    sweep routers' triangleNodes triangleTopology = Some (routers', false).
Proof.
  apply doBellmanFordAlg_terminates.
  - by_computation.
  - by_computation.
  - vm_compute; reflexivity.
Defined.

Lemma self_route_after_convergence_witness :
  ∃ routers',
    doBellmanFordAlg 3 (seedRouters triangleNodes triangleTopology)
                     triangleNodes triangleTopology = Done routers' ∧
    ∀ r, r ∈ routers' → RT r !! ID r = Some (ID r, 0).
Proof.
  eexists. split; [vm_compute; reflexivity|].
  refine (proj1 (self_route_after_convergence triangleNodes triangleTopology
                   (seedRouters triangleNodes triangleTopology) _ _ _) 3%nat _ _).
  - by_computation.
  - by_computation.
  - vm_compute; reflexivity.
  - vm_compute; reflexivity.
Defined.

Lemma doBellmanFordAlg_idempotent_witness :
  ∃ routers',
    doBellmanFordAlg 3 (seedRouters triangleNodes triangleTopology)
                     triangleNodes triangleTopology = Done routers' ∧
    doBellmanFordAlg 1 routers' triangleNodes triangleTopology = Done routers'.
Proof.
  eexists. split; [vm_compute; reflexivity|].
  apply (doBellmanFordAlg_idempotent 3 (seedRouters triangleNodes triangleTopology)).
  vm_compute; reflexivity.
Defined.

Lemma removal_of_absent_link_is_noop_witness :
  ∃ routers,
    doBellmanFordAlg 3 (seedRouters triangleNodes lineTopology) triangleNodes lineTopology
      = Done routers ∧
    ∃ rebuilt,
      applyChange (mkLink 1 3 (-999)) routers triangleNodes lineTopology
        = Some (rebuilt, triangleNodes, lineTopology) ∧
      doBellmanFordAlg 3 rebuilt triangleNodes lineTopology = Done routers.
Proof.
  eexists. split; [vm_compute; reflexivity|].
  apply (removal_of_absent_link_is_noop (mkLink 1 3 (-999)) triangleNodes lineTopology
           (seedRouters triangleNodes lineTopology) 3).
  - reflexivity.
  - by_computation.
  - by_computation.
  - apply Forall_forall. by_computation.
  - vm_compute; reflexivity.
  - vm_compute; reflexivity.
Defined.

Lemma getRouterByID_spec_witness :
  match getRouterByID (seedRouters triangleNodes triangleTopology) 2 with
  | Some (i, r) =>
      seedRouters triangleNodes triangleTopology !! i = Some r ∧ getID r = 2 ∧
      ∀ j r', seedRouters triangleNodes triangleTopology !! j = Some r' →
              (j < i)%nat → getID r' ≠ 2
  | None => ∀ r, r ∈ seedRouters triangleNodes triangleTopology → getID r ≠ 2
  end ∧
  ((∃ r, r ∈ seedRouters triangleNodes triangleTopology ∧ getID r = 2) ↔
   is_Some (getRouterByID (seedRouters triangleNodes triangleTopology) 2)).
Proof. apply (getRouterByID_spec (seedRouters triangleNodes triangleTopology) 2). Defined.

Lemma message_to_unknown_destination_throws_witness :
  ∃ routers,
    doBellmanFordAlg 3 (seedRouters triangleNodes triangleTopology)
                     triangleNodes triangleTopology = Done routers ∧
    (∃ i src, getRouterByID routers 1 = Some (i, src) ∧
              getPathCost src 7 = -1 ∧ getNextHop src 7 = -1) ∧
    getRouterByID routers (-1) = None ∧
    sendMessage 2 routers (mkMessage 1 7 "hello") = Thrown ∧
    ∀ outFile rest,
      sendMessages 2 outFile routers (mkMessage 1 7 "hello" :: rest) = (outFile, Thrown).
Proof.
  eexists. split; [vm_compute; reflexivity|].
  apply (message_to_unknown_destination_throws triangleNodes triangleTopology
           (seedRouters triangleNodes triangleTopology) 3 _ (mkMessage 1 7 "hello") 0).
  - vm_compute; reflexivity.
  - vm_compute; reflexivity.
  - by_computation.
  - by_computation.
  - by_computation.
  - by_computation.
Defined.

(** ** Strings *)

Lemma string_app_cons a (s t : string) : String a s +:+ t = String a (s +:+ t).
Proof. reflexivity. Qed.

Lemma string_app_nil_l (s : string) : EmptyString +:+ s = s.
Proof. reflexivity. Qed.

Lemma string_app_nil_r (s : string) : s +:+ EmptyString = s.
Proof. induction s as [|a s IH]; [done|]. by rewrite string_app_cons, IH. Qed.

Lemma string_app_assoc (s1 s2 s3 : string) : (s1 +:+ s2) +:+ s3 = s1 +:+ s2 +:+ s3.
Proof.
  induction s1 as [|a s1 IH]; [done|]. by rewrite !string_app_cons, IH.
Qed.

(** ** Routing tables through their interface *)

(** X1 — the constructor [RoutingTable(myID, nodes)] builds a table with
    exactly one entry per node id: [contains] holds for the node ids and for
    nothing else; the entry for [myID] is (next hop [myID], cost 0), every
    other entry is (next hop -1, cost 9999); for an id outside the node set
    both getters return -1. *)
Theorem RoutingTable_constructor myID nodes d :
  RoutingTable.contains (RoutingTable.make myID nodes) d = bool_decide (d ∈ nodes) ∧
  RoutingTable.getNextHop (RoutingTable.make myID nodes) d =
    (if decide (d ∈ nodes) then if decide (d = myID) then myID else -1 else -1) ∧
  RoutingTable.getPathCost (RoutingTable.make myID nodes) d =
    (if decide (d ∈ nodes) then if decide (d = myID) then 0 else 9999 else -1).
Proof.
  unfold RoutingTable.contains, RoutingTable.getNextHop, RoutingTable.getPathCost.
  rewrite make_lookup. unfold seedEntry.
  destruct (decide (d ∈ nodes)) as [Hd|Hd].
  - rewrite (bool_decide_eq_true_2 (d ∈ nodes)) by done.
    rewrite bool_decide_eq_true_2 by eauto.
    destruct (decide (d = myID)) as [->|]; done.
  - rewrite (bool_decide_eq_false_2 (d ∈ nodes)) by done.
    rewrite bool_decide_eq_false_2 by (by apply is_Some_None). done.
Qed.

(** X2 — [addRoute] stores or overwrites one entry and nothing else: after
    [addRoute(d, h, c)] the getters return [h] and [c] for [d] and
    [contains(d)] holds, every other destination reads as before, the router
    keeps its id, and a second [addRoute] for the same destination replaces
    the first. *)
Theorem addRoute_round_trip r d h c d' h' c' :
  getID (addRoute r d h c) = getID r ∧
  getNextHop (addRoute r d h c) d' = (if decide (d' = d) then h else getNextHop r d') ∧
  getPathCost (addRoute r d h c) d' = (if decide (d' = d) then c else getPathCost r d') ∧
  RoutingTable.contains (getRoutingTable (addRoute r d h c)) d' =
    (if decide (d' = d) then true else RoutingTable.contains (getRoutingTable r) d') ∧
  addRoute (addRoute r d h c) d h' c' = addRoute r d h' c'.
Proof.
  split; [done|]. split; [apply getNextHop_addRoute|].
  split; [apply getPathCost_addRoute|]. split.
  - unfold RoutingTable.contains, getRoutingTable, addRoute, RoutingTable.addRoute. simpl.
    destruct (decide (d' = d)) as [->|Hne].
    + rewrite lookup_insert_eq. by rewrite bool_decide_eq_true_2 by eauto.
    + by rewrite lookup_insert_ne.
  - unfold addRoute, RoutingTable.addRoute. simpl. f_equal. apply insert_insert_eq.
Qed.

(** ** Removing links *)

(** X3 — [removeLink] looks at the two end points only: the cost of
    [linkToRemove] and the order of its end points make no difference; what
    it returns holds no link between the two nodes, is a sub-list of the
    link list (the links kept stay in their order), together with the links
    removed it accounts for every link, and removing again changes nothing. *)
Theorem removeLink_properties links a b c c' :
  removeLink links (mkLink a b c) = removeLink links (mkLink b a c') ∧
  Forall (fun link => ¬ sameEnds (mkLink a b c) link) (removeLink links (mkLink a b c)) ∧
  sublist (removeLink links (mkLink a b c)) links ∧
  (length (removeLink links (mkLink a b c)) +
     length (filter (sameEnds (mkLink a b c)) links) = length links)%nat ∧
  removeLink (removeLink links (mkLink a b c)) (mkLink a b c)
    = removeLink links (mkLink a b c).
Proof.
  split; [|split; [|split; [|split]]].
  - unfold removeLink. apply list_filter_iff. intros link.
    unfold sameEnds. simpl. tauto.
  - apply Forall_forall. intros link Hin. by apply removeLink_spec in Hin as [_ ?].
  - apply sublist_filter.
  - unfold removeLink. induction links as [|x links IH]; [done|].
    destruct (decide (sameEnds (mkLink a b c) x)) as [Hx|Hx].
    + rewrite filter_cons_False by tauto. rewrite filter_cons_True by done.
      simpl. lia.
    + rewrite filter_cons_True by done. rewrite filter_cons_False by done.
      simpl. lia.
  - apply removeLink_absent. intros link Hin.
    by apply removeLink_spec in Hin as [_ ?].
Qed.

(** ** Seeding never throws on links between known nodes *)

Lemma elem_of_link_ends records (nodes : gset Z) n :
  n ∈ foldl (fun ns l => {[node2 l]} ∪ ({[node1 l]} ∪ ns)) nodes records ↔
  n ∈ nodes ∨ ∃ link, link ∈ records ∧ (n = node1 link ∨ n = node2 link).
Proof.
  revert nodes. induction records as [|a l IH]; intros nodes; simpl.
  - split; [auto|]. intros [?|(link & Hin & _)]; [done|]. by apply elem_of_nil in Hin.
  - rewrite IH, !elem_of_union, !elem_of_singleton. split.
    + intros [[->|[->|?]]|(link & Hin & Hn)]; auto.
      * right. exists a. split; [apply list_elem_of_here|auto].
      * right. exists a. split; [apply list_elem_of_here|auto].
      * right. exists link. split; [by apply list_elem_of_further|done].
    + intros [?|(link & Hin & Hn)]; [auto|].
      apply elem_of_cons in Hin as [->|Hin]; [|right; by exists link].
      destruct Hn as [->| ->]; auto.
Qed.

Lemma addRouteByID_wellFormed nodes routers id d h c :
  wellFormed nodes routers → id ∈ nodes → d ∈ nodes →
  ∃ routers', addRouteByID routers id d h c = Some routers' ∧ wellFormed nodes routers'.
Proof.
  intros Hwf Hid Hd. unfold addRouteByID.
  destruct (wellFormed_router_of_node _ _ _ Hwf Hid) as (j & x & -> & Hj & _).
  eexists. split; [done|]. by apply wellFormed_insert.
Qed.

Lemma seeding_never_throws nodes links :
  linkEndsIn nodes links →
  ∃ routers, seeded nodes links routers ∧ wellFormed nodes routers.
Proof.
  intros Hends. unfold seeded, addDirectLinks.
  apply (foldM_total (wellFormed nodes)); [|apply emplaceRouters_wellFormed].
  intros rs link Hin Hwf. destruct (Hends link Hin) as [H1 H2]. unfold addDirect.
  destruct (addRouteByID_wellFormed nodes rs (node1 link) (node2 link) (node2 link)
              (pathCost link)) as (rs1 & -> & Hwf1); try done.
  by apply addRouteByID_wellFormed.
Qed.

(** The node-id set [initTopology] collects holds every link end. *)
Lemma link_ends_known records :
  linkEndsIn (foldl (fun ns l => {[node2 l]} ∪ ({[node1 l]} ∪ ns)) ∅ records) records.
Proof.
  intros link Hin. split; apply elem_of_link_ends; right; exists link; auto.
Qed.

(** X4 — [initTopology], called as in [dvr] on empty containers, never
    throws: it returns the records as the link list, the node-id set made of
    exactly the end points of the records, and one router per node id, in
    ascending order of id, each with a routing table over exactly the node
    ids. *)
Theorem initTopology_from_empty records :
  ∃ nodes routers,
    initTopology records [] ∅ [] = Some (records, nodes, routers) ∧
    (∀ n, n ∈ nodes ↔ ∃ link, link ∈ records ∧ (n = node1 link ∨ n = node2 link)) ∧
    ID <$> routers = in_order nodes ∧
    Forall (fun r => dom (RT r) = nodes) routers.
Proof.
  unfold initTopology. simpl.
  destruct (seeding_never_throws _ records (link_ends_known records))
    as (routers & Hs & Hwf).
  eexists _, routers. unfold seeded in Hs. rewrite Hs.
  split; [done|]. split; [|exact Hwf].
  intros n. rewrite elem_of_link_ends. split; [|auto].
  intros [Hn|?]; [|done]. by apply elem_of_empty in Hn.
Qed.

(** [applyChange] on links that join known nodes: the topology it
    returns, and the routers seeded for it. *)
Lemma applyChange_known change routers nodes links :
  linkEndsIn nodes links →
  ∃ seed,
    applyChange change routers nodes links =
      Some (seed, {[node2 change]} ∪ ({[node1 change]} ∪ nodes),
            if decide (pathCost change = -999) then removeLink links change
            else links ++ [mkLink (node1 change) (node2 change) (pathCost change)]) ∧
    seeded ({[node2 change]} ∪ ({[node1 change]} ∪ nodes))
           (if decide (pathCost change = -999) then removeLink links change
            else links ++ [mkLink (node1 change) (node2 change) (pathCost change)])
           seed.
Proof.
  intros Hends. unfold applyChange, clear.
  set (nodes' := {[node2 change]} ∪ ({[node1 change]} ∪ nodes)).
  set (links' := if decide (pathCost change = -999) then removeLink links change
                 else links ++ [mkLink (node1 change) (node2 change) (pathCost change)]).
  assert (linkEndsIn nodes' links') as Hends'.
  { intros link Hin. unfold links' in Hin.
    assert (node1 link ∈ nodes ∧ node2 link ∈ nodes ∨
            link = mkLink (node1 change) (node2 change) (pathCost change)) as [[? ?]| ->].
    { destruct (decide (pathCost change = -999)).
      - apply removeLink_spec in Hin as [Hin _]. left. by apply Hends.
      - apply elem_of_app in Hin as [Hin|Hin]; [left; by apply Hends|right].
        by apply list_elem_of_singleton in Hin. }
    - unfold nodes'. rewrite !elem_of_union. auto.
    - unfold nodes'. simpl. rewrite !elem_of_union, !elem_of_singleton. auto. }
  destruct (seeding_never_throws nodes' links' Hends') as (seed & Hs & _).
  exists seed. unfold seeded in Hs |- *. by rewrite Hs.
Qed.

(** X5 — [applyChange] never throws on a topology whose links join known
    nodes, whatever the change record: the node-id set keeps every id it had
    and gains the two end points of the record, the links returned again join
    known nodes (so the next change cannot throw either), and the routers
    are rebuilt one per node id, in ascending order, each with a table over
    exactly the node ids. *)
Theorem applyChange_never_throws change routers nodes links :
  linkEndsIn nodes links →
  ∃ routers' nodes' links',
    applyChange change routers nodes links = Some (routers', nodes', links') ∧
    nodes ⊆ nodes' ∧ node1 change ∈ nodes' ∧ node2 change ∈ nodes' ∧
    linkEndsIn nodes' links' ∧ wellFormed nodes' routers'.
Proof.
  intros Hends.
  destruct (applyChange_known change routers nodes links Hends) as (seed & Happ & Hseed).
  eexists _, _, _. split; [exact Happ|].
  destruct (seeded_shape _ _ _ Hseed) as [Hwf Hends'].
  split; [|split; [|split; [|by split]]].
  - intros n Hn. rewrite !elem_of_union. auto.
  - rewrite !elem_of_union, !elem_of_singleton. auto.
  - rewrite !elem_of_union, !elem_of_singleton. auto.
Qed.

(** ** Invariants of the sweep *)

(** Invariant rule for the sweep: a property of the router collection that
    every adoption of a route keeps is kept by the sweep, and by
    [doBellmanFordAlg].  An adoption replaces the entry of [router] for [d]
    by a neighbour that passed the filters, at a cost that is not above the
    one the table held. *)
Section SweepInvariant.
Context (Q : list Router → Prop) (nodes : gset Z) (links : list Link).
Hypothesis Hadopt :
  ∀ rs i router d link j nb,
    Q rs → rs !! i = Some router → d ∈ nodes → link ∈ links →
    neighbourOf link (getID router) ≠ -1 →
    neighbourOf link (getID router) ≠ d →
    getRouterByID rs (neighbourOf link (getID router)) = Some (j, nb) →
    getNextHop nb d ≠ getID router →
    int_add (getPathCost router (neighbourOf link (getID router))) (getPathCost nb d)
      ≤ getPathCost router d →
    Q (<[i := addRoute router d (neighbourOf link (getID router))
              (int_add (getPathCost router (neighbourOf link (getID router)))
                       (getPathCost nb d))]> rs).

Lemma sweep_inv routers st' :
  Q routers → sweep routers nodes links = Some st' → Q st'.1.
Proof.
  intros HQ. unfold sweep. apply (foldM_inv (fun st => Q st.1)); [|done].
  clear HQ st'. intros st i st' _ Hst. unfold scanRouter.
  apply (foldM_inv (fun st => Q st.1)); [|done].
  clear st st' Hst. intros st d st' Hd Hst. apply elem_of_in_order in Hd.
  unfold scanDestination. destruct (st.1 !! i) as [router0|] eqn:Hi0; [|by intros [= <-]].
  destruct (foldM _ _ links) as [s|] eqn:Hfold; simpl; [|done]. intros [= <-]. simpl.
  revert Hfold.
  apply (foldM_inv (fun s => Q (scanRouters s) ∧
           ∀ router, scanRouters s !! i = Some router →
                     curPathCost s = getPathCost router d)).
  - clear st router0 Hi0 Hst s. intros s link s' Hlink [HQ Hcur] Hstep.
    apply relaxLink_cases in Hstep as [->|Hfire]; [done|].
    destruct Hfire as (router & j & nb & Hi & HN1 & HNd & Hnb & Hsh & Hcmp & ->).
    simpl. split.
    + eapply Hadopt; try done. rewrite <- (Hcur router Hi). lia.
    + intros r'. rewrite list_lookup_insert_eq by (by eapply lookup_lt_Some).
      intros [= <-]. rewrite getPathCost_addRoute. by rewrite decide_True.
  - split; [done|]. simpl. intros r'. rewrite Hi0. by intros [= <-].
Qed.

Lemma doBellmanFordAlg_inv fuel routers routers' :
  Q routers → doBellmanFordAlg fuel routers nodes links = Done routers' → Q routers'.
Proof.
  revert routers. induction fuel as [|fuel IH]; intros routers HQ; simpl; [done|].
  destruct (sweep routers nodes links) as [[rs u]|] eqn:Hs; [|done].
  pose proof (sweep_inv _ _ HQ Hs) as HQ'. simpl in HQ'.
  destruct u; [by apply IH|]. by intros [= <-].
Qed.

End SweepInvariant.

(** ** The sweep loop on a well-formed collection *)

Lemma relaxLink_wellFormed nodes links i d s link :
  linkEndsIn nodes links → link ∈ links → d ∈ nodes →
  wellFormed nodes (scanRouters s) →
  ∃ s', relaxLink i d s link = Some s' ∧ wellFormed nodes (scanRouters s').
Proof.
  intros Hends Hlink Hd Hwf.
  assert (is_Some (relaxLink i d s link)) as [s' Hs'].
  { unfold relaxLink. destruct (scanRouters s !! i) as [router|] eqn:Hi; [|by eauto].
    cbv zeta. unfold getID.
    destruct (decide (neighbourOf link (ID router) = -1 ∨
                      neighbourOf link (ID router) = d)) as [Hn|Hn]; [by eauto|].
    assert (neighbourOf link (ID router) ∈ nodes) as HN.
    { destruct (Hends link Hlink) as [H1 H2].
      destruct (neighbourOf_cases link (ID router)) as [E|[E|E]]; rewrite E; tauto. }
    destruct (wellFormed_router_of_node _ _ _ Hwf HN) as (j & nb & Hnb & _).
    rewrite Hnb. simpl.
    destruct (decide (getNextHop nb d = ID router)); [by eauto|].
    case_decide; by eauto. }
  exists s'. split; [done|].
  apply relaxLink_cases in Hs' as [->|Hfire]; [done|].
  destruct Hfire as (router & j & nb & Hi & _ & _ & _ & _ & _ & ->).
  simpl. by apply wellFormed_insert.
Qed.

Lemma sweep_never_throws nodes links routers :
  linkEndsIn nodes links → wellFormed nodes routers →
  ∃ st', sweep routers nodes links = Some st' ∧ wellFormed nodes st'.1.
Proof.
  intros Hends Hwf.
  apply (sweep_lift (fun st => wellFormed nodes st.1)
                    (fun _ _ s => wellFormed nodes (scanRouters s))).
  - by intros st i router d Hst _ _.
  - intros i d s link Hlink Hd Hs. by eapply relaxLink_wellFormed.
  - by intros i d s _ Hs.
  - done.
Qed.

(** X6 — on one router per node id and links that join known nodes (what
    [initTopology] and [applyChange] hand over), [doBellmanFordAlg] never
    throws, whatever the link costs and node ids: no sweep throws, and for
    every bound on the number of sweeps the loop either is still running or
    has returned a collection that again has one router per node id, in
    ascending order, with tables over exactly the node ids. *)
Theorem doBellmanFordAlg_never_throws nodes links routers fuel :
  wellFormed nodes routers → linkEndsIn nodes links →
  is_Some (sweep routers nodes links) ∧
  (doBellmanFordAlg fuel routers nodes links = OutOfFuel ∨
   ∃ routers', doBellmanFordAlg fuel routers nodes links = Done routers' ∧
               wellFormed nodes routers').
Proof.
  intros Hwf Hends. split.
  { destruct (sweep_never_throws nodes links routers Hends Hwf) as (st' & -> & _). eauto. }
  revert routers Hwf. induction fuel as [|fuel IH]; intros routers Hwf; simpl; [by left|].
  destruct (sweep_never_throws nodes links routers Hends Hwf) as ([rs u] & -> & Hwf').
  simpl in Hwf'. destruct u; [by apply IH|]. right. by exists rs.
Qed.

(** X7 — [doBellmanFordAlg] never raises a cost: in the collection it
    returns, every router sits at the position it had, keeps its id, and
    holds for every destination a path cost that is not above the one it
    started with. *)
Theorem doBellmanFordAlg_never_raises_cost fuel routers nodes links routers' :
  doBellmanFordAlg fuel routers nodes links = Done routers' →
  length routers' = length routers ∧
  ∀ i r r', routers !! i = Some r → routers' !! i = Some r' →
    getID r' = getID r ∧ ∀ d, getPathCost r' d ≤ getPathCost r d.
Proof.
  intros Hrun.
  set (Q := fun rs : list Router =>
    length rs = length routers ∧
    ∀ i r r', routers !! i = Some r → rs !! i = Some r' →
      getID r' = getID r ∧ ∀ d, getPathCost r' d ≤ getPathCost r d).
  apply (doBellmanFordAlg_inv Q nodes links) with (fuel := fuel) (routers := routers);
    [|unfold Q|done].
  - clear. intros rs i router d link j nb [Hlen HQ] Hi _ _ _ _ _ _ Hle. split.
    + by rewrite length_insert.
    + intros k r r' Hk Hk'. destruct (decide (k = i)) as [->|Hne].
      * rewrite list_lookup_insert_eq in Hk' by (by eapply lookup_lt_Some).
        injection Hk' as <-. destruct (HQ i r router Hk Hi) as [Hid Hc].
        split; [done|]. intros d'. rewrite getPathCost_addRoute.
        case_decide as Hd; [subst d'|]; [|apply Hc].
        specialize (Hc d). lia.
      * rewrite list_lookup_insert_ne in Hk' by done. by apply (HQ k).
  - split; [done|]. intros i r r' Hi Hi'. rewrite Hi in Hi'. injection Hi' as <-.
    split; [done|]. intros; lia.
Qed.

(** ** Invariants of seeding *)

(** Invariant rule for the two seeding loops: a property that holds of the
    freshly constructed routers and is kept when the router at one end of a
    link stores the direct route to the other end, holds of the seeded
    collection. *)
Lemma seeded_inv (Q : list Router → Prop) nodes links :
  Q (emplaceRouters [] nodes) →
  (∀ rs link i x b,
     link ∈ links → Q rs → rs !! i = Some x →
     (ID x = node1 link ∧ b = node2 link) ∨ (ID x = node2 link ∧ b = node1 link) →
     Q (<[i := addRoute x b b (pathCost link)]> rs)) →
  ∀ routers, seeded nodes links routers → Q routers.
Proof.
  intros Hinit Hstep routers. unfold seeded, addDirectLinks.
  apply (foldM_inv Q); [|done].
  clear routers. intros rs link rs' Hlink HQ. unfold addDirect, addRouteByID.
  destruct (getRouterByID rs (node1 link)) as [[i x]|] eqn:H1; [|done].
  apply getRouterByID_Some in H1 as (Hi & Hidx & _).
  destruct (getRouterByID (<[i:=_]> rs) (node2 link)) as [[k y]|] eqn:H2; [|done].
  apply getRouterByID_Some in H2 as (Hk & Hidy & _).
  intros [= <-]. apply Hstep; [done| |done|by right].
  apply Hstep; [done..|by left].
Qed.

(** Seeding stores no next hop other than the destination itself, and
    leaves every router with itself as next hop for its own id. *)
Lemma seeded_hops nodes links routers :
  seeded nodes links routers →
  ∀ r, r ∈ routers →
    (∀ d, getNextHop r d = d ∨ getNextHop r d = -1) ∧ getNextHop r (ID r) = ID r.
Proof.
  apply (seeded_inv (fun rs => ∀ r, r ∈ rs →
    (∀ d, getNextHop r d = d ∨ getNextHop r d = -1) ∧ getNextHop r (ID r) = ID r)).
  - rewrite emplaceRouters_eq. simpl. intros r Hr.
    apply list_elem_of_fmap in Hr as (id & -> & Hid). apply elem_of_in_order in Hid.
    unfold getNextHop, RoutingTable.getNextHop. simpl. split.
    + intros d. rewrite make_lookup. case_decide; [|by right].
      unfold seedEntry. case_decide; simpl; auto.
    + rewrite make_lookup, decide_True by done.
      unfold seedEntry. by rewrite decide_True.
  - intros rs link i x b _ HQ Hi _ r Hr.
    apply list_elem_of_lookup in Hr as [k Hk].
    destruct (decide (k = i)) as [->|Hne].
    + rewrite list_lookup_insert_eq in Hk by (by eapply lookup_lt_Some).
      injection Hk as <-.
      destruct (HQ x) as [Hall Hown]; [by eapply list_elem_of_lookup_2|].
      split.
      * intros d. rewrite getNextHop_addRoute. case_decide; [subst; auto|apply Hall].
      * rewrite addRoute_ID, getNextHop_addRoute. case_decide; [done|apply Hown].
    + rewrite list_lookup_insert_ne in Hk by done.
      apply HQ. by eapply list_elem_of_lookup_2.
Qed.

Lemma seeded_noTwoLoop nodes links routers :
  seeded nodes links routers → noTwoLoop routers.
Proof.
  intros Hs r n d Hr Hn Hne [H1 H2].
  destruct (seeded_hops _ _ _ Hs r Hr) as [Hr1 Hr2].
  destruct (seeded_hops _ _ _ Hs n Hn) as [Hn1 Hn2].
  (* a seeded next hop is the destination or -1, and the own entry of a
     router names the router: both ids would be equal *)
  destruct (Hr1 d) as [E1|E1]; destruct (Hn1 d) as [E2|E2]; congruence.
Qed.

(** ** No two routers point at each other *)

Lemma adopt_noTwoLoop nodes rs i router d N c j nb :
  wellFormed nodes rs → noTwoLoop rs →
  rs !! i = Some router → getRouterByID rs N = Some (j, nb) →
  getNextHop nb d ≠ ID router →
  noTwoLoop (<[i := addRoute router d N c]> rs).
Proof.
  intros Hwf Hloop Hi Hnb Hsh r n d' Hr Hn Hne [H1 H2].
  apply list_elem_of_lookup in Hr as [a Ha].
  apply list_elem_of_lookup in Hn as [b Hb].
  pose proof (lookup_lt_Some _ _ _ Hi) as Hlen.
  assert (∀ k y, rs !! k = Some y → ID y = N → y = nb) as Huniq.
  { intros k y Hk Hid. pose proof (wellFormed_getRouterByID _ _ _ _ Hwf Hk) as Hg.
    rewrite Hid in Hg. congruence. }
  destruct (decide (a = i)) as [->|Hai]; destruct (decide (b = i)) as [->|Hbi].
  - congruence.
  - rewrite list_lookup_insert_eq in Ha by done. injection Ha as <-.
    rewrite list_lookup_insert_ne in Hb by done.
    rewrite addRoute_ID in *. rewrite getNextHop_addRoute in H1.
    destruct (decide (d' = d)) as [->|Hd].
    + assert (n = nb) as -> by (by eapply Huniq). done.
    + eapply (Hloop router n d'); try done; by eapply list_elem_of_lookup_2.
  - rewrite list_lookup_insert_eq in Hb by done. injection Hb as <-.
    rewrite list_lookup_insert_ne in Ha by done.
    rewrite addRoute_ID in *. rewrite getNextHop_addRoute in H2.
    destruct (decide (d' = d)) as [->|Hd].
    + assert (r = nb) as -> by (by eapply Huniq). done.
    + eapply (Hloop r router d'); try done; by eapply list_elem_of_lookup_2.
  - rewrite list_lookup_insert_ne in Ha, Hb by done.
    eapply (Hloop r n d'); try done; by eapply list_elem_of_lookup_2.
Qed.

(** X8 — split horizon at work: on the routers seeded for a topology,
    whatever its link costs and node ids, the collection
    [doBellmanFordAlg] returns holds no two-router loop: no two distinct
    routers name each other as next hop for the same destination. *)
Theorem no_two_router_loop nodes links routers fuel routers' :
  seeded nodes links routers →
  doBellmanFordAlg fuel routers nodes links = Done routers' →
  ∀ r n d, r ∈ routers' → n ∈ routers' → getID r ≠ getID n →
    ¬ (getNextHop r d = getID n ∧ getNextHop n d = getID r).
Proof.
  intros Hseed Hrun.
  pose proof (seeded_shape _ _ _ Hseed) as [Hwf _].
  pose proof (seeded_noTwoLoop _ _ _ Hseed) as Hloop.
  apply (doBellmanFordAlg_inv (fun rs => wellFormed nodes rs ∧ noTwoLoop rs) nodes links)
    with (fuel := fuel) (routers := routers); [|done|done].
  clear. intros rs i router d link j nb [Hwf Hloop] Hi Hd _ _ _ Hnb Hsh _. split.
  - by apply wellFormed_insert.
  - by eapply adopt_noTwoLoop.
Qed.

(** ** Next hops follow links *)

Lemma neighbourOf_joins link id h :
  neighbourOf link id = h →
  h = -1 ∨ (node1 link = id ∧ node2 link = h) ∨ (node2 link = id ∧ node1 link = h).
Proof. unfold neighbourOf. repeat case_decide; intros <-; auto. Qed.

(** X9 — every next hop is a neighbour: on the routers seeded for a
    topology, in the collection [doBellmanFordAlg] returns, the next hop a
    router holds for a destination is the no-hop sentinel -1, or the router
    itself for its own id, or the other end of a link of the link list that
    has the router at one end. *)
Theorem next_hops_follow_links nodes links routers fuel routers' :
  seeded nodes links routers →
  doBellmanFordAlg fuel routers nodes links = Done routers' →
  ∀ r d h c, r ∈ routers' → RT r !! d = Some (h, c) →
    h = -1 ∨ (d = getID r ∧ h = getID r) ∨
    ∃ link, link ∈ links ∧
      ((node1 link = getID r ∧ node2 link = h) ∨ (node2 link = getID r ∧ node1 link = h)).
Proof.
  intros Hseed Hrun.
  set (Q := fun rs : list Router =>
    ∀ r d h c, r ∈ rs → RT r !! d = Some (h, c) →
      h = -1 ∨ (d = getID r ∧ h = getID r) ∨
      ∃ link, link ∈ links ∧
        ((node1 link = getID r ∧ node2 link = h) ∨ (node2 link = getID r ∧ node1 link = h))).
  assert (∀ rs i x d h c, Q rs → rs !! i = Some x →
            (h = -1 ∨ (d = getID x ∧ h = getID x) ∨
             ∃ link, link ∈ links ∧
               ((node1 link = getID x ∧ node2 link = h) ∨
                (node2 link = getID x ∧ node1 link = h))) →
            Q (<[i := addRoute x d h c]> rs)) as Hins.
  { intros rs i x d h c HQ Hi Hnew r d' h' c' Hr He.
    apply list_elem_of_lookup in Hr as [k Hk].
    destruct (decide (k = i)) as [->|Hne].
    - rewrite list_lookup_insert_eq in Hk by (by eapply lookup_lt_Some).
      injection Hk as <-. simpl in He. unfold RoutingTable.addRoute in He.
      destruct (decide (d' = d)) as [->|Hd].
      + rewrite lookup_insert_eq in He. injection He as <- <-. exact Hnew.
      + rewrite lookup_insert_ne in He by done.
        apply (HQ x d' h' c'); [by eapply list_elem_of_lookup_2|done].
    - rewrite list_lookup_insert_ne in Hk by done.
      apply (HQ r d' h' c'); [by eapply list_elem_of_lookup_2|done]. }
  apply (doBellmanFordAlg_inv Q nodes links) with (fuel := fuel) (routers := routers);
    [| |done].
  - intros rs i router d link j nb HQ Hi _ Hlink HN1 _ _ _ _.
    apply Hins; [done..|]. right. right. exists link. split; [done|].
    destruct (neighbourOf_joins link (getID router) _ eq_refl) as [?|?]; done.
  - revert Hseed. apply (seeded_inv Q).
    + rewrite emplaceRouters_eq. simpl. intros r d h c Hr He.
      apply list_elem_of_fmap in Hr as (id & -> & Hid). simpl in He.
      rewrite make_lookup in He. case_decide; [|done]. injection He as He.
      unfold seedEntry in He. case_decide; injection He as <- <-; auto.
    + intros rs link i x b Hlink HQ Hi Hb. apply Hins; [done..|].
      right. right. exists link. split; [done|]. unfold getID.
      destruct Hb as [[? ?]|[? ?]]; [left|right]; split; congruence.
Qed.

(** ** The collection returned is locally optimal *)

(** A sweep without update has found no link that improves a route. *)
Lemma quiet_sweep_no_better_neighbour routers nodes links i router d link j nb :
  sweep routers nodes links = Some (routers, false) →
  routers !! i = Some router → d ∈ nodes → link ∈ links →
  neighbourOf link (getID router) ≠ -1 →
  neighbourOf link (getID router) ≠ d →
  getRouterByID routers (neighbourOf link (getID router)) = Some (j, nb) →
  getNextHop nb d ≠ getID router →
  ¬ (int_add (getPathCost router (neighbourOf link (getID router))) (getPathCost nb d)
       < getPathCost router d ∨
     (int_add (getPathCost router (neighbourOf link (getID router))) (getPathCost nb d)
        = getPathCost router d ∧
      neighbourOf link (getID router) < -1)).
Proof.
  intros Hquiet Hi Hd Hlink HN1 HNd Hnb Hsh.
  pose proof (sweep_quiet_steps _ _ _ _ i router d link Hquiet Hi Hd Hlink) as Hq.
  unfold relaxLink in Hq. simpl in Hq. rewrite Hi in Hq. cbv zeta in Hq.
  rewrite decide_False in Hq by tauto.
  rewrite Hnb in Hq. simpl in Hq.
  rewrite decide_False in Hq by done.
  case_decide as Hc; [by injection Hq|done].
Qed.

(** X10 — in the collection [doBellmanFordAlg] returns, no link offers a
    router a cheaper route: for every router R, destination D of the node
    set and link whose neighbour N passes the filters (N is not -1, is not
    D, and N's next hop to D is not R), R's cost to D is at most R's cost to
    N plus N's cost to D; and when the two are equal, N is not below -1. *)
Theorem converged_no_better_neighbour fuel routers nodes links routers'
    i router d link j nb :
  doBellmanFordAlg fuel routers nodes links = Done routers' →
  routers' !! i = Some router → d ∈ nodes → link ∈ links →
  neighbourOf link (getID router) ≠ -1 →
  neighbourOf link (getID router) ≠ d →
  getRouterByID routers' (neighbourOf link (getID router)) = Some (j, nb) →
  getNextHop nb d ≠ getID router →
  getPathCost router d ≤
    int_add (getPathCost router (neighbourOf link (getID router))) (getPathCost nb d) ∧
  (getPathCost router d =
     int_add (getPathCost router (neighbourOf link (getID router))) (getPathCost nb d) →
   -1 ≤ neighbourOf link (getID router)).
Proof.
  intros Hrun Hi Hd Hlink HN1 HNd Hnb Hsh.
  apply doBellmanFordAlg_fixpoint in Hrun.
  pose proof (quiet_sweep_no_better_neighbour _ _ _ _ _ _ _ _ _
                Hrun Hi Hd Hlink HN1 HNd Hnb Hsh) as Hno.
  split; [lia|]. intros Heq.
  destruct (decide (neighbourOf link (getID router) < -1)); [|lia].
  destruct Hno. by right.
Qed.

(** ** The routes seeded from the links *)

Lemma lastLinkCost_snoc links link a b :
  lastLinkCost (links ++ [link]) a b =
    if decide (sameEnds (mkLink a b 0) link) then Some (pathCost link)
    else lastLinkCost links a b.
Proof.
  unfold lastLinkCost. rewrite filter_app.
  destruct (decide (sameEnds (mkLink a b 0) link)) as [Hs|Hs].
  - rewrite (filter_cons_True _ link []) by done.
    rewrite filter_nil. by rewrite last_snoc.
  - rewrite (filter_cons_False _ link []) by done.
    rewrite filter_nil. by rewrite app_nil_r.
Qed.

Lemma lastLinkCost_None links a b :
  lastLinkCost links a b = None ↔ ∀ link, link ∈ links → ¬ sameEnds (mkLink a b 0) link.
Proof.
  unfold lastLinkCost. rewrite fmap_None, last_None. split.
  - intros Hnil link Hin Hs.
    assert (link ∈ filter (sameEnds (mkLink a b 0)) links) as Hf
      by (by apply list_elem_of_filter).
    rewrite Hnil in Hf. by apply elem_of_nil in Hf.
  - intros Hno. induction links as [|x links IH]; [done|].
    rewrite filter_cons_False by apply Hno, list_elem_of_here.
    apply IH. intros link ?. by apply Hno, list_elem_of_further.
Qed.

Lemma lastLinkCost_Some links a b c :
  lastLinkCost links a b = Some c →
  ∃ link, link ∈ links ∧ sameEnds (mkLink a b 0) link ∧ pathCost link = c.
Proof.
  unfold lastLinkCost. intros H. apply fmap_Some in H as (link & Hlast & ->).
  exists link. apply last_Some_elem_of in Hlast.
  apply list_elem_of_filter in Hlast as [? ?]. done.
Qed.

Lemma NoDup_IDs_index (rs : list Router) a i r x :
  NoDup (ID <$> rs) → rs !! a = Some r → rs !! i = Some x → ID r = ID x → a = i.
Proof.
  intros Hnd Ha Hi Hid. eapply NoDup_lookup; [exact Hnd| |].
  - rewrite list_lookup_fmap, Ha. done.
  - rewrite list_lookup_fmap, Hi. simpl. by rewrite Hid.
Qed.

(** The effect of [getRouterByID(routers, id).addRoute(d, h, c)] on every
    table, when the router ids are pairwise distinct. *)
Lemma addRouteByID_lookup rs id d h c rs' :
  NoDup (ID <$> rs) → addRouteByID rs id d h c = Some rs' →
  ID <$> rs' = ID <$> rs ∧
  ∀ a r', rs' !! a = Some r' →
    ∃ r, rs !! a = Some r ∧ ID r' = ID r ∧
      ∀ d', RT r' !! d' =
              if decide (ID r = id ∧ d' = d) then Some (h, c) else RT r !! d'.
Proof.
  intros Hnd Hadd. split; [by eapply addRouteByID_IDs|].
  revert Hadd. unfold addRouteByID.
  destruct (getRouterByID rs id) as [[i x]|] eqn:Hg; [|done].
  apply getRouterByID_Some in Hg as (Hi & Hid & _). unfold getID in Hid.
  intros [= <-] a r' Ha.
  destruct (decide (a = i)) as [->|Hne].
  - rewrite list_lookup_insert_eq in Ha by (by eapply lookup_lt_Some).
    injection Ha as <-. exists x. split; [done|]. split; [done|].
    intros d'. simpl. unfold RoutingTable.addRoute.
    destruct (decide (d' = d)) as [->|Hd].
    + rewrite lookup_insert_eq. by rewrite decide_True.
    + rewrite lookup_insert_ne by done. by rewrite decide_False by tauto.
  - rewrite list_lookup_insert_ne in Ha by done.
    exists r'. split; [done|]. split; [done|]. intros d'.
    rewrite decide_False; [done|]. intros [Hidr _]. apply Hne.
    eapply NoDup_IDs_index; try done. congruence.
Qed.

Lemma addDirect_lookup rs link rs' :
  NoDup (ID <$> rs) → addDirect rs link = Some rs' →
  ID <$> rs' = ID <$> rs ∧
  ∀ a r', rs' !! a = Some r' →
    ∃ r, rs !! a = Some r ∧ ID r' = ID r ∧
      ∀ d, RT r' !! d =
             if decide (sameEnds (mkLink (ID r) d 0) link) then Some (d, pathCost link)
             else RT r !! d.
Proof.
  intros Hnd. unfold addDirect.
  destruct (addRouteByID rs _ _ _ _) as [rs1|] eqn:E1; [|done]. intros E2.
  destruct (addRouteByID_lookup _ _ _ _ _ _ Hnd E1) as [Hids1 H1].
  assert (NoDup (ID <$> rs1)) as Hnd1 by (by rewrite Hids1).
  destruct (addRouteByID_lookup _ _ _ _ _ _ Hnd1 E2) as [Hids2 H2].
  split; [congruence|]. intros a r' Ha.
  destruct (H2 a r' Ha) as (r1 & Ha1 & Hid1 & Hrt1).
  destruct (H1 a r1 Ha1) as (r & Ha0 & Hid0 & Hrt0).
  exists r. split; [done|]. split; [congruence|]. intros d.
  rewrite Hrt1, Hrt0, Hid0. unfold sameEnds. simpl.
  destruct (decide (ID r = node2 link ∧ d = node1 link)) as [[Ha2 ->]|Hn2].
  - rewrite decide_True by auto. done.
  - destruct (decide (ID r = node1 link ∧ d = node2 link)) as [[Ha3 ->]|Hn1].
    + rewrite decide_True by auto. done.
    + rewrite decide_False; [done|]. intros [[? ?]|[? ?]]; [apply Hn1|apply Hn2]; auto.
Qed.

Lemma addDirectLinks_lookup rs0 links rs :
  NoDup (ID <$> rs0) → addDirectLinks rs0 links = Some rs →
  ID <$> rs = ID <$> rs0 ∧
  ∀ a r, rs !! a = Some r →
    ∃ r0, rs0 !! a = Some r0 ∧ ID r = ID r0 ∧
      ∀ d, RT r !! d = match lastLinkCost links (ID r0) d with
                       | Some c => Some (d, c)
                       | None => RT r0 !! d
                       end.
Proof.
  intros Hnd. unfold addDirectLinks. revert rs.
  induction links as [|link links IH] using rev_ind; intros rs.
  - simpl. intros [= <-]. split; [done|]. intros a r Ha. exists r. done.
  - rewrite foldM_app.
    destruct (foldM addDirect rs0 links) as [rs1|] eqn:E1; simpl; [|done].
    destruct (addDirect rs1 link) as [rs2|] eqn:E2; [|done]. intros [= <-].
    destruct (IH rs1 eq_refl) as [Hids1 H1].
    assert (NoDup (ID <$> rs1)) as Hnd1 by (by rewrite Hids1).
    destruct (addDirect_lookup _ _ _ Hnd1 E2) as [Hids2 H2].
    split; [congruence|]. intros a r Ha.
    destruct (H2 a r Ha) as (r1 & Ha1 & Hid1 & Hrt1).
    destruct (H1 a r1 Ha1) as (r0 & Ha0 & Hid0 & Hrt0).
    exists r0. split; [done|]. split; [congruence|]. intros d.
    rewrite Hrt1, lastLinkCost_snoc, Hid0.
    destruct (decide (sameEnds _ link)); [done|apply Hrt0].
Qed.

(** The table of every seeded router, entry by entry. *)
Lemma seeded_lookup nodes links routers r d :
  seeded nodes links routers → r ∈ routers →
  RT r !! d = match lastLinkCost links (ID r) d with
              | Some c => Some (d, c)
              | None => if decide (d ∈ nodes) then Some (seedEntry (ID r) d) else None
              end.
Proof.
  intros Hs Hr. apply list_elem_of_lookup in Hr as [a Ha].
  destruct (addDirectLinks_lookup (emplaceRouters [] nodes) links routers)
    as [_ H]; [|done|].
  { destruct (emplaceRouters_wellFormed nodes) as [-> _]. apply NoDup_in_order. }
  destruct (H a r Ha) as (r0 & Ha0 & Hid & ->). rewrite <- Hid.
  destruct (lastLinkCost links (ID r) d); [done|].
  rewrite emplaceRouters_eq in Ha0. simpl in Ha0. rewrite list_lookup_fmap in Ha0.
  destruct (in_order nodes !! a) as [id|]; [|done]. injection Ha0 as <-.
  simpl in *. subst id. apply make_lookup.
Qed.

(** X11 — the routes seeded by [initTopology] and [applyChange]: in the
    collection the two seeding loops build for a node set and a link list,
    every table has an entry exactly for the node ids; the route a router
    holds to a destination is the direct one (next hop = the destination,
    cost = the cost of the link) when a link joins the two, the last such
    link of the list deciding the cost; otherwise it is the one the
    constructor stored: (self, 0) for the router's own id and (-1, 9999)
    for any other node id.  For an id outside the node set both getters
    return -1. *)
Theorem seeded_direct_routes nodes links routers :
  seeded nodes links routers →
  ∀ r d, r ∈ routers →
    RoutingTable.contains (getRoutingTable r) d = bool_decide (d ∈ nodes) ∧
    (getNextHop r d, getPathCost r d) =
      match lastLinkCost links (getID r) d with
      | Some c => (d, c)
      | None =>
          if decide (d ∈ nodes)
          then if decide (d = getID r) then (d, 0) else (-1, 9999)
          else (-1, -1)
      end.
Proof.
  intros Hs r d Hr.
  pose proof (seeded_lookup nodes links routers r d Hs Hr) as He.
  pose proof (seeded_linkEndsIn _ _ _ Hs) as Hends.
  unfold RoutingTable.contains, getRoutingTable, getNextHop, getPathCost,
         RoutingTable.getNextHop, RoutingTable.getPathCost, getID.
  rewrite He. destruct (lastLinkCost links (ID r) d) as [c|] eqn:Hl.
  - split; [|done].
    apply lastLinkCost_Some in Hl as (link & Hlink & Hsame & _).
    destruct (Hends link Hlink) as [H1 H2].
    assert (d ∈ nodes) as Hd.
    { unfold sameEnds in Hsame. simpl in Hsame.
      destruct Hsame as [[? ?]|[? ?]]; congruence. }
    rewrite (bool_decide_eq_true_2 (d ∈ nodes)) by done.
    by rewrite bool_decide_eq_true_2 by eauto.
  - destruct (decide (d ∈ nodes)) as [Hd|Hd].
    + rewrite (bool_decide_eq_true_2 (d ∈ nodes)) by done.
      rewrite bool_decide_eq_true_2 by eauto.
      split; [done|]. unfold seedEntry. by case_decide.
    + rewrite (bool_decide_eq_false_2 (d ∈ nodes)) by done.
      by rewrite bool_decide_eq_false_2 by (by apply is_Some_None).
Qed.

(** ** Adding a link and removing it again *)

Lemma removeLink_app links1 links2 linkToRemove :
  removeLink (links1 ++ links2) linkToRemove =
    removeLink links1 linkToRemove ++ removeLink links2 linkToRemove.
Proof. unfold removeLink. apply filter_app. Qed.

(** X12 — a change that adds a link between [a] and [b], followed by the
    change that removes the link between [b] and [a]: neither call throws
    when the links join known nodes; the second call leaves the node-id set
    of the first (both end points stay known), and its link list is the
    original one without any link between [a] and [b] — the original list
    itself when it had no such link, while a link between the two that was
    there before the addition is removed as well. *)
Theorem add_then_remove_link a b c routers nodes links :
  c ≠ -999 → linkEndsIn nodes links →
  ∃ routers1 nodes1 links1 routers2,
    applyChange (mkLink a b c) routers nodes links = Some (routers1, nodes1, links1) ∧
    links1 = links ++ [mkLink a b c] ∧
    applyChange (mkLink b a (-999)) routers1 nodes1 links1
      = Some (routers2, nodes1, removeLink links (mkLink a b c)) ∧
    a ∈ nodes1 ∧ b ∈ nodes1 ∧
    ((∀ link, link ∈ links → ¬ sameEnds (mkLink a b c) link) →
     removeLink links (mkLink a b c) = links).
Proof.
  intros Hc Hends.
  destruct (applyChange_known (mkLink a b c) routers nodes links Hends)
    as (routers1 & H1 & Hseed1).
  cbn [pathCost node1 node2] in H1, Hseed1. rewrite decide_False in H1, Hseed1 by done.
  pose proof (seeded_linkEndsIn _ _ _ Hseed1) as Hends1.
  destruct (applyChange_known (mkLink b a (-999)) routers1 _ _ Hends1)
    as (routers2 & H2 & _).
  cbn [pathCost node1 node2] in H2. rewrite decide_True in H2 by done.
  set (nodes1 := {[b]} ∪ ({[a]} ∪ nodes)) in *.
  assert ({[a]} ∪ ({[b]} ∪ nodes1) = nodes1) as Hn.
  { apply set_eq. intros x. unfold nodes1. rewrite !elem_of_union, !elem_of_singleton.
    tauto. }
  assert (removeLink (links ++ [mkLink a b c]) (mkLink b a (-999))
          = removeLink links (mkLink a b c)) as Hl.
  { rewrite removeLink_app.
    assert (removeLink [mkLink a b c] (mkLink b a (-999)) = []) as ->.
    { unfold removeLink. rewrite filter_cons_False; [done|].
      intros Hno. apply Hno. unfold sameEnds. simpl. auto. }
    rewrite app_nil_r. unfold removeLink. apply list_filter_iff.
    intros link. unfold sameEnds. simpl. tauto. }
  rewrite Hn, Hl in H2.
  exists routers1, nodes1, (links ++ [mkLink a b c]), routers2.
  assert (a ∈ nodes1 ∧ b ∈ nodes1) as [? ?].
  { unfold nodes1. rewrite !elem_of_union, !elem_of_singleton. auto. }
  split; [done|]. split; [done|]. split; [done|]. split; [done|]. split; [done|].
  apply removeLink_absent.
Qed.

(** ** A node without links *)

Lemma neighbourOf_in_nodes nodes links link id :
  linkEndsIn nodes links → link ∈ links → neighbourOf link id ≠ -1 →
  neighbourOf link id ∈ nodes.
Proof.
  intros Hends Hlink Hn. destruct (Hends link Hlink) as [H1 H2].
  destruct (neighbourOf_cases link id) as [E|[E|E]]; rewrite E in *; done.
Qed.

(** X13 — a node without links stays unreachable: for link costs between 0
    and [costMax], when no link of the list has the known node [x] as an
    end, then in the collection [doBellmanFordAlg] returns for the seeded
    routers, router [x] still holds the table its constructor built, every
    other router holds cost 9999 for [x], and [sendMessages] reports every
    message between [x] and another known node as unreachable, without
    walking any hop. *)
Theorem isolated_node_unreachable nodes links routers fuel routers' x :
  costsWithin links → seeded nodes links routers → x ∈ nodes →
  (∀ link, link ∈ links → node1 link ≠ x ∧ node2 link ≠ x) →
  doBellmanFordAlg fuel routers nodes links = Done routers' →
  (∀ r, r ∈ routers' → getID r = x → getRoutingTable r = RoutingTable.make x nodes) ∧
  (∀ r, r ∈ routers' → getID r ≠ x → getPathCost r x = 9999) ∧
  ∀ msg fuel',
    sourceID msg ∈ nodes → destinationID msg ∈ nodes →
    sourceID msg ≠ destinationID msg →
    sourceID msg = x ∨ destinationID msg = x →
    sendMessage fuel' routers' msg =
      Done ("from " +:+ to_string (sourceID msg) +:+ " to " +:+
            to_string (destinationID msg) +:+
            " cost infinite hops unreachable message " +:+ message msg +:+ nl +:+ nl).
Proof.
  intros Hcosts Hseed Hx Hiso Hrun.
  destruct (seeded_invariants _ _ _ Hcosts Hseed) as (Hends & Hwf & Hb).
  set (Q := fun rs : list Router =>
    wellFormed nodes rs ∧ boundedCosts rs ∧
    (∀ r, r ∈ rs → ID r = x → RT r = RoutingTable.make x nodes) ∧
    (∀ r, r ∈ rs → ID r ≠ x → getPathCost r x = 9999)).
  assert (∀ link id, link ∈ links → neighbourOf link id ≠ -1 →
            id ≠ x ∧ neighbourOf link id ≠ x) as Hnox.
  { intros link id Hlink Hn. destruct (Hiso link Hlink) as [H1 H2].
    destruct (neighbourOf_joins link id _ eq_refl) as [?|[[? ?]|[? ?]]];
      [done|split; congruence..]. }
  assert (Q routers') as (Hwf' & Hb' & Hown & Hto).
  { apply (doBellmanFordAlg_inv Q nodes links) with (fuel := fuel) (routers := routers);
      [| |done].
    - clear routers routers' Hseed Hrun Hwf Hb.
      intros rs i router d link j nb (Hwf & Hb & Hown & Hto) Hi Hd Hlink HN1 HNd Hnb Hsh Hle.
      unfold getID in *. set (N := neighbourOf link (ID router)) in *.
      destruct (Hnox link (ID router) Hlink HN1) as [HRx HNx]. fold N in HNx.
      pose proof (neighbourOf_in_nodes _ _ _ (ID router) Hends Hlink HN1) as HN. fold N in HN.
      apply getRouterByID_Some in Hnb as (Hj & Hidnb & _). unfold getID in Hidnb.
      pose proof (bounded_getPathCost _ _ _ _ _ Hwf Hb Hi HN) as HcN.
      pose proof (bounded_getPathCost _ _ _ _ _ Hwf Hb Hj Hd) as Hcd.
      pose proof (bounded_getPathCost _ _ _ _ _ Hwf Hb Hi Hd) as Hcc.
      rewrite int_add_exact in * by (unfold int_min, int_max, costMax in *; lia).
      pose proof (lookup_lt_Some _ _ _ Hi) as Hlen.
      split; [by apply wellFormed_insert|].
      split; [apply boundedCosts_insert; [done..|lia]|].
      split.
      + intros r Hr Hid. apply list_elem_of_lookup in Hr as [k Hk].
        destruct (decide (k = i)) as [->|Hne].
        * rewrite list_lookup_insert_eq in Hk by done. injection Hk as <-. done.
        * rewrite list_lookup_insert_ne in Hk by done.
          apply Hown; [by eapply list_elem_of_lookup_2|done].
      + intros r Hr Hid. apply list_elem_of_lookup in Hr as [k Hk].
        destruct (decide (k = i)) as [->|Hne].
        * rewrite list_lookup_insert_eq in Hk by done. injection Hk as <-.
          rewrite getPathCost_addRoute.
          assert (getPathCost router x = 9999) as Hrx
            by (apply Hto; [by eapply list_elem_of_lookup_2|done]).
          destruct (decide (x = d)) as [->|Hxd]; [|done].
          assert (getPathCost nb d = 9999) as Hnx.
          { apply Hto; [by eapply list_elem_of_lookup_2|congruence]. }
          lia.
        * rewrite list_lookup_insert_ne in Hk by done.
          apply Hto; [by eapply list_elem_of_lookup_2|done].
    - split; [done|]. split; [done|].
      assert (∀ a b, (a = x ∨ b = x) → lastLinkCost links a b = None) as Hnone.
      { intros a b Hab. apply lastLinkCost_None. intros link Hlink Hs.
        destruct (Hiso link Hlink) as [H1 H2]. unfold sameEnds in Hs. simpl in Hs.
        destruct Hab; subst; tauto. }
      split.
      + intros r Hr Hid. apply map_eq. intros d.
        rewrite (seeded_lookup nodes links routers r d Hseed Hr).
        rewrite Hnone by auto. rewrite make_lookup, Hid. done.
      + intros r Hr Hid. unfold getPathCost, RoutingTable.getPathCost.
        rewrite (seeded_lookup nodes links routers r x Hseed Hr).
        rewrite Hnone by auto. rewrite decide_True by done.
        unfold seedEntry. by rewrite decide_False by done. }
  split; [exact Hown|]. split; [exact Hto|].
  intros msg fuel' Hsrc Hdst Hne Hor.
  destruct (wellFormed_router_of_node _ _ _ Hwf' Hsrc) as (i & src & Hg & Hi & Hid).
  assert (src ∈ routers') as Hin by (by eapply list_elem_of_lookup_2).
  assert (getPathCost src (destinationID msg) = 9999) as Hcost.
  { destruct (decide (ID src = x)) as [Hsx|Hsx].
    - unfold getPathCost, RoutingTable.getPathCost.
      unfold getRoutingTable in Hown. rewrite (Hown src Hin Hsx), make_lookup.
      rewrite decide_True by done. unfold seedEntry.
      by rewrite decide_False by congruence.
    - destruct Hor as [?|Hd]; [congruence|]. rewrite Hd. by apply Hto. }
  unfold sendMessage. rewrite Hg. cbv zeta. rewrite Hcost.
  rewrite decide_True by done. by rewrite !string_app_assoc.
Qed.

(** ** The forwarding-table report *)

Lemma concatStrings_app l1 l2 :
  concatStrings (l1 ++ l2) = concatStrings l1 +:+ concatStrings l2.
Proof.
  induction l1 as [|a l1 IH]; simpl; [done|].
  by rewrite IH, string_app_assoc.
Qed.

Lemma tableEntries_eq (table : gmap Z (Z * Z)) :
  tableEntries table =
    (fun d => (d, (RoutingTable.getNextHop table d, RoutingTable.getPathCost table d)))
      <$> in_order (dom table).
Proof.
  unfold tableEntries.
  assert (∀ d, d ∈ in_order (dom table) → is_Some (table !! d)) as Hin.
  { intros d Hd. apply elem_of_in_order in Hd. by apply elem_of_dom. }
  revert Hin. generalize (in_order (dom table)) as l.
  induction l as [|a l IH]; intros Hin; [done|]. simpl.
  destruct (Hin a) as [[h c] Ha]; [apply list_elem_of_here|].
  unfold RoutingTable.getNextHop, RoutingTable.getPathCost at 1. rewrite Ha. simpl.
  f_equal. apply IH. intros d ?. by apply Hin, list_elem_of_further.
Qed.

Lemma writeEntries_eq outFile r l :
  foldl writeEntry outFile
        ((fun d => (d, (getNextHop r d, getPathCost r d))) <$> l) =
    outFile +:+ concatStrings (tableLine r <$> l).
Proof.
  revert outFile. induction l as [|d l IH]; intros outFile; simpl.
  - by rewrite string_app_nil_r.
  - rewrite IH. unfold writeEntry, tableLine. simpl.
    by rewrite !string_app_assoc.
Qed.

Lemma writeRouter_eq outFile r :
  writeRouter outFile r =
    outFile +:+ (concatStrings (tableLine r <$> in_order (dom (RT r))) +:+ nl).
Proof.
  unfold writeRouter, getRoutingTable. rewrite tableEntries_eq.
  change (fun d => (d, (RoutingTable.getNextHop (RT r) d, RoutingTable.getPathCost (RT r) d)))
    with (fun d => (d, (getNextHop r d, getPathCost r d))).
  rewrite writeEntries_eq. by rewrite string_app_assoc.
Qed.

Lemma writeFT_eq outFile routers :
  writeFT outFile routers =
    outFile +:+
    concatStrings
      ((fun r => concatStrings (tableLine r <$> in_order (dom (RT r))) +:+ nl) <$> routers).
Proof.
  unfold writeFT. revert outFile.
  induction routers as [|r routers IH]; intros outFile; simpl.
  - by rewrite string_app_nil_r.
  - rewrite IH, writeRouter_eq. by rewrite !string_app_assoc.
Qed.

(** X15 — the report of [writeFT]: the text is appended to what the file
    held; for a collection with one router per node id and tables over the
    node ids it consists of one block per router, in the order of the
    collection (ascending id), each block holding one line
    [destination nextHop pathCost] per node id, in ascending order of
    destination, followed by an empty line. *)
Theorem writeFT_report nodes outFile routers :
  wellFormed nodes routers →
  writeFT outFile routers =
    outFile +:+
    concatStrings
      ((fun r => concatStrings (tableLine r <$> in_order nodes) +:+ nl) <$> routers).
Proof.
  intros [_ Hdom]. rewrite writeFT_eq. do 2 f_equal.
  apply list_fmap_ext. intros i r Hi.
  pose proof (Forall_lookup_1 _ _ _ _ Hdom Hi) as Hr. simpl in Hr. by rewrite Hr.
Qed.

(** ** The messages delivered *)

(** The texts [sendMessages] has written when it returns. *)
Lemma sendMessages_texts fuel outFile routers messages outFile' :
  sendMessages fuel outFile routers messages = (outFile', Done ()) →
  ∃ texts,
    Forall2 (fun msg text => sendMessage fuel routers msg = Done text) messages texts ∧
    outFile' = outFile +:+ concatStrings texts.
Proof.
  revert outFile. induction messages as [|msg messages IH]; intros outFile; simpl.
  - intros [= <-]. exists []. split; [constructor|]. simpl.
    by rewrite string_app_nil_r.
  - destruct (sendMessage fuel routers msg) as [text| |] eqn:Hmsg; [|done..].
    intros Hrest. apply IH in Hrest as (texts & Hall & ->).
    exists (text :: texts). split; [by constructor|].
    simpl. by rewrite string_app_assoc.
Qed.

(** X16 — [sendMessages] returns exactly when every message is delivered
    or reported, and then the output file holds what it held before
    followed by the texts of the messages, in the order of the message
    list. *)
Theorem sendMessages_returns fuel outFile routers messages outFile' :
  sendMessages fuel outFile routers messages = (outFile', Done ()) ↔
  ∃ texts,
    Forall2 (fun msg text => sendMessage fuel routers msg = Done text) messages texts ∧
    outFile' = outFile +:+ concatStrings texts.
Proof.
  split; [apply sendMessages_texts|].
  intros (texts & Hall & ->). revert outFile.
  induction Hall as [|msg text messages texts Hmsg _ IH]; intros outFile; simpl.
  - by rewrite string_app_nil_r.
  - rewrite Hmsg, IH. by rewrite string_app_assoc.
Qed.

(** X17 — the hop walk of [sendMessages] follows the next hops: the loop
    returns exactly when the chain of next hops for the destination,
    started at the source, reaches the destination through routers of the
    collection; it then has appended the ids of the routers visited, the
    source first and the destination left out, each followed by a space. *)
Theorem hopWalk_follows_next_hops fuel routers current d outMessage outMessage' :
  hopWalk fuel routers current d outMessage = Done outMessage' ↔
  ∃ hops,
    hopPath routers d current hops ∧ (length hops < fuel)%nat ∧
    outMessage' =
      outMessage +:+ concatStrings ((fun h => to_string h +:+ " ") <$> hops).
Proof.
  revert current outMessage. induction fuel as [|fuel IH]; intros current outMessage; simpl.
  - split; [done|]. intros (hops & _ & Hlen & _). lia.
  - destruct (decide (current ≠ d)) as [Hne|Heq].
    + destruct (getRouterByID routers current) as [[j router]|] eqn:Hg.
      * rewrite IH. split.
        -- intros (hops & Hpath & Hlen & ->). exists (current :: hops).
           split; [by eapply hopPath_forward|]. split; [simpl; lia|].
           simpl. by rewrite !string_app_assoc.
        -- intros (hops & Hpath & Hlen & ->).
           inversion Hpath as [|? j' router' hops' _ Hg' Hpath']; subst; [done|].
           rewrite Hg in Hg'. injection Hg' as <- <-.
           exists hops'. split; [done|]. split; [simpl in Hlen; lia|].
           simpl. by rewrite !string_app_assoc.
      * split; [done|]. intros (hops & Hpath & _).
        inversion Hpath; subst; [done|congruence].
    + apply dec_stable in Heq. subst current. split.
      * intros [= <-]. exists []. split; [constructor|]. split; [simpl; lia|].
        simpl. by rewrite string_app_nil_r.
      * intros (hops & Hpath & _ & ->).
        inversion Hpath; subst; [|done]. simpl. by rewrite string_app_nil_r.
Qed.

(** ** Routes that descend towards the destination *)

Lemma neighbourOf_other link id :
  node1 link ≠ node2 link → neighbourOf link id ≠ -1 → neighbourOf link id ≠ id.
Proof.
  intros Hne Hn Heq.
  destruct (neighbourOf_joins link id _ eq_refl) as [?|[[? ?]|[? ?]]]; [done|congruence..].
Qed.

Section Descend.
Context (nodes : gset Z) (links : list Link).
Hypothesis Hends : linkEndsIn nodes links.
Hypothesis Hcosts : linkCostsIn 1 9998 links.
Hypothesis Hns : noSelfLinks links.

Lemma seeded_routesDescend routers :
  seeded nodes links routers → routesDescend routers.
Proof.
  intros Hseed r d h c Hr He.
  rewrite (seeded_lookup nodes links routers r d Hseed Hr) in He.
  destruct (lastLinkCost links (ID r) d) as [c'|] eqn:Hl.
  - injection He as <- <-.
    apply lastLinkCost_Some in Hl as (link & Hlink & Hs & <-).
    pose proof (Hcosts link Hlink). split; [lia|]. split; [lia|]. auto.
  - case_decide; [|done]. injection He as He. unfold seedEntry in He.
    case_decide; injection He as <- <-.
    + split; [lia|]. split; intros; congruence.
    + split; [lia|]. split; intros; lia.
Qed.

Lemma adopt_routesDescend rs i router d link j nb :
  wellFormed nodes rs → routesDescend rs →
  rs !! i = Some router → d ∈ nodes → link ∈ links →
  neighbourOf link (getID router) ≠ -1 →
  neighbourOf link (getID router) ≠ d →
  getRouterByID rs (neighbourOf link (getID router)) = Some (j, nb) →
  int_add (getPathCost router (neighbourOf link (getID router))) (getPathCost nb d)
    ≤ getPathCost router d →
  routesDescend (<[i := addRoute router d (neighbourOf link (getID router))
                     (int_add (getPathCost router (neighbourOf link (getID router)))
                              (getPathCost nb d))]> rs).
Proof.
  intros Hwf Hdesc Hi Hd Hlink HN1 HNd Hnb Hle.
  unfold getID in *. set (N := neighbourOf link (ID router)) in *.
  pose proof (neighbourOf_in_nodes _ _ _ (ID router) Hends Hlink HN1) as HN. fold N in HN.
  pose proof (neighbourOf_other link (ID router) (Hns link Hlink) HN1) as HNR. fold N in HNR.
  pose proof Hnb as (Hj & Hidnb & _)%getRouterByID_Some. unfold getID in Hidnb.
  pose proof (lookup_lt_Some _ _ _ Hi) as Hlen.
  assert (router ∈ rs) as Hrin by (by eapply list_elem_of_lookup_2).
  assert (nb ∈ rs) as Hnbin by (by eapply list_elem_of_lookup_2).
  assert (j ≠ i) as Hji.
  { intros ->. rewrite Hi in Hj. injection Hj as <-. done. }
  destruct (wellFormed_entry _ _ _ _ _ Hwf Hi HN) as [[hN cN] HeN].
  destruct (wellFormed_entry _ _ _ _ _ Hwf Hj Hd) as [[hd cd] Hed].
  destruct (wellFormed_entry _ _ _ _ _ Hwf Hi Hd) as [[hc cur] Hec].
  rewrite (getPathCost_entry _ _ _ _ HeN), (getPathCost_entry _ _ _ _ Hed),
          (getPathCost_entry _ _ _ _ Hec) in *.
  destruct (Hdesc router N hN cN Hrin HeN) as (HbN & HposN & _).
  destruct (Hdesc nb d hd cd Hnbin Hed) as (Hbd & _ & _).
  destruct (Hdesc router d hc cur Hrin Hec) as (Hbc & _ & _).
  specialize (HposN ltac:(done)).
  rewrite int_add_exact in * by (unfold int_min, int_max; lia).
  set (R' := addRoute router d N (cN + cd)).
  (* a router that held a cheaper route still does *)
  assert (∀ h' d' c', (∃ j' nb', getRouterByID rs h' = Some (j', nb') ∧
                                 getPathCost nb' d' < c') →
            ∃ j' nb', getRouterByID (<[i := R']> rs) h' = Some (j', nb') ∧
                      getPathCost nb' d' < c') as Hkeep.
  { intros h' d' c' (j' & nb' & Hg & Hlt).
    rewrite (getRouterByID_insert _ _ _ R' _ Hi) by done. rewrite Hg. simpl.
    eexists _, _. split; [done|].
    destruct (decide (j' = i)) as [->|]; [|done].
    apply getRouterByID_Some in Hg as (Hg & _). rewrite Hi in Hg. injection Hg as <-.
    unfold R'. rewrite getPathCost_addRoute.
    case_decide as Hdd; [subst d'|done].
    rewrite (getPathCost_entry _ _ _ _ Hec) in Hlt. lia. }
  intros r d' h' c' Hr He. apply list_elem_of_lookup in Hr as [k Hk].
  destruct (decide (k = i)) as [->|Hne].
  - rewrite list_lookup_insert_eq in Hk by done. injection Hk as <-.
    simpl in He. unfold RoutingTable.addRoute in He.
    destruct (decide (d' = d)) as [->|Hdd].
    + rewrite lookup_insert_eq in He. injection He as <- <-.
      split; [lia|]. split; [intros; lia|]. intros _ _. right.
      apply Hkeep. exists j, nb. split; [done|].
      rewrite (getPathCost_entry _ _ _ _ Hed). lia.
    + rewrite lookup_insert_ne in He by done.
      destruct (Hdesc router d' h' c' Hrin He) as (H1 & H2 & H3).
      split; [done|]. split; [done|]. intros Hid Hc.
      destruct (H3 Hid Hc) as [?|Hex]; [by left|right; by apply Hkeep].
  - rewrite list_lookup_insert_ne in Hk by done.
    assert (r ∈ rs) as Hrin' by (by eapply list_elem_of_lookup_2).
    destruct (Hdesc r d' h' c' Hrin' He) as (H1 & H2 & H3).
    split; [done|]. split; [done|]. intros Hid Hc.
    destruct (H3 Hid Hc) as [?|Hex]; [by left|right; by apply Hkeep].
Qed.

Lemma doBellmanFordAlg_routesDescend fuel routers routers' :
  seeded nodes links routers →
  doBellmanFordAlg fuel routers nodes links = Done routers' →
  wellFormed nodes routers' ∧ routesDescend routers'.
Proof.
  intros Hseed Hrun.
  apply (doBellmanFordAlg_inv (fun rs => wellFormed nodes rs ∧ routesDescend rs) nodes links)
    with (fuel := fuel) (routers := routers); [| |done].
  - intros rs i router d link j nb [Hwf Hdesc] Hi Hd Hlink HN1 HNd Hnb _ Hle. split.
    + by apply wellFormed_insert.
    + by eapply adopt_routesDescend.
  - split; [by eapply seeded_shape|by apply seeded_routesDescend].
Qed.

End Descend.

(** ** Delivery of messages between known nodes *)

Lemma hopWalk_fuel_mono n m routers current d outMessage outMessage' :
  hopWalk n routers current d outMessage = Done outMessage' → (n ≤ m)%nat →
  hopWalk m routers current d outMessage = Done outMessage'.
Proof.
  revert m current outMessage. induction n as [|n IH]; intros m current outMessage; simpl;
    [done|].
  intros H Hle. destruct m as [|m]; [lia|]. simpl.
  destruct (decide (current ≠ d)); [|done].
  destruct (getRouterByID routers current) as [[j r]|]; [|done].
  apply IH; [done|lia].
Qed.

Lemma sendMessage_fuel_mono n m routers msg text :
  sendMessage n routers msg = Done text → (n ≤ m)%nat →
  sendMessage m routers msg = Done text.
Proof.
  unfold sendMessage. destruct (getRouterByID routers (sourceID msg)) as [[i src]|]; [|done].
  cbv zeta. case_decide; [done|].
  destruct (hopWalk n _ _ _ _) as [out| |] eqn:Hwalk; try done.
  intros [= <-] Hle. by rewrite (hopWalk_fuel_mono _ _ _ _ _ _ _ Hwalk Hle).
Qed.

(** Along routes that descend, the walk reaches the destination before the
    fuel falls below the cost of the route. *)
Lemma hopWalk_descends nodes routers d :
  wellFormed nodes routers → routesDescend routers → d ∈ nodes →
  ∀ (n : nat) current outMessage,
    (current = d ∨
     ∃ j r, getRouterByID routers current = Some (j, r) ∧
            getPathCost r d < 9999 ∧ getPathCost r d < Z.of_nat n) →
    ∃ outMessage', hopWalk (S n) routers current d outMessage = Done outMessage'.
Proof.
  intros Hwf Hdesc Hd. induction n as [|n IH]; intros current outMessage Hcur.
  - simpl. destruct (decide (current ≠ d)) as [Hne|_]; [|by eauto].
    destruct Hcur as [?|(j & r & Hg & H9 & Hn)]; [done|].
    apply getRouterByID_Some in Hg as (Hj & Hid & _). unfold getID in Hid.
    destruct (wellFormed_entry _ _ _ _ _ Hwf Hj Hd) as [[h c] He].
    rewrite (getPathCost_entry _ _ _ _ He) in *.
    destruct (Hdesc r d h c) as (_ & Hpos & _); [by eapply list_elem_of_lookup_2|done|].
    specialize (Hpos ltac:(congruence)). lia.
  - cbn [hopWalk]. destruct (decide (current ≠ d)) as [Hne|_]; [|by eauto].
    destruct Hcur as [?|(j & r & Hg & H9 & Hn)]; [done|]. rewrite Hg.
    apply getRouterByID_Some in Hg as (Hj & Hid & _). unfold getID in Hid.
    destruct (wellFormed_entry _ _ _ _ _ Hwf Hj Hd) as [[h c] He].
    rewrite (getPathCost_entry _ _ _ _ He) in *.
    rewrite (getNextHop_entry _ _ _ _ He).
    destruct (Hdesc r d h c) as (_ & _ & Hnext); [by eapply list_elem_of_lookup_2|done|].
    apply IH. destruct (Hnext ltac:(congruence) H9) as [?|(j' & nb & Hg' & Hlt)];
      [by left|right].
    exists j', nb. split; [done|]. lia.
Qed.

Lemma sendMessage_delivers nodes routers msg :
  wellFormed nodes routers → routesDescend routers →
  sourceID msg ∈ nodes → destinationID msg ∈ nodes →
  ∃ text, ∀ fuel, 10000 ≤ Z.of_nat fuel → sendMessage fuel routers msg = Done text.
Proof.
  intros Hwf Hdesc Hsrc Hdst.
  assert (∃ text, sendMessage (S (Z.to_nat 9999)) routers msg = Done text) as [text Htext].
  { unfold sendMessage.
    destruct (wellFormed_router_of_node _ _ _ Hwf Hsrc) as (i & src & Hg & Hi & Hid).
    rewrite Hg. cbv zeta. case_decide as Hc; [by eauto|].
    destruct (wellFormed_entry _ _ _ _ _ Hwf Hi Hdst) as [[h c] He].
    destruct (Hdesc src (destinationID msg) h c) as (Hb & _ & _);
      [by eapply list_elem_of_lookup_2|done|].
    rewrite (getPathCost_entry _ _ _ _ He) in *.
    match goal with
    | |- context [hopWalk _ _ _ _ ?out] =>
        destruct (hopWalk_descends nodes routers (destinationID msg) Hwf Hdesc Hdst
                    (Z.to_nat 9999) (sourceID msg) out) as [out' Hwalk]
    end.
    - right. exists i, src. rewrite (getPathCost_entry _ _ _ _ He). split; [done|]. lia.
    - rewrite Hwalk. by eauto. }
  exists text. intros fuel Hle. eapply sendMessage_fuel_mono; [exact Htext|lia].
Qed.

(** X18 — delivery between known nodes: for a topology whose links join
    two distinct nodes at a cost between 1 and 9998, and for the routers
    [doBellmanFordAlg] returned for it, [sendMessages] handles every message
    whose source and destination are node ids without throwing and without
    walking in circles: the message is reported unreachable, or its hop walk
    reaches the destination in fewer than 10000 evaluations of the loop
    condition; the text written for the message is the same whatever the
    bound on the loop from 10000 on. *)
Theorem messages_between_known_nodes_are_delivered
    nodes links routers fuel0 routers' msg :
  linkCostsIn 1 9998 links → noSelfLinks links →
  seeded nodes links routers →
  doBellmanFordAlg fuel0 routers nodes links = Done routers' →
  sourceID msg ∈ nodes → destinationID msg ∈ nodes →
  ∃ text, ∀ fuel, 10000 ≤ Z.of_nat fuel → sendMessage fuel routers' msg = Done text.
Proof.
  intros Hcosts Hns Hseed Hrun Hsrc Hdst.
  pose proof (seeded_linkEndsIn _ _ _ Hseed) as Hends.
  destruct (doBellmanFordAlg_routesDescend nodes links Hends Hcosts Hns fuel0 routers routers'
              Hseed Hrun) as [Hwf Hdesc].
  by eapply sendMessage_delivers.
Qed.

(** The bound on the link costs matters: on the topology [1 2 20000; 1 3 1]
    router 1 replaces its direct route to node 2 by a route through node 3
    at cost 1 + 9999, although router 3 holds no route to node 2; a message
    from 1 to 2 then walks to router 3, reads the next hop -1 there, and the
    lookup of a router with id -1 throws. *)
Lemma message_thrown_past_a_dead_end :
  ∃ links nodes routers0 routers r1 r3,
    initTopology costlyLinkTopology [] ∅ [] = Some (links, nodes, routers0) ∧
    doBellmanFordAlg 2 routers0 nodes links = Done routers ∧
    getRouterByID routers 1 = Some (0%nat, r1) ∧ RT r1 !! 2 = Some (3, 10000) ∧
    getRouterByID routers 3 = Some (2%nat, r3) ∧ RT r3 !! 2 = Some (-1, 9999) ∧
    sendMessage 5 routers (mkMessage 1 2 "x") = Thrown.
Proof.
  eexists _, _, _, _, _, _.
  split; [vm_compute; reflexivity|].
  split; [vm_compute; reflexivity|].
  split; [vm_compute; reflexivity|].
  split; [vm_compute; reflexivity|].
  split; [vm_compute; reflexivity|].
  split; vm_compute; reflexivity.
Qed.

(** ** The driver returns *)

Lemma sendMessages_fuel_mono n m outFile routers messages outFile' :
  sendMessages n outFile routers messages = (outFile', Done ()) → (n ≤ m)%nat →
  sendMessages m outFile routers messages = (outFile', Done ()).
Proof.
  intros H Hle. revert outFile H.
  induction messages as [|msg messages IH]; intros outFile; simpl; [done|].
  destruct (sendMessage n routers msg) as [text| |] eqn:Hmsg; try done.
  rewrite (sendMessage_fuel_mono _ _ _ _ _ Hmsg Hle). apply IH.
Qed.

Lemma sendMessages_delivers nodes routers messages outFile :
  wellFormed nodes routers → routesDescend routers →
  Forall (fun msg => sourceID msg ∈ nodes ∧ destinationID msg ∈ nodes) messages →
  ∃ outFile', ∀ fuel, 10000 ≤ Z.of_nat fuel →
    sendMessages fuel outFile routers messages = (outFile', Done ()).
Proof.
  intros Hwf Hdesc Hall. revert outFile.
  induction Hall as [|msg messages [Hsrc Hdst] _ IH]; intros outFile.
  - exists outFile. done.
  - destruct (sendMessage_delivers nodes routers msg Hwf Hdesc Hsrc Hdst) as [text Htext].
    destruct (IH (outFile +:+ text)) as [outFile' Hrest].
    exists outFile'. intros fuel Hfuel. simpl. rewrite (Htext fuel Hfuel). by apply Hrest.
Qed.

(** One round of the driver: convergence, report and messages. *)
Lemma round_returns nodes links messages seed outFile :
  plainState nodes links messages → seeded nodes links seed →
  ∃ routers outFile' fuel0, ∀ fuel, (fuel0 ≤ fuel)%nat →
    doBellmanFordAlg fuel seed nodes links = Done routers ∧
    sendMessages fuel (writeFT outFile routers) routers messages = (outFile', Done ()).
Proof.
  intros (Hends & Hcosts & Hns & Hids & Hmsgs) Hseed.
  assert (costsAreInts links) as Hints.
  { intros link Hlink. pose proof (Hcosts link Hlink). unfold int_min, int_max. lia. }
  destruct (seeded_range _ _ _ Hints Hseed) as (_ & Hwf & Hrange).
  set (n0 := S (Z.to_nat (totalCost nodes seed - floorCost nodes))).
  pose proof (totalCost_floor _ _ Hwf Hrange) as Hfloor.
  destruct (doBellmanFordAlg_terminates_within nodes links Hends Hids n0 seed Hwf Hrange)
    as (routers & Hrun & _); [unfold n0; lia|].
  destruct (doBellmanFordAlg_routesDescend nodes links Hends Hcosts Hns n0 seed routers
              Hseed Hrun) as [Hwf' Hdesc].
  destruct (sendMessages_delivers nodes routers messages (writeFT outFile routers)
              Hwf' Hdesc Hmsgs) as [outFile' Hsend].
  exists routers, outFile', (n0 `max` Z.to_nat 10000)%nat. intros fuel Hfuel. split.
  - eapply doBellmanFordAlg_fuel_mono; [exact Hrun|lia].
  - apply Hsend. lia.
Qed.

Lemma applyChange_plainState change routers nodes links messages :
  plainState nodes links messages → plainChange change →
  ∃ seed nodes' links',
    applyChange change routers nodes links = Some (seed, nodes', links') ∧
    plainState nodes' links' messages ∧ seeded nodes' links' seed.
Proof.
  intros (Hends & Hcosts & Hns & Hids & Hmsgs) (Hid1 & Hid2 & Hcase).
  destruct (applyChange_known change routers nodes links Hends) as (seed & Happ & Hseed).
  set (nodes' := {[node2 change]} ∪ ({[node1 change]} ∪ nodes)) in *.
  set (links' := if decide (pathCost change = -999) then removeLink links change
                 else links ++ [mkLink (node1 change) (node2 change) (pathCost change)])
    in *.
  exists seed, nodes', links'. split; [done|]. split; [|done].
  pose proof (seeded_linkEndsIn _ _ _ Hseed) as Hends'.
  assert (nodes ⊆ nodes') as Hsub.
  { intros n Hn. unfold nodes'. rewrite !elem_of_union. auto. }
  assert (nodes' = {[node2 change]} ∪ ({[node1 change]} ∪ nodes)) as Hn by done.
  assert (links' = if decide (pathCost change = -999) then removeLink links change
                   else links ++ [mkLink (node1 change) (node2 change) (pathCost change)])
    as Hl by done.
  assert (∀ link, link ∈ links' →
            link ∈ links ∨
            (pathCost change ≠ -999 ∧
             link = mkLink (node1 change) (node2 change) (pathCost change))) as Hfrom.
  { intros link. rewrite Hl. case_decide.
    - rewrite removeLink_spec. tauto.
    - rewrite elem_of_app, list_elem_of_singleton. tauto. }
  split; [done|]. split; [|split; [|split]].
  - intros link Hlink. destruct (Hfrom link Hlink) as [?|[Hc ->]]; [by apply Hcosts|].
    simpl. destruct Hcase as [?|[_ ?]]; done.
  - intros link Hlink. destruct (Hfrom link Hlink) as [?|[Hc ->]]; [by apply Hns|].
    simpl. destruct Hcase as [?|[? _]]; done.
  - intros n. rewrite Hn, !elem_of_union, !elem_of_singleton.
    intros [->|[->|?]]; [done..|by apply Hids].
  - eapply Forall_impl; [exact Hmsgs|]. intros msg [? ?]. split; by apply Hsub.
Qed.

Lemma dvrChanges_returns messages changes :
  Forall plainChange changes →
  ∀ links nodes routers outFile,
    plainState nodes links messages →
    ∃ final fuel0, ∀ fuel, (fuel0 ≤ fuel)%nat →
      dvrChanges fuel messages (links, nodes, routers, outFile) changes = Done final.
Proof.
  induction 1 as [|change changes Hchange _ IH]; intros links nodes routers outFile Hst.
  - exists (links, nodes, routers, outFile), 0%nat. done.
  - destruct (applyChange_plainState change routers nodes links messages Hst Hchange)
      as (seed & nodes' & links' & Happ & Hst' & Hseed).
    destruct (round_returns nodes' links' messages seed outFile Hst' Hseed)
      as (routers' & outFile' & f1 & Hround).
    destruct (IH links' nodes' routers' outFile' Hst') as (final & f2 & Hrest).
    exists final, (f1 `max` f2)%nat. intros fuel Hfuel.
    destruct (Hround fuel ltac:(lia)) as [Hrun Hsend].
    cbn [dvrChanges]. unfold dvrChange. rewrite Happ, Hrun, Hsend.
    apply Hrest. lia.
Qed.

(** X19 — [dvr] returns: for a topology file with node ids not below -1
    and links between two distinct nodes at a cost between 1 and 9998, a
    changes file whose records remove a link or add such a link, and
    messages between nodes of the topology file, no call of [dvr] throws
    and both of its loops stop: every convergence reaches a sweep without
    update and every hop walk reaches its destination.  [dvr] returns in one
    final state and with one output file, whatever the bound on the loops
    above some number. *)
Theorem dvr_returns records messages changes :
  linkCostsIn 1 9998 records → noSelfLinks records → idsFrom (-1) records →
  Forall plainChange changes →
  Forall (fun msg => knownNode records (sourceID msg) ∧
                     knownNode records (destinationID msg)) messages →
  ∃ final fuel0, ∀ fuel, (fuel0 ≤ fuel)%nat →
    dvr fuel records messages changes = Done final.
Proof.
  intros Hcosts Hns Hids Hchanges Hmsgs.
  destruct (seeding_never_throws _ records (link_ends_known records))
    as (seed & Hseed0 & _).
  set (nodes := foldl (fun ns l => {[node2 l]} ∪ ({[node1 l]} ∪ ns)) ∅ records) in *.
  assert (initTopology records [] ∅ [] = Some (records, nodes, seed)) as Hinit.
  { unfold initTopology. simpl. fold nodes. unfold seeded in Hseed0. by rewrite Hseed0. }
  assert (∀ n, n ∈ nodes ↔ ∃ link, link ∈ records ∧ (n = node1 link ∨ n = node2 link))
    as Hnodes.
  { intros n. unfold nodes. rewrite elem_of_link_ends. split; [|auto].
    intros [Hn|?]; [|done]. by apply elem_of_empty in Hn. }
  pose proof (initTopology_seeded _ _ _ _ Hinit) as (_ & Hends & Hseed).
  assert (plainState nodes records messages) as Hst.
  { split; [done|]. split; [done|]. split; [done|]. split.
    - intros n Hn. apply Hnodes in Hn as (link & Hlink & Hor).
      destruct (Hids link Hlink). destruct Hor as [-> | ->]; done.
    - eapply Forall_impl; [exact Hmsgs|]. intros msg [Hs Hd].
      unfold knownNode in *. rewrite Exists_exists in Hs, Hd.
      split; apply Hnodes; [destruct Hs as (l & ? & ?)|destruct Hd as (l & ? & ?)];
        by exists l. }
  destruct (round_returns nodes records messages seed EmptyString Hst Hseed)
    as (routers & outFile & f1 & Hround).
  destruct (dvrChanges_returns messages changes Hchanges records nodes routers outFile Hst)
    as (final & f2 & Hrest).
  exists final, (f1 `max` f2)%nat. intros fuel Hfuel.
  destruct (Hround fuel ltac:(lia)) as [Hrun Hsend].
  unfold dvr. rewrite Hinit, Hrun, Hsend. apply Hrest. lia.
Qed.

(** ** The driver, round by round *)

Lemma writeFT_append outFile routers :
  writeFT outFile routers = outFile +:+ writeFT EmptyString routers.
Proof. by rewrite (writeFT_eq outFile), (writeFT_eq EmptyString). Qed.

Lemma dvrChanges_app fuel messages st changes1 changes2 :
  dvrChanges fuel messages st (changes1 ++ changes2) =
    match dvrChanges fuel messages st changes1 with
    | Done st' => dvrChanges fuel messages st' changes2
    | Thrown => Thrown
    | OutOfFuel => OutOfFuel
    end.
Proof.
  revert st. induction changes1 as [|change changes1 IH]; intros st; simpl; [done|].
  destruct (dvrChange fuel messages st change); [apply IH|done..].
Qed.

Lemma dvrChange_Done fuel messages links nodes routers outFile change final :
  dvrChange fuel messages (links, nodes, routers, outFile) change = Done final →
  ∃ seed nodes' links' routers' texts,
    applyChange change routers nodes links = Some (seed, nodes', links') ∧
    doBellmanFordAlg fuel seed nodes' links' = Done routers' ∧
    Forall2 (fun msg text => sendMessage fuel routers' msg = Done text) messages texts ∧
    final = (links', nodes', routers',
             outFile +:+ writeFT EmptyString routers' +:+ concatStrings texts).
Proof.
  unfold dvrChange.
  destruct (applyChange change routers nodes links) as [[[seed nodes'] links']|] eqn:Happ;
    [|done].
  destruct (doBellmanFordAlg fuel seed nodes' links') as [routers'| |] eqn:Hrun; try done.
  destruct (sendMessages fuel _ routers' messages) as [out' [[]| |]] eqn:Hsend; try done.
  intros [= <-]. apply sendMessages_texts in Hsend as (texts & Hall & ->).
  exists seed, nodes', links', routers', texts.
  split; [done|]. split; [done|]. split; [done|].
  by rewrite (writeFT_append outFile), string_app_assoc.
Qed.

(** X20 — the output of [dvr] grows round by round.  Without changes, it
    is the report of the routers converged for the topology file followed by
    the texts of the messages.  With one more change at the end of the
    changes file, [dvr] first does all it does without that change; the
    change is then applied to the state reached, the rebuilt routers are
    converged, and the output file receives, after what it held, the report
    of these routers followed by the texts of the same messages, now routed
    by them. *)
Theorem dvr_round_by_round fuel records messages :
  (∀ final,
     dvr fuel records messages [] = Done final →
     ∃ nodes seed routers texts,
       initTopology records [] ∅ [] = Some (records, nodes, seed) ∧
       doBellmanFordAlg fuel seed nodes records = Done routers ∧
       Forall2 (fun msg text => sendMessage fuel routers msg = Done text) messages texts ∧
       final = (records, nodes, routers,
                writeFT EmptyString routers +:+ concatStrings texts)) ∧
  (∀ changes change final',
     dvr fuel records messages (changes ++ [change]) = Done final' →
     ∃ links nodes routers outFile seed nodes' links' routers' texts,
       dvr fuel records messages changes = Done (links, nodes, routers, outFile) ∧
       applyChange change routers nodes links = Some (seed, nodes', links') ∧
       doBellmanFordAlg fuel seed nodes' links' = Done routers' ∧
       Forall2 (fun msg text => sendMessage fuel routers' msg = Done text) messages texts ∧
       final' = (links', nodes', routers',
                 outFile +:+ writeFT EmptyString routers' +:+ concatStrings texts)).
Proof.
  split.
  - intros final. unfold dvr.
    destruct (initTopology records [] ∅ []) as [[[links nodes] seed]|] eqn:Hinit; [|done].
    pose proof (initTopology_seeded _ _ _ _ Hinit) as (-> & _).
    destruct (doBellmanFordAlg fuel seed nodes records) as [routers| |] eqn:Hrun; try done.
    destruct (sendMessages fuel _ routers messages) as [out [[]| |]] eqn:Hsend; try done.
    simpl. intros [= <-]. apply sendMessages_texts in Hsend as (texts & Hall & ->).
    by exists nodes, seed, routers, texts.
  - intros changes change final'. unfold dvr.
    destruct (initTopology records [] ∅ []) as [[[links0 nodes0] seed0]|]; [|done].
    destruct (doBellmanFordAlg fuel seed0 nodes0 links0) as [routers0| |]; try done.
    destruct (sendMessages fuel _ routers0 messages) as [out0 [[]| |]]; try done.
    rewrite dvrChanges_app.
    destruct (dvrChanges fuel messages _ changes) as [[[[links nodes] routers] outFile]| |];
      try done.
    cbn [dvrChanges].
    destruct (dvrChange fuel messages _ change) as [st| |] eqn:Hstep; try done.
    intros [= <-].
    apply dvrChange_Done in Hstep
      as (seed & nodes' & links' & routers' & texts & ? & ? & ? & ->).
    by exists links, nodes, routers, outFile, seed, nodes', links', routers', texts.
Qed.

(** ** The text of a message line *)

Lemma dropChars_spaces n s : dropChars n (spaces n +:+ s) = s.
Proof. induction n as [|n IH]; [by destruct s|]. simpl. apply IH. Qed.

Lemma length_spaces_app n s : String.length (spaces n +:+ s) = (n + String.length s)%nat.
Proof. induction n as [|n IH]; [done|]. simpl. by rewrite IH. Qed.

Lemma find_first_not_of_space_spec original :
  match find_first_not_of_space original with
  | Some n => ∃ c rest, original = spaces n +:+ String c rest ∧ c ≠ Ascii.Space
  | None => original = spaces (String.length original)
  end.
Proof.
  induction original as [|c rest IH]; simpl; [done|].
  destruct (decide (c = Ascii.Space)) as [->|Hc].
  - destruct (find_first_not_of_space rest) as [n|]; simpl.
    + destruct IH as (c' & rest' & -> & Hc'). by exists c', rest'.
    + by rewrite <- IH.
  - by exists c, rest.
Qed.

(** X21 — the text [readMessagesFile] keeps of a message line: from the
    rest of the line after the two ids, the leading spaces are dropped and
    everything from the first other character on is kept, so the text is
    never empty and never starts with a space; when the rest of the line is
    empty or holds nothing but spaces, [substr] is called with [npos] and
    throws [std::out_of_range]. *)
Theorem messageText_spec original :
  match messageText original with
  | Some message =>
      ∃ n c rest,
        original = spaces n +:+ message ∧ message = String c rest ∧ c ≠ Ascii.Space
  | None => ∃ n, original = spaces n
  end.
Proof.
  unfold messageText, substr.
  pose proof (find_first_not_of_space_spec original) as H.
  destruct (find_first_not_of_space original) as [n|]; [|by eauto].
  destruct H as (c & rest & -> & Hc).
  rewrite decide_True by (rewrite length_spaces_app; lia).
  rewrite dropChars_spaces. by exists n, c, rest.
Qed.


(** ** The costs held are the costs of cheapest walks *)

Lemma walk_app links a b d t1 t2 :
  walk links a b t1 → walk links b d t2 → walk links a d (t1 + t2).
Proof.
  induction 1 as [a|a b' b w t Hw _ IH]; intros H2; [done|].
  rewrite <- Z.add_assoc. eapply walk_hop; [done|]. by apply IH.
Qed.

Lemma walk_nonneg links a d t :
  linkCostsIn 1 9998 links → walk links a d t → 0 ≤ t.
Proof.
  intros Hcosts. induction 1 as [a|a b d w t Hw _ IH]; [done|].
  apply lastLinkCost_Some in Hw as (link & Hlink & _ & <-).
  pose proof (Hcosts link Hlink). lia.
Qed.

Lemma sameEnds_neighbourOf a b link :
  a ≠ b → sameEnds (mkLink a b 0) link → neighbourOf link a = b.
Proof.
  unfold sameEnds, neighbourOf. simpl. intros Hne [[H1 H2]|[H1 H2]].
  - by rewrite decide_True.
  - rewrite decide_False by congruence. by rewrite decide_True.
Qed.

Section ShortestPaths.
Context (nodes : gset Z) (links : list Link).
Hypothesis Hends : linkEndsIn nodes links.
Hypothesis Hcosts : linkCostsIn 1 9998 links.
Hypothesis Hns : noSelfLinks links.

Lemma seeded_costsRealised routers :
  seeded nodes links routers → costsRealised links routers.
Proof.
  intros Hseed r d h c Hr He Hc.
  rewrite (seeded_lookup nodes links routers r d Hseed Hr) in He.
  destruct (lastLinkCost links (ID r) d) as [w|] eqn:Hl.
  - injection He as <- <-. rewrite <- (Z.add_0_r w).
    eapply walk_hop; [done|constructor].
  - case_decide; [|done]. injection He as He. unfold seedEntry in He.
    case_decide; injection He as <- <-; [subst; constructor|lia].
Qed.

Lemma adopt_costsRealised rs i router d link j nb :
  wellFormed nodes rs → routesDescend rs → costsRealised links rs →
  rs !! i = Some router → d ∈ nodes → link ∈ links →
  neighbourOf link (getID router) ≠ -1 →
  getRouterByID rs (neighbourOf link (getID router)) = Some (j, nb) →
  costsRealised links
    (<[i := addRoute router d (neighbourOf link (getID router))
             (int_add (getPathCost router (neighbourOf link (getID router)))
                      (getPathCost nb d))]> rs).
Proof.
  intros Hwf Hdesc Hreal Hi Hd Hlink HN1 Hnb.
  unfold getID in *. set (N := neighbourOf link (ID router)) in *.
  pose proof (neighbourOf_in_nodes _ _ _ (ID router) Hends Hlink HN1) as HN. fold N in HN.
  pose proof (neighbourOf_other link (ID router) (Hns link Hlink) HN1) as HNR. fold N in HNR.
  apply getRouterByID_Some in Hnb as (Hj & Hidnb & _). unfold getID in Hidnb.
  pose proof (lookup_lt_Some _ _ _ Hi) as Hlen.
  assert (router ∈ rs) as Hrin by (by eapply list_elem_of_lookup_2).
  assert (nb ∈ rs) as Hnbin by (by eapply list_elem_of_lookup_2).
  destruct (wellFormed_entry _ _ _ _ _ Hwf Hi HN) as [[hN cN] HeN].
  destruct (wellFormed_entry _ _ _ _ _ Hwf Hj Hd) as [[hd cd] Hed].
  rewrite (getPathCost_entry _ _ _ _ HeN), (getPathCost_entry _ _ _ _ Hed).
  destruct (Hdesc router N hN cN Hrin HeN) as (HbN & HposN & _).
  destruct (Hdesc nb d hd cd Hnbin Hed) as (Hbd & _ & _).
  specialize (HposN ltac:(done)).
  rewrite int_add_exact by (unfold int_min, int_max; lia).
  intros r d' h' c' Hr He Hc. apply list_elem_of_lookup in Hr as [k Hk].
  destruct (decide (k = i)) as [->|Hne].
  - rewrite list_lookup_insert_eq in Hk by done. injection Hk as <-.
    simpl in He |- *. unfold RoutingTable.addRoute in He.
    destruct (decide (d' = d)) as [->|Hdd].
    + rewrite lookup_insert_eq in He. injection He as <- <-.
      apply walk_app with N.
      * apply (Hreal router N hN cN); [done..|lia].
      * rewrite <- Hidnb. apply (Hreal nb d hd cd); [done..|lia].
    + rewrite lookup_insert_ne in He by done. by apply (Hreal router d' h' c').
  - rewrite list_lookup_insert_ne in Hk by done.
    apply (Hreal r d' h' c'); [by eapply list_elem_of_lookup_2|done..].
Qed.

Lemma doBellmanFordAlg_costsRealised fuel routers routers' :
  seeded nodes links routers →
  doBellmanFordAlg fuel routers nodes links = Done routers' →
  costsRealised links routers'.
Proof.
  intros Hseed Hrun.
  apply (doBellmanFordAlg_inv
           (fun rs => wellFormed nodes rs ∧ routesDescend rs ∧ costsRealised links rs)
           nodes links) with (fuel := fuel) (routers := routers); [| |done].
  - intros rs i router d link j nb (Hwf & Hdesc & Hreal) Hi Hd Hlink HN1 HNd Hnb _ Hle.
    split; [by apply wellFormed_insert|]. split.
    + by eapply adopt_routesDescend with (nodes := nodes) (links := links).
    + by eapply adopt_costsRealised.
  - split; [by eapply seeded_shape|].
    split; [by eapply seeded_routesDescend with (nodes := nodes) (links := links)
           |by apply seeded_costsRealised].
Qed.

(** No cost held is above the one seeding stored. *)
Lemma doBellmanFordAlg_below_seed fuel routers routers' :
  seeded nodes links routers →
  doBellmanFordAlg fuel routers nodes links = Done routers' →
  ∀ r b, r ∈ routers' →
    (∀ w, lastLinkCost links (ID r) b = Some w → getPathCost r b ≤ w) ∧
    (lastLinkCost links (ID r) (ID r) = None → ID r ∈ nodes → getPathCost r (ID r) ≤ 0).
Proof.
  intros Hseed Hrun.
  set (Q := fun rs : list Router => ∀ r b, r ∈ rs →
    (∀ w, lastLinkCost links (ID r) b = Some w → getPathCost r b ≤ w) ∧
    (lastLinkCost links (ID r) (ID r) = None → ID r ∈ nodes → getPathCost r (ID r) ≤ 0)).
  apply (doBellmanFordAlg_inv Q nodes links) with (fuel := fuel) (routers := routers);
    [| |done].
  - intros rs i router d link j nb HQ Hi _ _ _ _ _ _ Hle r b Hr.
    apply list_elem_of_lookup in Hr as [k Hk].
    destruct (decide (k = i)) as [->|Hne].
    + rewrite list_lookup_insert_eq in Hk by (by eapply lookup_lt_Some).
      injection Hk as <-. rewrite addRoute_ID.
      assert (router ∈ rs) as Hrin by (by eapply list_elem_of_lookup_2).
      split.
      * intros w Hw. rewrite getPathCost_addRoute.
        destruct (HQ router b Hrin) as [Hb _]. specialize (Hb w Hw).
        case_decide; [subst b; lia|done].
      * intros Hnone Hin. rewrite getPathCost_addRoute.
        destruct (HQ router b Hrin) as [_ Hs]. specialize (Hs Hnone Hin).
        case_decide as Hd; [subst d; lia|done].
    + rewrite list_lookup_insert_ne in Hk by done.
      apply HQ. by eapply list_elem_of_lookup_2.
  - intros r b Hr. split.
    + intros w Hw. pose proof (seeded_lookup nodes links routers r b Hseed Hr) as He.
      rewrite Hw in He. by rewrite (getPathCost_entry _ _ _ _ He).
    + intros Hnone Hin.
      pose proof (seeded_lookup nodes links routers r (ID r) Hseed Hr) as He.
      rewrite Hnone, decide_True in He by done.
      unfold seedEntry in He. rewrite decide_True in He by done.
      by rewrite (getPathCost_entry _ _ _ _ He).
Qed.

(** In the collection returned, no walk is cheaper than the cost held. *)
Lemma converged_cost_le_walk fuel routers routers' :
  (-1) ∉ nodes → seeded nodes links routers →
  doBellmanFordAlg fuel routers nodes links = Done routers' →
  ∀ a d t, walk links a d t → d ∈ nodes →
  ∀ i r, routers' !! i = Some r → ID r = a → getPathCost r d ≤ t.
Proof.
  intros Hno Hseed Hrun.
  destruct (doBellmanFordAlg_routesDescend nodes links Hends Hcosts Hns fuel routers routers'
              Hseed Hrun) as [Hwf Hdesc].
  pose proof (doBellmanFordAlg_below_seed fuel routers routers' Hseed Hrun) as Hbelow.
  pose proof (doBellmanFordAlg_fixpoint _ _ _ _ _ Hrun) as Hquiet.
  (* the cost a router holds is at most the one it was seeded with *)
  assert (∀ i r b, routers' !! i = Some r → b ∈ nodes →
            ∃ e, RT r !! b = Some e ∧ 0 ≤ e.2 ≤ 9999 ∧
                 ∀ w, lastLinkCost links (ID r) b = Some w → e.2 ≤ w) as Hseeded.
  { intros i r b Hi Hb.
    destruct (wellFormed_entry _ _ _ _ _ Hwf Hi Hb) as [[h c] He].
    assert (r ∈ routers') as Hr by (by eapply list_elem_of_lookup_2).
    exists (h, c). split; [done|]. simpl.
    destruct (Hdesc r b h c Hr He) as (Hbound & _).
    split; [done|]. intros w Hw.
    destruct (Hbelow r b Hr) as [Hle _]. specialize (Hle w Hw).
    by rewrite (getPathCost_entry _ _ _ _ He) in Hle. }
  (* the cost a router holds for itself is 0 *)
  assert (∀ i r, routers' !! i = Some r → getPathCost r (ID r) ≤ 0) as Hself.
  { intros i r Hi.
    assert (r ∈ routers') as Hr by (by eapply list_elem_of_lookup_2).
    destruct (Hbelow r (ID r) Hr) as [_ Hs]. apply Hs; [|by eapply wellFormed_ID_in].
    apply lastLinkCost_None. intros link Hlink Hsame.
    destruct (Hns link Hlink). unfold sameEnds in Hsame. simpl in Hsame.
    destruct Hsame as [[? ?]|[? ?]]; congruence. }
  intros a d t Hwalk Hd.
  induction Hwalk as [a|a b d w t Hw Hwalk IH]; intros i r Hi Hida.
  - subst a. by eapply Hself.
  - specialize (IH Hd).
    pose proof (walk_nonneg _ _ _ _ Hcosts Hwalk) as Ht.
    pose proof Hw as (link & Hlink & Hs & Hcw)%lastLinkCost_Some.
    pose proof (Hcosts link Hlink) as Hcl.
    assert (a ≠ b) as Hab.
    { intros ->. destruct (Hns link Hlink). unfold sameEnds in Hs. simpl in Hs.
      destruct Hs as [[? ?]|[? ?]]; congruence. }
    assert (b ∈ nodes) as Hb.
    { destruct (Hends link Hlink). unfold sameEnds in Hs. simpl in Hs.
      destruct Hs as [[? ?]|[? ?]]; congruence. }
    destruct (Hseeded i r b Hi Hb) as ([hb cb] & Heb & Hbb & Hlew). simpl in *.
    rewrite Hida in Hlew. specialize (Hlew w Hw).
    destruct (Hseeded i r d Hi Hd) as ([hd' cd'] & Hed & Hbd & _). simpl in *.
    rewrite (getPathCost_entry _ _ _ _ Hed).
    destruct (decide (b = d)) as [->|Hbd'].
    { rewrite Heb in Hed. injection Hed as <- <-. lia. }
    destruct (decide (a = d)) as [->|Had].
    { pose proof (Hself i r Hi) as H0. rewrite Hida in H0.
      rewrite (getPathCost_entry _ _ _ _ Hed) in H0. lia. }
    destruct (wellFormed_router_of_node _ _ _ Hwf Hb) as (j & nb & Hgb & Hj & Hidb).
    specialize (IH j nb Hj Hidb).
    destruct (wellFormed_entry _ _ _ _ _ Hwf Hj Hd) as [[hn cn] Hen].
    rewrite (getPathCost_entry _ _ _ _ Hen) in IH.
    destruct (Hdesc nb d hn cn) as (Hbn & _ & Hnext);
      [by eapply list_elem_of_lookup_2|done|].
    destruct (decide (getNextHop nb d = ID r)) as [Hsh|Hsh].
    + (* the neighbour routes through the router itself: it is not cheaper *)
      rewrite (getNextHop_entry _ _ _ _ Hen) in Hsh. subst hn.
      destruct (decide (cn < 9999)) as [Hlt|Hge]; [|lia].
      destruct (Hnext ltac:(congruence) Hlt) as [?|(j' & r' & Hg' & Hlt')]; [congruence|].
      rewrite (wellFormed_getRouterByID _ _ _ _ Hwf Hi) in Hg'. injection Hg' as <- <-.
      rewrite (getPathCost_entry _ _ _ _ Hed) in Hlt'. lia.
    + pose proof (sameEnds_neighbourOf a b link Hab Hs) as HN.
      pose proof (quiet_sweep_no_better_neighbour routers' nodes links
                    i r d link j nb Hquiet Hi Hd Hlink) as Hopt.
      unfold getID in Hopt. rewrite Hida, HN in Hopt.
      rewrite (getPathCost_entry _ _ _ _ Hed), (getPathCost_entry _ _ _ _ Heb),
              (getPathCost_entry _ _ _ _ Hen) in Hopt.
      rewrite int_add_exact in Hopt by (unfold int_min, int_max; lia).
      assert (b ≠ -1) as Hb1 by (intros ->; done).
      rewrite Hida in Hsh. specialize (Hopt Hb1 Hbd' Hgb Hsh). lia.
Qed.

End ShortestPaths.

(** X22 — the costs held are the costs of cheapest walks: for a topology
    whose links join two distinct nodes at a cost between 1 and 9998 and in
    which -1 is no node id, in the collection [doBellmanFordAlg] returns for
    the seeded routers, the cost a router holds for a destination of the
    node set is not above the cost of any walk from the router to the
    destination along the links; and when that cost is below the marker
    9999, it is itself the cost of such a walk. *)
Theorem converged_costs_are_shortest nodes links routers fuel routers' :
  linkCostsIn 1 9998 links → noSelfLinks links → (-1) ∉ nodes →
  seeded nodes links routers →
  doBellmanFordAlg fuel routers nodes links = Done routers' →
  ∀ r d, r ∈ routers' → d ∈ nodes →
    (∀ t, walk links (getID r) d t → getPathCost r d ≤ t) ∧
    (getPathCost r d < 9999 → walk links (getID r) d (getPathCost r d)).
Proof.
  intros Hcosts Hns Hno Hseed Hrun r d Hr Hd.
  pose proof (seeded_linkEndsIn _ _ _ Hseed) as Hends.
  pose proof Hr as [i Hi]%list_elem_of_lookup. split.
  - intros t Hwalk.
    by eapply (converged_cost_le_walk nodes links Hends Hcosts Hns fuel routers routers').
  - intros Hlt.
    destruct (doBellmanFordAlg_routesDescend nodes links Hends Hcosts Hns fuel routers routers'
                Hseed Hrun) as [Hwf _].
    destruct (wellFormed_entry _ _ _ _ _ Hwf Hi Hd) as [[h c] He].
    rewrite (getPathCost_entry _ _ _ _ He) in *.
    by eapply (doBellmanFordAlg_costsRealised nodes links Hends Hcosts Hns fuel routers routers').
Qed.


(** The hops listed for a message need not form a cheapest walk: on the
    topology [1 2 1; 2 3 1; 1 3 5; 3 4 1] the message from 1 to 4 is written
    with cost 3, the cost of the walk 1 - 2 - 3 - 4, and with the hops 1 and
    3: router 1 holds next hop 3 for node 4, and the link between 1 and 3
    costs 5. *)
Lemma hops_listed_need_not_cost_what_is_reported :
  ∃ links nodes routers0 routers,
    initTopology fourNodeTopology [] ∅ [] = Some (links, nodes, routers0) ∧
    doBellmanFordAlg 3 routers0 nodes links = Done routers ∧
    sendMessage 3 routers (mkMessage 1 4 "m")
      = Done ("from 1 to 4 cost 3 hops 1 3 message m" +:+ nl +:+ nl) ∧
    lastLinkCost links 1 3 = Some 5 ∧ lastLinkCost links 3 4 = Some 1.
Proof.
  eexists _, _, _, _.
  split; [vm_compute; reflexivity|].
  split; [vm_compute; reflexivity|].
  split; [vm_compute; reflexivity|].
  split; vm_compute; reflexivity.
Qed.

(** ** Messages at the edges *)

(** X23 — a message from an unknown source: on one router per node id,
    when the source id of a message is no node id, the lookup of the source
    router throws at the first statement of the loop body, whatever the
    destination: [sendMessages] does not return, nothing has been written
    for the message (the output file is as the call found it), and the
    messages after it are not handled. *)
Theorem message_from_unknown_source_throws nodes routers msg fuel :
  wellFormed nodes routers → sourceID msg ∉ nodes →
  getRouterByID routers (sourceID msg) = None ∧
  sendMessage fuel routers msg = Thrown ∧
  ∀ outFile rest,
    sendMessages fuel outFile routers (msg :: rest) = (outFile, Thrown).
Proof.
  intros [Hids _] Hsrc.
  assert (getRouterByID routers (sourceID msg) = None) as Hno.
  { destruct (getRouterByID routers (sourceID msg)) as [p|] eqn:E; [|done].
    assert (is_Some (getRouterByID routers (sourceID msg))) as Hs by eauto.
    apply getRouterByID_is_Some in Hs. rewrite Hids in Hs.
    by apply elem_of_in_order in Hs. }
  assert (sendMessage fuel routers msg = Thrown) as Hsend.
  { unfold sendMessage. by rewrite Hno. }
  split; [done|]. split; [done|].
  intros outFile rest. cbn [sendMessages]. by rewrite Hsend.
Qed.

(** X24 — a message of a node to itself: for a topology whose links join
    two distinct nodes at a cost between 0 and [costMax], on the routers
    [doBellmanFordAlg] returned for the seeded collection, a message whose
    source and destination are the same node id is written with cost 0 and
    an empty hop list: the loop condition of the hop walk fails at once. *)
Theorem message_to_self nodes links routers fuel0 routers' msg fuel :
  costsWithin links → noSelfLinks links →
  seeded nodes links routers →
  doBellmanFordAlg fuel0 routers nodes links = Done routers' →
  sourceID msg ∈ nodes → destinationID msg = sourceID msg →
  sendMessage (S fuel) routers' msg =
    Done ("from " +:+ to_string (sourceID msg) +:+ " to " +:+ to_string (sourceID msg) +:+
          " cost " +:+ to_string 0 +:+ " hops message " +:+ message msg +:+ nl +:+ nl).
Proof.
  intros Hcosts Hns Hseed Hrun Hsrc Hdst.
  destruct (seeded_invariants _ _ _ Hcosts Hseed) as (Hends & Hwf & Hb).
  assert (selfRoutes links routers) as Hself.
  { intros i x Hi. left. by eapply seeded_self. }
  destruct (doBellmanFordAlg_self nodes links Hends fuel0 routers routers'
              Hwf Hb Hself Hrun) as (Hwf' & _ & Hself').
  destruct (wellFormed_router_of_node _ _ _ Hwf' Hsrc) as (i & src & Hg & Hi & Hid).
  assert (RT src !! ID src = Some (ID src, 0)) as Hown.
  { eapply quiet_self; try done. by eapply doBellmanFordAlg_fixpoint. }
  unfold sendMessage. rewrite Hg. cbv zeta. rewrite Hdst, <- Hid.
  rewrite (getPathCost_entry _ _ _ _ Hown).
  rewrite decide_False by done. cbn [hopWalk].
  rewrite decide_False by (intros Hne; by apply Hne).
  by rewrite !string_app_assoc.
Qed.

(** ** Further theorems at work on concrete topologies *)

Lemma applyChange_never_throws_witness :
  ∃ routers' nodes' links',
    applyChange (mkLink 3 4 2) [] triangleNodes triangleTopology
      = Some (routers', nodes', links') ∧
    triangleNodes ⊆ nodes' ∧ 3 ∈ nodes' ∧ 4 ∈ nodes' ∧
    linkEndsIn nodes' links' ∧ wellFormed nodes' routers'.
Proof.
  apply (applyChange_never_throws (mkLink 3 4 2) [] triangleNodes triangleTopology).
  by_computation.
Defined.

Lemma doBellmanFordAlg_never_throws_witness :
  is_Some (sweep (seedRouters triangleNodes triangleTopology) triangleNodes triangleTopology) ∧
  (doBellmanFordAlg 1 (seedRouters triangleNodes triangleTopology)
                    triangleNodes triangleTopology = OutOfFuel ∨
   ∃ routers',
     doBellmanFordAlg 1 (seedRouters triangleNodes triangleTopology)
                      triangleNodes triangleTopology = Done routers' ∧
     wellFormed triangleNodes routers').
Proof.
  apply (doBellmanFordAlg_never_throws triangleNodes triangleTopology
           (seedRouters triangleNodes triangleTopology) 1).
  - split; [vm_compute; reflexivity|by_computation].
  - by_computation.
Defined.

Lemma doBellmanFordAlg_never_raises_cost_witness :
  ∃ routers',
    doBellmanFordAlg 3 (seedRouters triangleNodes triangleTopology)
                     triangleNodes triangleTopology = Done routers' ∧
    length routers' = length (seedRouters triangleNodes triangleTopology) ∧
    ∀ i r r',
      seedRouters triangleNodes triangleTopology !! i = Some r → routers' !! i = Some r' →
      getID r' = getID r ∧ ∀ d, getPathCost r' d ≤ getPathCost r d.
Proof.
  eexists. split; [vm_compute; reflexivity|].
  apply (doBellmanFordAlg_never_raises_cost 3 (seedRouters triangleNodes triangleTopology)
           triangleNodes triangleTopology).
  vm_compute; reflexivity.
Defined.

Lemma no_two_router_loop_witness :
  ∃ routers',
    doBellmanFordAlg 3 (seedRouters triangleNodes triangleTopology)
                     triangleNodes triangleTopology = Done routers' ∧
    ∀ r n d, r ∈ routers' → n ∈ routers' → getID r ≠ getID n →
      ¬ (getNextHop r d = getID n ∧ getNextHop n d = getID r).
Proof.
  eexists. split; [vm_compute; reflexivity|].
  apply (no_two_router_loop triangleNodes triangleTopology
           (seedRouters triangleNodes triangleTopology) 3).
  - vm_compute; reflexivity.
  - vm_compute; reflexivity.
Defined.

Lemma next_hops_follow_links_witness :
  ∃ routers',
    doBellmanFordAlg 3 (seedRouters triangleNodes triangleTopology)
                     triangleNodes triangleTopology = Done routers' ∧
    ∀ r d h c, r ∈ routers' → RT r !! d = Some (h, c) →
      h = -1 ∨ (d = getID r ∧ h = getID r) ∨
      ∃ link, link ∈ triangleTopology ∧
        ((node1 link = getID r ∧ node2 link = h) ∨ (node2 link = getID r ∧ node1 link = h)).
Proof.
  eexists. split; [vm_compute; reflexivity|].
  apply (next_hops_follow_links triangleNodes triangleTopology
           (seedRouters triangleNodes triangleTopology) 3).
  - vm_compute; reflexivity.
  - vm_compute; reflexivity.
Defined.

Lemma converged_no_better_neighbour_witness :
  ∃ routers' router nb,
    doBellmanFordAlg 3 (seedRouters triangleNodes triangleTopology)
                     triangleNodes triangleTopology = Done routers' ∧
    routers' !! 0%nat = Some router ∧
    getRouterByID routers' (neighbourOf (mkLink 1 3 5) (getID router)) = Some (2%nat, nb) ∧
    getPathCost router 2 = 1 ∧
    int_add (getPathCost router (neighbourOf (mkLink 1 3 5) (getID router)))
            (getPathCost nb 2) = 3 ∧
    (getPathCost router 2 ≤
       int_add (getPathCost router (neighbourOf (mkLink 1 3 5) (getID router)))
               (getPathCost nb 2) ∧
     (getPathCost router 2 =
        int_add (getPathCost router (neighbourOf (mkLink 1 3 5) (getID router)))
                (getPathCost nb 2) →
      -1 ≤ neighbourOf (mkLink 1 3 5) (getID router))).
Proof.
  eexists _, _, _.
  split; [vm_compute; reflexivity|].
  split; [vm_compute; reflexivity|].
  split; [vm_compute; reflexivity|].
  split; [vm_compute; reflexivity|].
  split; [vm_compute; reflexivity|].
  lazymatch goal with
  | |- getPathCost ?router 2 ≤ int_add _ (getPathCost ?nb 2) ∧ _ =>
      eapply (converged_no_better_neighbour 3 (seedRouters triangleNodes triangleTopology)
               triangleNodes triangleTopology _ 0 router 2 (mkLink 1 3 5) 2 nb)
  end.
  - vm_compute; reflexivity.
  - vm_compute; reflexivity.
  - by_computation.
  - by_computation.
  - by vm_compute.
  - by vm_compute.
  - vm_compute; reflexivity.
  - by vm_compute.
Defined.

Lemma seeded_direct_routes_witness :
  seeded triangleNodes (triangleTopology ++ [mkLink 3 1 7])
         (seedRouters triangleNodes (triangleTopology ++ [mkLink 3 1 7])) ∧
  ∀ r d, r ∈ seedRouters triangleNodes (triangleTopology ++ [mkLink 3 1 7]) →
    RoutingTable.contains (getRoutingTable r) d = bool_decide (d ∈ triangleNodes) ∧
    (getNextHop r d, getPathCost r d) =
      match lastLinkCost (triangleTopology ++ [mkLink 3 1 7]) (getID r) d with
      | Some c => (d, c)
      | None =>
          if decide (d ∈ triangleNodes)
          then if decide (d = getID r) then (d, 0) else (-1, 9999)
          else (-1, -1)
      end.
Proof.
  split; [vm_compute; reflexivity|].
  apply (seeded_direct_routes triangleNodes (triangleTopology ++ [mkLink 3 1 7])).
  vm_compute; reflexivity.
Defined.

Lemma add_then_remove_link_witness :
  ∃ routers1 nodes1 links1 routers2,
    applyChange (mkLink 1 3 2) [] triangleNodes lineTopology
      = Some (routers1, nodes1, links1) ∧
    links1 = lineTopology ++ [mkLink 1 3 2] ∧
    applyChange (mkLink 3 1 (-999)) routers1 nodes1 links1
      = Some (routers2, nodes1, removeLink lineTopology (mkLink 1 3 2)) ∧
    1 ∈ nodes1 ∧ 3 ∈ nodes1 ∧
    ((∀ link, link ∈ lineTopology → ¬ sameEnds (mkLink 1 3 2) link) →
     removeLink lineTopology (mkLink 1 3 2) = lineTopology).
Proof.
  apply (add_then_remove_link 1 3 2 [] triangleNodes lineTopology).
  - done.
  - by_computation.
Defined.

Lemma isolated_node_unreachable_witness :
  ∃ routers',
    doBellmanFordAlg 2 (seedRouters triangleNodes [mkLink 1 2 1])
                     triangleNodes [mkLink 1 2 1] = Done routers' ∧
    (∀ r, r ∈ routers' → getID r = 3 →
          getRoutingTable r = RoutingTable.make 3 triangleNodes) ∧
    (∀ r, r ∈ routers' → getID r ≠ 3 → getPathCost r 3 = 9999) ∧
    ∀ msg fuel',
      sourceID msg ∈ triangleNodes → destinationID msg ∈ triangleNodes →
      sourceID msg ≠ destinationID msg →
      sourceID msg = 3 ∨ destinationID msg = 3 →
      sendMessage fuel' routers' msg =
        Done ("from " +:+ to_string (sourceID msg) +:+ " to " +:+
              to_string (destinationID msg) +:+
              " cost infinite hops unreachable message " +:+ message msg +:+ nl +:+ nl).
Proof.
  eexists. split; [vm_compute; reflexivity|].
  apply (isolated_node_unreachable triangleNodes [mkLink 1 2 1]
           (seedRouters triangleNodes [mkLink 1 2 1]) 2 _ 3).
  - by_computation.
  - vm_compute; reflexivity.
  - by_computation.
  - apply Forall_forall. by_computation.
  - vm_compute; reflexivity.
Defined.

Lemma writeFT_report_witness :
  writeFT EmptyString (seedRouters triangleNodes triangleTopology) =
    EmptyString +:+
    concatStrings
      ((fun r => concatStrings (tableLine r <$> in_order triangleNodes) +:+ nl)
         <$> seedRouters triangleNodes triangleTopology).
Proof.
  apply (writeFT_report triangleNodes EmptyString (seedRouters triangleNodes triangleTopology)).
  split; [vm_compute; reflexivity|by_computation].
Defined.

Lemma sendMessages_returns_witness :
  ∃ texts,
    Forall2 (fun msg text =>
               sendMessage 3 (seedRouters triangleNodes triangleTopology) msg = Done text)
            [mkMessage 1 3 "hello"; mkMessage 2 1 "hi"] texts ∧
    (sendMessages 3 EmptyString (seedRouters triangleNodes triangleTopology)
                  [mkMessage 1 3 "hello"; mkMessage 2 1 "hi"]).1
      = EmptyString +:+ concatStrings texts.
Proof.
  apply (proj1 (sendMessages_returns 3 EmptyString
                  (seedRouters triangleNodes triangleTopology)
                  [mkMessage 1 3 "hello"; mkMessage 2 1 "hi"] _)).
  vm_compute; reflexivity.
Defined.

Lemma hopWalk_follows_next_hops_witness :
  ∃ routers',
    doBellmanFordAlg 3 (seedRouters triangleNodes triangleTopology)
                     triangleNodes triangleTopology = Done routers' ∧
    ∃ hops,
      hopPath routers' 3 1 hops ∧ (length hops < 3)%nat ∧
      "1 2 " = EmptyString +:+ concatStrings ((fun h => to_string h +:+ " ") <$> hops).
Proof.
  eexists. split; [vm_compute; reflexivity|].
  lazymatch goal with
  | |- ∃ hops, hopPath ?rs _ _ hops ∧ _ =>
      apply (proj1 (hopWalk_follows_next_hops 3 rs 1 3 EmptyString "1 2 "))
  end.
  vm_compute; reflexivity.
Defined.

Lemma messages_between_known_nodes_are_delivered_witness :
  ∃ routers',
    doBellmanFordAlg 3 (seedRouters triangleNodes triangleTopology)
                     triangleNodes triangleTopology = Done routers' ∧
    ∃ text, ∀ fuel, 10000 ≤ Z.of_nat fuel →
      sendMessage fuel routers' (mkMessage 1 3 "hello") = Done text.
Proof.
  eexists. split; [vm_compute; reflexivity|].
  apply (messages_between_known_nodes_are_delivered triangleNodes triangleTopology
           (seedRouters triangleNodes triangleTopology) 3 _ (mkMessage 1 3 "hello")).
  - by_computation.
  - by_computation.
  - vm_compute; reflexivity.
  - vm_compute; reflexivity.
  - by_computation.
  - by_computation.
Defined.

Lemma dvr_returns_witness :
  ∃ final fuel0, ∀ fuel, (fuel0 ≤ fuel)%nat →
    dvr fuel triangleTopology [mkMessage 1 3 "hello"; mkMessage 3 1 "back"]
        [mkLink 2 3 (-999); mkLink 1 4 2] = Done final.
Proof.
  apply (dvr_returns triangleTopology [mkMessage 1 3 "hello"; mkMessage 3 1 "back"]
           [mkLink 2 3 (-999); mkLink 1 4 2]).
  - by_computation.
  - by_computation.
  - by_computation.
  - by_computation.
  - by_computation.
Defined.

Lemma dvr_round_by_round_witness :
  ∃ final',
    dvr 3 triangleTopology [mkMessage 1 3 "hello"] ([mkLink 2 3 (-999)] ++ [mkLink 1 4 2])
      = Done final' ∧
    ∃ links nodes routers outFile seed nodes' links' routers' texts,
      dvr 3 triangleTopology [mkMessage 1 3 "hello"] [mkLink 2 3 (-999)]
        = Done (links, nodes, routers, outFile) ∧
      applyChange (mkLink 1 4 2) routers nodes links = Some (seed, nodes', links') ∧
      doBellmanFordAlg 3 seed nodes' links' = Done routers' ∧
      Forall2 (fun msg text => sendMessage 3 routers' msg = Done text)
              [mkMessage 1 3 "hello"] texts ∧
      final' = (links', nodes', routers',
                outFile +:+ writeFT EmptyString routers' +:+ concatStrings texts).
Proof.
  eexists. split; [vm_compute; reflexivity|].
  apply (proj2 (dvr_round_by_round 3 triangleTopology [mkMessage 1 3 "hello"])
           [mkLink 2 3 (-999)] (mkLink 1 4 2)).
  vm_compute; reflexivity.
Defined.


Lemma converged_costs_are_shortest_witness :
  ∃ routers',
    doBellmanFordAlg 3 (seedRouters triangleNodes triangleTopology)
                     triangleNodes triangleTopology = Done routers' ∧
    ∀ r d, r ∈ routers' → d ∈ triangleNodes →
      (∀ t, walk triangleTopology (getID r) d t → getPathCost r d ≤ t) ∧
      (getPathCost r d < 9999 → walk triangleTopology (getID r) d (getPathCost r d)).
Proof.
  eexists. split; [vm_compute; reflexivity|].
  apply (converged_costs_are_shortest triangleNodes triangleTopology
           (seedRouters triangleNodes triangleTopology) 3).
  - by_computation.
  - by_computation.
  - by_computation.
  - vm_compute; reflexivity.
  - vm_compute; reflexivity.
Defined.

Lemma message_from_unknown_source_throws_witness :
  getRouterByID (seedRouters triangleNodes triangleTopology) 7 = None ∧
  sendMessage 3 (seedRouters triangleNodes triangleTopology) (mkMessage 7 1 "hello") = Thrown ∧
  ∀ outFile rest,
    sendMessages 3 outFile (seedRouters triangleNodes triangleTopology)
                 (mkMessage 7 1 "hello" :: rest) = (outFile, Thrown).
Proof.
  apply (message_from_unknown_source_throws triangleNodes
           (seedRouters triangleNodes triangleTopology) (mkMessage 7 1 "hello") 3).
  - split; [vm_compute; reflexivity|by_computation].
  - by_computation.
Defined.

Lemma message_to_self_witness :
  ∃ routers',
    doBellmanFordAlg 3 (seedRouters triangleNodes triangleTopology)
                     triangleNodes triangleTopology = Done routers' ∧
    sendMessage 1 routers' (mkMessage 2 2 "hello") =
      Done ("from " +:+ to_string 2 +:+ " to " +:+ to_string 2 +:+
            " cost " +:+ to_string 0 +:+ " hops message " +:+ "hello" +:+ nl +:+ nl).
Proof.
  eexists. split; [vm_compute; reflexivity|].
  apply (message_to_self triangleNodes triangleTopology
           (seedRouters triangleNodes triangleTopology) 3 _ (mkMessage 2 2 "hello") 0).
  - by_computation.
  - by_computation.
  - vm_compute; reflexivity.
  - vm_compute; reflexivity.
  - by_computation.
  - reflexivity.
Defined.
